(** * ATLAS particle viewer: event validation, track rendering, filters,
      emergence animation and hover/selection

    A shallow embedding of [src/src/data-loader.js] (class [DataLoader]) and
    [src/src/particle-tracks.js] (class [ParticleTracks]).

    JavaScript numbers are IEEE-754 doubles and are modelled by Rocq's
    primitive binary64 floats, so [Math.sqrt], [+], [*], [/], the comparisons
    and the NaN test are the machine operations.  [Math.atan2], [Math.log],
    [Math.tan] and [Math.pow], which ECMAScript leaves to the implementation,
    are section variables. *)

From Stdlib Require Import Floats ZArith Lia Uint63 Ascii String.
From stdpp Require Import gmap strings list fin_maps pretty.

Set Warnings "-inexact-float,-register-all".

(** ** JavaScript values, as produced by [JSON.parse] *)

Module JS.

Inductive value : Type :=
  | VUndef
  | VNull
  | VBool (b : bool)
  | VNum (n : float)
  | VStr (s : string)
  | VArr (elems : list value)
  | VObj (props : gmap string value).

Inductive jstype : Type :=
  | TUndefined | TObject | TBoolean | TNumber | TString.

#[global] Instance jstype_eq_dec : EqDecision jstype.
Proof. solve_decision. Defined.

(** [typeof v] *)
Definition typeof (v : value) : jstype :=
  match v with
  | VUndef => TUndefined
  | VNull => TObject
  | VBool _ => TBoolean
  | VNum _ => TNumber
  | VStr _ => TString
  | VArr _ => TObject
  | VObj _ => TObject
  end.

(** ToBoolean: what [if (v)], [!v] and [v || w] test. *)
Definition truthy (v : value) : bool :=
  match v with
  | VUndef | VNull => false
  | VBool b => b
  | VNum n => negb (PrimFloat.eqb n 0 || PrimFloat.is_nan n)
  | VStr s => negb (String.eqb s "")
  | VArr _ | VObj _ => true
  end.

(** [Array.isArray v] *)
Definition isArray (v : value) : bool :=
  match v with VArr _ => true | _ => false end.

(** The double that represents a (small) natural number, such as an array
    length or a loop counter. *)
Definition float_of_nat (n : nat) : float :=
  PrimFloat.of_uint63 (Uint63.of_Z (Z.of_nat n)).

Definition digit_of (c : ascii) : option nat :=
  let n := nat_of_ascii c in
  if (48 <=? n)%nat && (n <=? 57)%nat then Some (n - 48)%nat else None.

Fixpoint parse_digits (s : string) (acc : nat) : option nat :=
  match s with
  | EmptyString => Some acc
  | String c s' =>
      match digit_of c with
      | Some d => parse_digits s' (10 * acc + d)%nat
      | None => None
      end
  end.

(** A property key that is a canonical array index ("0", "1", "17", ...). *)
Definition array_index (k : string) : option nat :=
  match k with
  | EmptyString => None
  | String c EmptyString => digit_of c
  | String c _ => if Ascii.eqb c "0" then None else parse_digits k 0
  end.

(** Property read [v.k] / [v[k]].  The validators read properties only of
    values they have checked to be non-null with [typeof v === 'object'],
    that is of objects and arrays; for the other values the model answers
    [undefined]. *)
Definition get_prop (v : value) (k : string) : value :=
  match v with
  | VObj o => default VUndef (o !! k)
  | VArr l =>
      if String.eqb k "length" then VNum (float_of_nat (length l))
      else match array_index k with
           | Some i => default VUndef (l !! i)
           | None => VUndef
           end
  | _ => VUndef
  end.

(** [k in v], for the schema's field names (none of them is inherited from
    [Object.prototype] or [Array.prototype]). *)
Definition has_prop (k : string) (v : value) : bool :=
  match v with
  | VObj o => bool_decide (is_Some (o !! k))
  | VArr l =>
      String.eqb k "length" ||
      match array_index k with
      | Some i => (i <? length l)%nat
      | None => false
      end
  | _ => false
  end.

Fixpoint chars (s : string) : list value :=
  match s with
  | EmptyString => []
  | String c s' => VStr (String c EmptyString) :: chars s'
  end.

Definition indexed (l : list value) : gmap string value :=
  list_to_map (imap (λ i x, (pretty i, x)) l).

(** The own enumerable properties copied by an object spread [{...v}]. *)
Definition spread (v : value) : gmap string value :=
  match v with
  | VObj o => o
  | VArr l => indexed l
  | VStr s => indexed (chars s)
  | _ => ∅
  end.

(** The double held by a property that has been checked to be a number. *)
Definition num_of (v : value) : float :=
  match v with VNum n => n | _ => PrimFloat.nan end.

(** [Math.min a b] on doubles: NaN is contagious and -0 is below +0. *)
Definition Math_min (a b : float) : float :=
  if PrimFloat.is_nan a || PrimFloat.is_nan b then PrimFloat.nan
  else if PrimFloat.ltb a b then a
  else if PrimFloat.ltb b a then b
  else if PrimFloat.ltb (1 / a) 0 then a else b.

(** [Math.max a b] on doubles: NaN is contagious and +0 is above -0. *)
Definition Math_max (a b : float) : float :=
  if PrimFloat.is_nan a || PrimFloat.is_nan b then PrimFloat.nan
  else if PrimFloat.ltb b a then a
  else if PrimFloat.ltb a b then b
  else if PrimFloat.ltb (1 / a) 0 then b else a.

End JS.

Import JS.

(** ** Exceptions and results *)

(** The [Error]s thrown by the validators, one constructor per message. *)
Inductive SchemaError : Type :=
  | EventNotObject
  | MissingField (field : string)
  | VertexNotObject
  | VertexNotNumbers
  | ParticlesNotArray
  | ParticleNotObject (index : nat)
  | ParticleMissingField (index : nat) (field : string)
  | ParticleFieldNotNumber (index : nat) (field : string)
  | TrajectoryNotArray (index : nat)
  | PointNotObject (index pointIndex : nat)
  | PointNotNumbers (index pointIndex : nat).

Inductive result (A : Type) : Type :=
  | Ok (a : A)
  | Throw (e : SchemaError).
Arguments Ok {A} a.
Arguments Throw {A} e.

#[global] Instance result_ret : MRet result := λ A a, Ok a.
#[global] Instance result_bind : MBind result := λ A B f m,
  match m with
  | Ok a => f a
  | Throw e => Throw e
  end.

Definition is_Ok {A} (r : result A) : bool :=
  match r with Ok _ => true | Throw _ => false end.

(** [l.map((x, i) => f(x, i))] where [f] may throw: elements are visited in
    order and the first exception aborts the whole map. *)
Fixpoint map_from {A B} (f : A → nat → result B) (i : nat) (l : list A)
  : result (list B) :=
  match l with
  | [] => Ok []
  | x :: l' =>
      y ← f x i;
      ys ← map_from f (S i) l';
      Ok (y :: ys)
  end.

(** [for (const field of fields) if (!(field in v)) throw ...] *)
Fixpoint check_required (fields : list string) (v : value)
    (err : string → SchemaError) : result unit :=
  match fields with
  | [] => Ok ()
  | f :: fs => if has_prop f v then check_required fs v err else Throw (err f)
  end.

(** [for (const field of fields)
      if (typeof v[field] !== 'number' || isNaN(v[field])) throw ...] *)
Fixpoint check_numeric (fields : list string) (v : value)
    (err : string → SchemaError) : result unit :=
  match fields with
  | [] => Ok ()
  | f :: fs =>
      match get_prop v f with
      | VNum n => if PrimFloat.is_nan n then Throw (err f)
                  else check_numeric fs v err
      | _ => Throw (err f)
      end
  end.

(** ** DataLoader *)

Module DataLoader.

(** [this.eventSchema] *)
Definition eventSchema_required : list string :=
  ["event_id"; "particles"; "vertex"].
Definition eventSchema_particle_required : list string :=
  ["id"; "type"; "px"; "py"; "pz"; "E"].
Definition numericFields : list string := ["px"; "py"; "pz"; "E"].

(** The object literal [{ x: a, y: b, z: c }]. *)
Definition point (a b c : float) : value :=
  VObj (<["z" := VNum c]> (<["y" := VNum b]> (<["x" := VNum a]> ∅))).

Definition maxDistance : float := 5.0.
Definition numPoints : nat := 6.

(** [generateSimpleTrajectory(particle)], on the destructured [px], [py],
    [pz] of a particle whose momentum components are numbers (both callers
    guarantee it). *)
Definition generateSimpleTrajectory (px py pz : float) : list value :=
  let momentum := PrimFloat.sqrt (px * px + py * py + pz * pz) in
  if PrimFloat.eqb momentum 0 then [point 0 0 0]
  else
    let dirX := (px / momentum)%float in
    let dirY := (py / momentum)%float in
    let dirZ := (pz / momentum)%float in
    map (λ i,
           let distance :=
             (float_of_nat i / float_of_nat (numPoints - 1) * maxDistance)%float in
           point (distance * dirX) (distance * dirY) (distance * dirZ))
        (seq 0 numPoints).

(** The callback of [trajectory.map] in [validateParticle]. *)
Definition validatePoint (index : nat) (pt : value) (pointIndex : nat)
  : result value :=
  if negb (truthy pt) || negb (bool_decide (typeof pt = TObject))
  then Throw (PointNotObject index pointIndex)
  else
    match get_prop pt "x", get_prop pt "y", get_prop pt "z" with
    | VNum x, VNum y, VNum z => Ok (point x y z)
    | _, _, _ => Throw (PointNotNumbers index pointIndex)
    end.

Section Validation.

(** [Math.atan2], [Math.log], [Math.tan] of the host. *)
Variable Math_atan2 : float → float → float.
Variables Math_log Math_tan : float → float.

Definition derived_pt (px py : float) : float :=
  PrimFloat.sqrt (px * px + py * py).
Definition derived_momentum (px py pz : float) : float :=
  PrimFloat.sqrt (px * px + py * py + pz * pz).
Definition derived_eta (px py pz : float) : float :=
  let pt := derived_pt px py in
  if negb (PrimFloat.eqb pz 0)
  then (- Math_log (Math_tan (Math_atan2 pt (PrimFloat.abs pz) / 2)))%float
  else 0%float.
Definition derived_phi (px py : float) : float := Math_atan2 py px.

(** The object literal [{ pt, momentum, eta, phi }]. *)
Definition derived (px py pz : float) : value :=
  VObj (<["phi" := VNum (derived_phi px py)]>
       (<["eta" := VNum (derived_eta px py pz)]>
       (<["momentum" := VNum (derived_momentum px py pz)]>
       (<["pt" := VNum (derived_pt px py)]> ∅)))).

(** [validateParticle(particle, index)] *)
Definition validateParticle (particle : value) (index : nat) : result value :=
  if negb (truthy particle) || negb (bool_decide (typeof particle = TObject))
  then Throw (ParticleNotObject index)
  else
    _ ← check_required eventSchema_particle_required particle
          (ParticleMissingField index);
    _ ← check_numeric numericFields particle (ParticleFieldNotNumber index);
    let px := num_of (get_prop particle "px") in
    let py := num_of (get_prop particle "py") in
    let pz := num_of (get_prop particle "pz") in
    let trajectory := get_prop particle "trajectory" in
    trajectory' ←
      (if truthy trajectory then
         match trajectory with
         | VArr pts => map_from (validatePoint index) 0 pts
         | _ => Throw (TrajectoryNotArray index)
         end
       else Ok (generateSimpleTrajectory px py pz));
    Ok (VObj (<["derived" := derived px py pz]>
             (<["trajectory" := VArr trajectory']> (spread particle)))).

(** [validateEvent(eventData)]; [now] is [new Date().toISOString()]. *)
Definition validateEvent (now : string) (eventData : value) : result value :=
  if negb (truthy eventData) || negb (bool_decide (typeof eventData = TObject))
  then Throw EventNotObject
  else
    _ ← check_required eventSchema_required eventData MissingField;
    let vertex := get_prop eventData "vertex" in
    if negb (truthy vertex) || negb (bool_decide (typeof vertex = TObject))
    then Throw VertexNotObject
    else
      match get_prop vertex "x", get_prop vertex "y", get_prop vertex "z" with
      | VNum _, VNum _, VNum _ =>
          match get_prop eventData "particles" with
          | VArr particles =>
              validatedParticles ← map_from validateParticle 0 particles;
              Ok (VObj
                (<["metadata" :=
                     VObj (<["validated_at" := VStr now]>
                          (<["particle_count" :=
                               VNum (float_of_nat (length validatedParticles))]>
                          (spread (get_prop eventData "metadata"))))]>
                (<["particles" := VArr validatedParticles]>
                (spread eventData))))
          | _ => Throw ParticlesNotArray
          end
      | _, _, _ => Throw VertexNotNumbers
      end.

End Validation.

End DataLoader.

(** ** ParticleTracks *)

Module ParticleTracks.

(** [THREE.Vector3], and the [{x, y, z}] points of a validated trajectory. *)
Record Vec3 : Type := { vx : float; vy : float; vz : float }.

(** [THREE.Vector2]: the pointer in normalized device coordinates. *)
Record Vec2 : Type := { mx : float; my : float }.

Record Config : Type :=
  { cfg_color : Z; cfg_name : string; cfg_symbol : string; thickness : float }.

Definition unknown : Config :=
  {| cfg_color := 0xCCCCCC; cfg_name := "Unknown"; cfg_symbol := "?";
     thickness := 1.5 |}.

Definition PARTICLE_CONFIG : gmap string Config :=
  list_to_map
    [ ("electron", {| cfg_color := 0x00FF00; cfg_name := "Electron";
                      cfg_symbol := "e-"; thickness := 2.5 |});
      ("positron", {| cfg_color := 0x00FF88; cfg_name := "Positron";
                      cfg_symbol := "e+"; thickness := 2.5 |});
      ("muon", {| cfg_color := 0xFF0000; cfg_name := "Muon";
                  cfg_symbol := "mu"; thickness := 3.0 |});
      ("photon", {| cfg_color := 0xFFFF00; cfg_name := "Photon";
                    cfg_symbol := "gamma"; thickness := 2.0 |});
      ("pion_plus", {| cfg_color := 0x0080FF; cfg_name := "Pion+";
                       cfg_symbol := "pi+"; thickness := 2.0 |});
      ("pion_minus", {| cfg_color := 0x8000FF; cfg_name := "Pion-";
                        cfg_symbol := "pi-"; thickness := 2.0 |});
      ("kaon_plus", {| cfg_color := 0xFF8000; cfg_name := "Kaon+";
                       cfg_symbol := "K+"; thickness := 2.0 |});
      ("kaon_minus", {| cfg_color := 0xFF4000; cfg_name := "Kaon-";
                        cfg_symbol := "K-"; thickness := 2.0 |});
      ("proton", {| cfg_color := 0xFF0080; cfg_name := "Proton";
                    cfg_symbol := "p"; thickness := 2.5 |});
      ("neutron", {| cfg_color := 0x808080; cfg_name := "Neutron";
                     cfg_symbol := "n"; thickness := 2.0 |});
      ("unknown", unknown) ].

(** A particle as [loadTracks] receives it from a validated event: the
    momentum components and the energy are numbers and the trajectory, when
    there is one, is an array of points. *)
Record Particle : Type :=
  { p_id : Z;
    p_type : string;
    p_px : float; p_py : float; p_pz : float;
    p_E : float;
    p_trajectory : option (list Vec3) }.

Record TrackData : Type :=
  { particle : Particle;
    config : Config;
    trajectory : list Vec3;
    pt : float;
    momentum : float;
    index : nat }.

(** The geometries built for a track: a tube along a Catmull-Rom curve
    through [path], a poly-line, or the cone of a direction arrow. *)
Inductive Geometry : Type :=
  | TubeGeometry (path : list Vec3) (tubularSegments : nat) (radius : float)
  | LineGeometry (points : list Vec3)
  | ConeGeometry.

(** A material.  [color] is the hex value last given to the constructor or
    to [color.setHex] ([None] when that argument was [undefined]);
    [opacity] is [None] when it was assigned [undefined];
    [emissive] is the hex value of the emissive colour of a
    [MeshLambertMaterial], and [None] for a [LineBasicMaterial], which has no
    such property. *)
Record Material : Type :=
  { color : option Z; opacity : option float; emissive : option Z }.

Record UserData : Type :=
  { ud_particle : option Particle;
    ud_trackData : option TrackData;
    originalColor : option Z;
    originalOpacity : option float;
    isArrow : bool }.

Inductive ObjectKind : Type := Mesh | Line.

(** A scene object of the tracks group.  The position and orientation of an
    arrow are not modelled. *)
Record TrackObject : Type :=
  { kind : ObjectKind;
    geometry : Geometry;
    material : Material;
    userData : UserData;
    visible : bool;
    scale : float }.

(** An entry of [animatedTracks]; [mesh] refers to a scene object by its
    position in [trackObjects]. *)
Record AnimatedTrack : Type :=
  { mesh : nat; originalScale : float; delay : float }.

(** The fields of a [ParticleTracks] instance.  [hoveredTrack] and
    [selectedTrack] refer to scene objects by their position in
    [trackObjects]; the children of [tracksGroup] are the same objects. *)
Record State : Type :=
  { tracks : list TrackData;
    trackObjects : list TrackObject;
    animatedTracks : list AnimatedTrack;
    hoveredTrack : option nat;
    selectedTrack : option nat;
    useSimplifiedRendering : bool;
    animationProgress : float;
    isAnimating : bool;
    animationStartTime : float }.

Definition maxTracks : nat := 500.
Definition animationDuration : float := 2000.

(** The state the constructor leaves. *)
Definition initial : State :=
  {| tracks := []; trackObjects := []; animatedTracks := [];
     hoveredTrack := None; selectedTrack := None;
     useSimplifiedRendering := false;
     animationProgress := 0; isAnimating := false; animationStartTime := 0 |}.

Inductive CustomEvent : Type :=
  | trackAnimationComplete
  | particleHover (p : option Particle) (position : Vec2)
  | particleHoverEnd
  | particleSelect (p : option Particle) (screenPosition : Vec2)
      (worldPosition : Vec3)
  | particleDeselect.

Inductive Warning : Type :=
  | PerformanceWarning (count : nat)
  | InsufficientTrajectory (id : Z).

(** What a method does to the world outside the instance. *)
Inductive Effect : Type :=
  | ConsoleWarn (w : Warning)
  | DispatchEvent (e : CustomEvent)
  | RequestAnimationFrame
  | SetCursor (c : string).

Inductive Exception : Type := TypeError.

Inductive Outcome (A : Type) : Type :=
  | Done (a : A)
  | Raised (e : Exception).
Arguments Done {A} a.
Arguments Raised {A} e.

(** Methods run on the instance state, log their effects in order and may
    raise; the state reached when an exception is raised is kept, as the
    assignments made before a JavaScript exception are. *)
Definition M (A : Type) : Type := State → Outcome A * State * list Effect.

#[global] Instance M_ret : MRet M := λ A a s, (Done a, s, []).
#[global] Instance M_bind : MBind M := λ A B k m s,
  match m s with
  | (Done a, s1, l1) =>
      match k a s1 with
      | (o, s2, l2) => (o, s2, l1 ++ l2)
      end
  | (Raised e, s1, l1) => (Raised e, s1, l1)
  end.

Definition get_state : M State := λ s, (Done s, s, []).
Definition modify (f : State → State) : M unit := λ s, (Done (), f s, []).
Definition emit (e : Effect) : M unit := λ s, (Done (), s, [e]).
Definition raise {A} (e : Exception) : M A := λ s, (Raised e, s, []).

(** The state a method leaves, whether it returned or raised. *)
Definition exec {A} (m : M A) (s : State) : State := (m s).1.2.
Definition effects {A} (m : M A) (s : State) : list Effect := (m s).2.
Definition outcome {A} (m : M A) (s : State) : Outcome A := (m s).1.1.

(** [l.forEach((x, i) => f(x, i))] *)
Fixpoint forEach_from {A} (f : A → nat → M unit) (i : nat) (l : list A)
  : M unit :=
  match l with
  | [] => mret ()
  | x :: l' => f x i;; forEach_from f (S i) l'
  end.

Definition forEach {A} (f : A → M unit) (l : list A) : M unit :=
  forEach_from (λ x _, f x) 0 l.

(** *** Field assignments *)

Definition set_tracks (v : list TrackData) (s : State) : State :=
  {| tracks := v; trackObjects := trackObjects s;
     animatedTracks := animatedTracks s; hoveredTrack := hoveredTrack s;
     selectedTrack := selectedTrack s;
     useSimplifiedRendering := useSimplifiedRendering s;
     animationProgress := animationProgress s; isAnimating := isAnimating s;
     animationStartTime := animationStartTime s |}.

Definition set_trackObjects (v : list TrackObject) (s : State) : State :=
  {| tracks := tracks s; trackObjects := v;
     animatedTracks := animatedTracks s; hoveredTrack := hoveredTrack s;
     selectedTrack := selectedTrack s;
     useSimplifiedRendering := useSimplifiedRendering s;
     animationProgress := animationProgress s; isAnimating := isAnimating s;
     animationStartTime := animationStartTime s |}.

Definition set_animatedTracks (v : list AnimatedTrack) (s : State) : State :=
  {| tracks := tracks s; trackObjects := trackObjects s;
     animatedTracks := v; hoveredTrack := hoveredTrack s;
     selectedTrack := selectedTrack s;
     useSimplifiedRendering := useSimplifiedRendering s;
     animationProgress := animationProgress s; isAnimating := isAnimating s;
     animationStartTime := animationStartTime s |}.

Definition set_hoveredTrack (v : option nat) (s : State) : State :=
  {| tracks := tracks s; trackObjects := trackObjects s;
     animatedTracks := animatedTracks s; hoveredTrack := v;
     selectedTrack := selectedTrack s;
     useSimplifiedRendering := useSimplifiedRendering s;
     animationProgress := animationProgress s; isAnimating := isAnimating s;
     animationStartTime := animationStartTime s |}.

Definition set_selectedTrack (v : option nat) (s : State) : State :=
  {| tracks := tracks s; trackObjects := trackObjects s;
     animatedTracks := animatedTracks s; hoveredTrack := hoveredTrack s;
     selectedTrack := v;
     useSimplifiedRendering := useSimplifiedRendering s;
     animationProgress := animationProgress s; isAnimating := isAnimating s;
     animationStartTime := animationStartTime s |}.

Definition set_useSimplifiedRendering (v : bool) (s : State) : State :=
  {| tracks := tracks s; trackObjects := trackObjects s;
     animatedTracks := animatedTracks s; hoveredTrack := hoveredTrack s;
     selectedTrack := selectedTrack s;
     useSimplifiedRendering := v;
     animationProgress := animationProgress s; isAnimating := isAnimating s;
     animationStartTime := animationStartTime s |}.

Definition set_animationProgress (v : float) (s : State) : State :=
  {| tracks := tracks s; trackObjects := trackObjects s;
     animatedTracks := animatedTracks s; hoveredTrack := hoveredTrack s;
     selectedTrack := selectedTrack s;
     useSimplifiedRendering := useSimplifiedRendering s;
     animationProgress := v; isAnimating := isAnimating s;
     animationStartTime := animationStartTime s |}.

Definition set_isAnimating (v : bool) (s : State) : State :=
  {| tracks := tracks s; trackObjects := trackObjects s;
     animatedTracks := animatedTracks s; hoveredTrack := hoveredTrack s;
     selectedTrack := selectedTrack s;
     useSimplifiedRendering := useSimplifiedRendering s;
     animationProgress := animationProgress s; isAnimating := v;
     animationStartTime := animationStartTime s |}.

Definition set_animationStartTime (v : float) (s : State) : State :=
  {| tracks := tracks s; trackObjects := trackObjects s;
     animatedTracks := animatedTracks s; hoveredTrack := hoveredTrack s;
     selectedTrack := selectedTrack s;
     useSimplifiedRendering := useSimplifiedRendering s;
     animationProgress := animationProgress s; isAnimating := isAnimating s;
     animationStartTime := v |}.

Definition set_visible (v : bool) (o : TrackObject) : TrackObject :=
  {| kind := kind o; geometry := geometry o; material := material o;
     userData := userData o; visible := v; scale := scale o |}.

(** [o.scale.setScalar(v)] *)
Definition setScalar (v : float) (o : TrackObject) : TrackObject :=
  {| kind := kind o; geometry := geometry o; material := material o;
     userData := userData o; visible := visible o; scale := v |}.

Definition set_material (m : Material) (o : TrackObject) : TrackObject :=
  {| kind := kind o; geometry := geometry o; material := m;
     userData := userData o; visible := visible o; scale := scale o |}.

(** [o.material.color.setHex(h)] *)
Definition color_setHex (h : option Z) (o : TrackObject) : TrackObject :=
  set_material {| color := h; opacity := opacity (material o);
                  emissive := emissive (material o) |} o.

(** [o.material.opacity = v] *)
Definition set_opacity (v : option float) (o : TrackObject) : TrackObject :=
  set_material {| color := color (material o); opacity := v;
                  emissive := emissive (material o) |} o.

Definition set_emissive (h : Z) (o : TrackObject) : TrackObject :=
  set_material {| color := color (material o);
                  opacity := opacity (material o);
                  emissive := Some h |} o.

(** In-place update of the scene object that [r] refers to. *)
Definition update (r : nat) (f : TrackObject → TrackObject) : M unit :=
  modify (λ s, set_trackObjects (alter f r (trackObjects s)) s).

(** Dereference; a reference held by the instance or returned by the
    raycaster always names an object of [trackObjects]. *)
Definition deref (r : nat) : M TrackObject :=
  s ← get_state;
  match trackObjects s !! r with
  | Some o => mret o
  | None => raise TypeError
  end.

(** [o.material.emissive.setHex(h)]: a [TypeError] when the material has no
    emissive colour. *)
Definition emissive_setHex (r : nat) (h : Z) : M unit :=
  o ← deref r;
  match emissive (material o) with
  | Some _ => update r (set_emissive h)
  | None => raise TypeError
  end.

(** ToNumber of a property that is a number or [undefined]. *)
Definition ToNumber (v : option float) : float := default PrimFloat.nan v.

(** *** Building tracks *)

(** [clearTracks()]; removing the children from the group and disposing of
    their geometries and materials leaves no trace in the instance. *)
Definition clearTracks (s : State) : State :=
  set_trackObjects []
    (set_selectedTrack None
      (set_hoveredTrack None
        (set_animatedTracks []
          (set_tracks [] s)))).

(** [this.trackObjects.push(o); this.tracksGroup.add(o)] *)
Definition push_object (o : TrackObject) : M unit :=
  modify (λ s, set_trackObjects (trackObjects s ++ [o]) s).

(** [createDirectionArrow(trackData, points)] *)
Definition createDirectionArrow (trackData : TrackData) (points : list Vec3)
  : M unit :=
  if (length points <? 2)%nat then mret ()
  else
    push_object
      {| kind := Mesh;
         geometry := ConeGeometry;
         material := {| color := Some (cfg_color (config trackData));
                        opacity := Some 0.9%float;
                        emissive := Some 0%Z |};
         userData := {| ud_particle := Some (particle trackData);
                        ud_trackData := Some trackData;
                        originalColor := None;
                        originalOpacity := None;
                        isArrow := true |};
         visible := true;
         scale := 1 |}.

(** The opacity given to a detailed track. *)
Definition energyAlpha (E : float) : float :=
  (Math_min (E / 100) 1 * 0.7 + 0.3)%float.

(** [createDetailedTrack(trackData)]; [random] is the value that
    [Math.random()] returns. *)
Definition createDetailedTrack (random : float) (trackData : TrackData)
  : M unit :=
  let points := trajectory trackData in
  let baseThickness := thickness (config trackData) in
  let momentumFactor := Math_min (momentum trackData / 50) 2 in
  let thickness := (baseThickness * (0.5 + momentumFactor * 0.5))%float in
  let tubeGeometry :=
    TubeGeometry points (length points * 2) (thickness * 0.01)%float in
  let energyAlpha := energyAlpha (p_E (particle trackData)) in
  let trackMesh :=
    {| kind := Mesh;
       geometry := tubeGeometry;
       material := {| color := Some (cfg_color (config trackData));
                      opacity := Some energyAlpha;
                      emissive := Some 0%Z |};
       userData := {| ud_particle := Some (particle trackData);
                      ud_trackData := Some trackData;
                      originalColor := Some (cfg_color (config trackData));
                      originalOpacity := Some energyAlpha;
                      isArrow := false |};
       visible := true;
       scale := 1 |} in
  modify (λ s, set_animatedTracks
                 (animatedTracks s ++
                    [{| mesh := length (trackObjects s);
                        originalScale := 1;
                        delay := (random * 500)%float |}]) s);;
  push_object trackMesh;;
  createDirectionArrow trackData points.

(** The loop [for (let i = 0; i < trajectory.length; i += step)] of
    [createSimplifiedTrack], started at [i]; [fuel] bounds the number of
    iterations. *)
Fixpoint stride_loop (fuel : nat) (trajectory : list Vec3) (step i : nat)
  : list Vec3 :=
  match fuel with
  | O => []
  | S fuel' =>
      match trajectory !! i with
      | Some point => point :: stride_loop fuel' trajectory step (i + step)
      | None => []
      end
  end.

(** The points of the poly-line of a simplified track. *)
Definition simplifiedPoints (trajectory : list Vec3) : list Vec3 :=
  let step := Nat.max 1 (length trajectory / 8) in
  let simplifiedPoints := stride_loop (length trajectory) trajectory step 0 in
  if (0 <? length simplifiedPoints)%nat then
    match trajectory !! (length trajectory - 1)%nat with
    | Some lastPoint => simplifiedPoints ++ [lastPoint]
    | None => simplifiedPoints
    end
  else simplifiedPoints.

(** [createSimplifiedTrack(trackData)] *)
Definition createSimplifiedTrack (trackData : TrackData) : M unit :=
  push_object
    {| kind := Line;
       geometry := LineGeometry (simplifiedPoints (trajectory trackData));
       material := {| color := Some (cfg_color (config trackData));
                      opacity := Some 0.8%float;
                      emissive := None |};
       userData := {| ud_particle := Some (particle trackData);
                      ud_trackData := Some trackData;
                      originalColor := Some (cfg_color (config trackData));
                      originalOpacity := Some 0.8%float;
                      isArrow := false |};
       visible := true;
       scale := 1 |}.

(** [createParticleTrack(particle, vertex, index)] *)
Definition createParticleTrack (random : float) (particle : Particle)
    (vertex : Vec3) (index : nat) : M unit :=
  let config := default unknown (PARTICLE_CONFIG !! p_type particle) in
  let trajectory := default [] (p_trajectory particle) in
  if (length trajectory <? 2)%nat then
    emit (ConsoleWarn (InsufficientTrajectory (p_id particle)))
  else
    let px := p_px particle in
    let py := p_py particle in
    let pz := p_pz particle in
    let pt := PrimFloat.sqrt (px * px + py * py) in
    let momentum := PrimFloat.sqrt (px * px + py * py + pz * pz) in
    let trackData :=
      {| particle := particle; config := config; trajectory := trajectory;
         pt := pt; momentum := momentum; index := index |} in
    modify (λ s, set_tracks (tracks s ++ [trackData]) s);;
    s ← get_state;
    if useSimplifiedRendering s && (10 <? length trajectory)%nat
    then createSimplifiedTrack trackData
    else createDetailedTrack random trackData.

(** *** Filters *)

(** [filterByType(particleTypes)] *)
Definition filterByType (particleTypes : list string) (s : State) : State :=
  set_trackObjects
    (map (λ trackObj,
            match ud_particle (userData trackObj) with
            | Some particle =>
                let isVisible :=
                  (length particleTypes =? 0)%nat
                  || bool_decide (p_type particle ∈ particleTypes) in
                set_visible isVisible trackObj
            | None => trackObj
            end)
         (trackObjects s)) s.

(** [filterByEnergy(minEnergy, maxEnergy)]; the caller that omits
    [maxEnergy] passes [infinity]. *)
Definition filterByEnergy (minEnergy maxEnergy : float) (s : State) : State :=
  set_trackObjects
    (map (λ trackObj,
            match ud_particle (userData trackObj) with
            | Some particle =>
                let isVisible :=
                  PrimFloat.leb minEnergy (p_E particle)
                  && PrimFloat.leb (p_E particle) maxEnergy in
                set_visible (visible trackObj && isVisible) trackObj
            | None => trackObj
            end)
         (trackObjects s)) s.

(** [filterByPt(minPt, maxPt)] *)
Definition filterByPt (minPt maxPt : float) (s : State) : State :=
  set_trackObjects
    (map (λ trackObj,
            match ud_trackData (userData trackObj) with
            | Some trackData =>
                let isVisible :=
                  PrimFloat.leb minPt (pt trackData)
                  && PrimFloat.leb (pt trackData) maxPt in
                set_visible (visible trackObj && isVisible) trackObj
            | None => trackObj
            end)
         (trackObjects s)) s.

Definition getTrackCount (s : State) : nat := length (tracks s).

Definition getVisibleTrackCount (s : State) : nat :=
  length (filter (λ track, visible track = true) (trackObjects s)).

(** *** Hover and selection *)

(** [highlightTrack(trackMesh, isSelected)] *)
Definition highlightTrack (trackMesh : nat) (isSelected : bool) : M unit :=
  if isSelected then
    update trackMesh (color_setHex (Some 0xFFFFFF%Z));;
    update trackMesh (set_opacity (Some 1.0%float));;
    emissive_setHex trackMesh 0x333333
  else
    update trackMesh (color_setHex (Some 0xFFFFFF%Z));;
    update trackMesh
      (λ o, set_opacity
              (Some (Math_min (ToNumber (originalOpacity (userData o)) + 0.3)
                              1.0)) o).

(** [resetTrackAppearance(trackMesh)] *)
Definition resetTrackAppearance (trackMesh : nat) : M unit :=
  update trackMesh (λ o, color_setHex (originalColor (userData o)) o);;
  update trackMesh (λ o, set_opacity (originalOpacity (userData o)) o);;
  emissive_setHex trackMesh 0.

(** An entry of the array returned by [raycaster.intersectObjects]. *)
Record Intersection : Type := { object : nat; ipoint : Vec3 }.

(** [handleMouseMove(event)]; [intersects] is what
    [raycaster.intersectObjects(this.trackObjects)] returns for the pointer
    position [mouse], nearest hit first. *)
Definition handleMouseMove (mouse : Vec2) (intersects : list Intersection)
  : M unit :=
  s ← get_state;
  match hoveredTrack s with
  | Some h =>
      if negb (bool_decide (selectedTrack s = Some h))
      then resetTrackAppearance h
      else mret ()
  | None => mret ()
  end;;
  match intersects with
  | hit :: _ =>
      let intersectedTrack := object hit in
      modify (set_hoveredTrack (Some intersectedTrack));;
      highlightTrack intersectedTrack false;;
      emit (SetCursor "pointer");;
      o ← deref intersectedTrack;
      emit (DispatchEvent (particleHover (ud_particle (userData o)) mouse))
  | [] =>
      modify (set_hoveredTrack None);;
      emit (SetCursor "default");;
      emit (DispatchEvent particleHoverEnd)
  end.

(** [handleClick(event)]; [client] is [(clientX, clientY)]. *)
Definition handleClick (mouse client : Vec2) (intersects : list Intersection)
  : M unit :=
  s ← get_state;
  match selectedTrack s with
  | Some r => resetTrackAppearance r
  | None => mret ()
  end;;
  match intersects with
  | hit :: _ =>
      let intersectedTrack := object hit in
      modify (set_selectedTrack (Some intersectedTrack));;
      highlightTrack intersectedTrack true;;
      o ← deref intersectedTrack;
      emit (DispatchEvent
              (particleSelect (ud_particle (userData o)) client (ipoint hit)))
  | [] =>
      modify (set_selectedTrack None);;
      emit (DispatchEvent particleDeselect)
  end.

(** *** Emergence animation *)

Section Animation.

(** [Math.pow] of the host. *)
Variable Math_pow : float → float → float.

(** [easeOutCubic(t)] *)
Definition easeOutCubic (t : float) : float :=
  (1 - Math_pow (1 - t) 3)%float.

(** The progress of one animated track, [elapsed] milliseconds after the
    start: [Math.min(Math.max(0, (elapsed - delay) / duration), 1)]. *)
Definition localProgress (elapsed : float) (track : AnimatedTrack) : float :=
  let adjustedProgress :=
    Math_max 0 ((elapsed - delay track) / animationDuration) in
  Math_min adjustedProgress 1.

(** [animateFrame()]; [currentTime] is what [performance.now()] returns. *)
Definition animateFrame (currentTime : float) : M unit :=
  s ← get_state;
  if negb (isAnimating s) then mret ()
  else
    let elapsed := (currentTime - animationStartTime s)%float in
    modify (set_animationProgress
              (Math_min (elapsed / animationDuration) 1));;
    forEach (λ track,
               let scale := localProgress elapsed track in
               let easedScale := easeOutCubic scale in
               update (mesh track) (setScalar easedScale))
            (animatedTracks s);;
    s' ← get_state;
    if PrimFloat.ltb (animationProgress s') 1
    then emit RequestAnimationFrame
    else
      modify (set_isAnimating false);;
      emit (DispatchEvent trackAnimationComplete).

(** [startAnimation()]; [startTime] and [frameTime] are the two successive
    readings of [performance.now()], the second one made by the call of
    [animateFrame] that ends the method. *)
Definition startAnimation (startTime frameTime : float) : M unit :=
  s ← get_state;
  if (length (animatedTracks s) =? 0)%nat then mret ()
  else
    modify (set_isAnimating true);;
    modify (set_animationStartTime startTime);;
    modify (set_animationProgress 0);;
    forEach (λ track, update (mesh track) (setScalar 0)) (animatedTracks s);;
    animateFrame frameTime.

(** [handleAnimationToggle(event)] *)
Definition handleAnimationToggle (isPlaying : bool)
    (startTime frameTime : float) : M unit :=
  s ← get_state;
  if isPlaying && negb (isAnimating s)
  then startAnimation startTime frameTime
  else mret ().

(** [loadTracks(particles, vertex)]; [random i] is the value that
    [Math.random()] returns while particle [i] is built. *)
Definition loadTracks (random : nat → float) (startTime frameTime : float)
    (particles : list Particle) (vertex : Vec3) : M unit :=
  modify clearTracks;;
  (if (maxTracks <? length particles)%nat then
     emit (ConsoleWarn (PerformanceWarning (length particles)));;
     modify (set_useSimplifiedRendering true)
   else
     modify (set_useSimplifiedRendering false));;
  forEach_from
    (λ particle index, createParticleTrack (random index) particle vertex index)
    0 particles;;
  startAnimation startTime frameTime.

End Animation.

End ParticleTracks.

(** ** The validation schema, as the specification words it *)

Module Schema.

(** An object in the sense of the schema: a JSON object or array. *)
Definition is_object (v : value) : bool :=
  match v with VObj _ | VArr _ => true | _ => false end.

Definition absent (k : string) (v : value) : bool := negb (has_prop k v).

Definition is_number (v : value) : bool :=
  match v with VNum _ => true | _ => false end.

Definition is_valid_number (v : value) : bool :=
  match v with VNum n => negb (PrimFloat.is_nan n) | _ => false end.

(** A trajectory point fails the point schema: it is not an object or one of
    its coordinates is not a number. *)
Definition point_fails (pt : value) : bool :=
  negb (is_object pt)
  || existsb (λ k, negb (is_number (get_prop pt k))) ["x"; "y"; "z"].

(** The particle misses one of [id], [type], [px], [py], [pz], [E]. *)
Definition particle_misses_field (p : value) : bool :=
  existsb (λ k, absent k p) ["id"; "type"; "px"; "py"; "pz"; "E"].

(** One of the particle's numeric fields is not a number or is NaN. *)
Definition particle_bad_number (p : value) : bool :=
  existsb (λ k, negb (is_valid_number (get_prop p k))) ["px"; "py"; "pz"; "E"].

(** A point of a present trajectory fails the point schema. *)
Definition trajectory_point_fails (p : value) : bool :=
  match get_prop p "trajectory" with
  | VArr pts => existsb point_fails pts
  | _ => false
  end.

(** A trajectory is present (truthy) and is not a sequence. *)
Definition trajectory_not_sequence (p : value) : bool :=
  truthy (get_prop p "trajectory") && negb (isArray (get_prop p "trajectory")).

Definition event_violation (particle_violation : value → bool) (e : value)
  : bool :=
  existsb (λ k, absent k e) ["event_id"; "particles"; "vertex"]
  || existsb (λ k, negb (is_number (get_prop (get_prop e "vertex") k)))
       ["x"; "y"; "z"]
  || match get_prop e "particles" with
     | VArr ps => existsb particle_violation ps
     | _ => true
     end.

(** The failure conditions listed for [validate]. *)
Definition listed_violation : value → bool :=
  event_violation
    (λ p, particle_misses_field p || particle_bad_number p
          || trajectory_point_fails p).

(** The listed conditions on a particle, and a present trajectory that is not
    a sequence. *)
Definition particle_violation (p : value) : bool :=
  particle_misses_field p || particle_bad_number p
  || trajectory_point_fails p || trajectory_not_sequence p.

Definition violation : value → bool := event_violation particle_violation.

End Schema.

(** ** Sample data *)

Module Samples.

Import DataLoader.

(** A host whose transcendental functions are constant, for the statements
    that need some host and do not depend on it. *)
Definition flat_atan2 (y x : float) : float := 0%float.
Definition flat_log (x : float) : float := 0%float.
Definition flat_tan (x : float) : float := 0%float.
Definition flat_pow (x y : float) : float := 0%float.

Definition obj (l : list (string * value)) : value := VObj (list_to_map l).

(** An electron, with the trajectory property [extra] prepends. *)
Definition electron (extra : list (string * value)) : value :=
  obj (extra ++
       [ ("id", VNum 1); ("type", VStr "electron");
         ("px", VNum 3); ("py", VNum 0); ("pz", VNum 4); ("E", VNum 5);
         ("charge", VNum (-1)) ]).

Definition event (vertex : value) (particles : list value) : value :=
  obj [ ("event_id", VStr "evt-001"); ("vertex", vertex);
        ("particles", VArr particles) ].

(** An electron whose trajectory has exactly one point. *)
Definition one_point_electron : value :=
  electron [("trajectory", VArr [point 1 2 3])].

(** What validation makes of a value ([undefined] when it throws). *)
Definition validated (r : result value) : value :=
  match r with Ok v => v | Throw _ => VUndef end.

Definition validated_electron : value :=
  validated (validateParticle flat_atan2 flat_log flat_tan (electron []) 0).

Definition sample_event : value :=
  event (point 0 0 0) [electron []; one_point_electron].

Definition validated_event : value :=
  validated (validateEvent flat_atan2 flat_log flat_tan "2026-01-01" sample_event).

(** An electron whose trajectory is a string. *)
Definition string_trajectory_electron : value :=
  electron [("trajectory", VStr "helix")].

End Samples.

(** Sequences of filter calls, and the narrowing property. *)

Module Filters.

Import ParticleTracks.

Inductive FilterCall : Type :=
  | ByType (particleTypes : list string)
  | ByEnergy (minEnergy maxEnergy : float)
  | ByPt (minPt maxPt : float).

Definition call (c : FilterCall) : State → State :=
  match c with
  | ByType ts => filterByType ts
  | ByEnergy lo hi => filterByEnergy lo hi
  | ByPt lo hi => filterByPt lo hi
  end.

(** The calls run in order, first call first. *)
Definition calls (cs : list FilterCall) (s : State) : State :=
  foldl (λ s c, call c s) s cs.

Definition is_range (c : FilterCall) : bool :=
  match c with ByType _ => false | _ => true end.

(** The range test of a call of [filterByEnergy] or [filterByPt] on a scene
    object with the user data [u]; an object without a particle (without
    track data, for [filterByPt]) is left alone, so it passes. *)
Definition range_test (c : FilterCall) (u : UserData) : bool :=
  match c with
  | ByType _ => true
  | ByEnergy minEnergy maxEnergy =>
      match ud_particle u with
      | Some particle =>
          PrimFloat.leb minEnergy (p_E particle)
          && PrimFloat.leb (p_E particle) maxEnergy
      | None => true
      end
  | ByPt minPt maxPt =>
      match ud_trackData u with
      | Some trackData =>
          PrimFloat.leb minPt (pt trackData)
          && PrimFloat.leb (pt trackData) maxPt
      | None => true
      end
  end.

(** [f] never turns the visibility flag of a scene object from false to
    true. *)
Definition narrowing (f : State → State) : Prop :=
  ∀ s i o o',
    trackObjects s !! i = Some o → trackObjects (f s) !! i = Some o' →
    visible o = false → visible o' = false.

End Filters.

(** Sample scenes. *)

Module Scene.

Import ParticleTracks.

Definition origin : Vec3 := {| vx := 0; vy := 0; vz := 0 |}.

(** [n] points along the x axis. *)
Definition line (n : nat) : list Vec3 :=
  map (λ i, {| vx := float_of_nat i; vy := 0; vz := 0 |}) (seq 0 n).

Definition electron (E : float) (n : nat) : Particle :=
  {| p_id := 1; p_type := "electron"; p_px := 3; p_py := 0; p_pz := 4;
     p_E := E; p_trajectory := Some (line n) |}.

Definition muon (E : float) (n : nat) : Particle :=
  {| p_id := 2; p_type := "muon"; p_px := 0; p_py := 6; p_pz := 8;
     p_E := E; p_trajectory := Some (line n) |}.

Definition hit (r : nat) : Intersection := {| object := r; ipoint := origin |}.

Definition pointer : Vec2 := {| mx := 0; my := 0 |}.

(** The scene of an electron (mesh 0, arrow 1) and a muon (mesh 2, arrow 3). *)
Definition two_tracks : State :=
  exec (loadTracks Samples.flat_pow (λ _, 0%float) 0 0
          [electron 10 3; muon 20 3] origin) initial.

End Scene.

(** ** Reasoning about methods *)

Module Logic.

Import ParticleTracks.

(** A method that returns normally from every state satisfying [P], in a
    state satisfying [P]. *)
Definition safe {A} (P : State → Prop) (m : M A) : Prop :=
  ∀ s, P s → ∃ a s' l, m s = (Done a, s', l) ∧ P s'.

(** [hoare P m Q E]: from a state satisfying [P], [m] either returns [a] in a
    state satisfying [Q a] or raises in a state satisfying [E]. *)
Definition hoare {A} (P : State → Prop) (m : M A) (Q : A → State → Prop)
    (E : State → Prop) : Prop :=
  ∀ s, P s →
    match m s with
    | (Done a, s', _) => Q a s'
    | (Raised _, s', _) => E s'
    end.

(** A property of states that no change of a scene object other than those
    it allows can break. *)
Definition stable (allowed : nat → Prop) (P : State → Prop) : Prop :=
  ∀ s r f, allowed r → P s → P (set_trackObjects (alter f r (trackObjects s)) s).

(** What [loadTracks] guarantees of each scene object it builds. *)
Definition built (o : TrackObject) : Prop :=
  match kind o, isArrow (userData o) with
  | Line, _ => opacity (material o) = Some 0.8%float
  | Mesh, false =>
      ∃ p, ud_particle (userData o) = Some p ∧
           opacity (material o) = Some (energyAlpha (p_E p))
  | Mesh, true => opacity (material o) = Some 0.9%float
  end.

Definition all_built (s : State) : Prop := Forall built (trackObjects s).

(** What [loadTracks] guarantees of each scene object it builds in a batch
    whose rendering mode is [simplified]: a poly-line is built only in
    simplified mode and only for a trajectory of more than 10 points, and has
    opacity 0.8; every other track is a tube, whose opacity is that of its
    particle's energy; an arrow has opacity 0.9. *)
Definition built_in (simplified : bool) (o : TrackObject) : Prop :=
  match kind o, isArrow (userData o) with
  | Line, _ =>
      ∃ t, ud_trackData (userData o) = Some t ∧
           ud_particle (userData o) = Some (particle t) ∧
           simplified = true ∧ 10 < length (trajectory t) ∧
           opacity (material o) = Some 0.8%float
  | Mesh, false =>
      ∃ t, ud_trackData (userData o) = Some t ∧
           ud_particle (userData o) = Some (particle t) ∧
           (simplified = false ∨ length (trajectory t) ≤ 10) ∧
           opacity (material o) = Some (energyAlpha (p_E (particle t)))
  | Mesh, true => opacity (material o) = Some 0.9%float
  end.

Definition all_built_in (simplified : bool) (s : State) : Prop :=
  useSimplifiedRendering s = simplified ∧
  Forall (built_in simplified) (trackObjects s).

(** An object that has an emissive colour, whatever its other fields. *)
Definition has_emissive (s : State) (r : nat) : Prop :=
  ∃ o, trackObjects s !! r = Some o ∧ emissive (material o) ≠ None.

(** The appearance a selected track is given. *)
Definition selection_highlight (o : TrackObject) : Prop :=
  color (material o) = Some 0xFFFFFF%Z ∧ opacity (material o) = Some 1%float.


Definition object_satisfies (Phi : TrackObject → Prop) (r : nat) (s : State)
  : Prop :=
  ∃ o, trackObjects s !! r = Some o ∧ Phi o.






End Logic.

(** ** Notions used to state the properties of the scene *)

Module Build.

Import ParticleTracks Logic.

(** The trajectory [createParticleTrack] reads. *)
Definition trajectory_of (p : Particle) : list Vec3 :=
  default [] (p_trajectory p).

(** The particle has the two points a track needs. *)
Definition renderable (p : Particle) : bool :=
  (2 <=? length (trajectory_of p))%nat.

(** In simplified mode, the particle gets a poly-line. *)
Definition simplified (mode : bool) (p : Particle) : bool :=
  renderable p && mode && (10 <? length (trajectory_of p))%nat.

(** The particle gets a tube and an arrow. *)
Definition detailed (mode : bool) (p : Particle) : bool :=
  renderable p && negb (mode && (10 <? length (trajectory_of p))%nat).

(** A scene object as it leaves the builder: visible, with back-references
    to its particle and track data. *)
Definition fresh (o : TrackObject) : Prop :=
  visible o = true ∧ is_Some (ud_particle (userData o)) ∧
  is_Some (ud_trackData (userData o)).

(** An entry of [animatedTracks] refers to a tube mesh of the scene. *)
Definition animates_mesh (s : State) (t : AnimatedTrack) : Prop :=
  ∃ o, trackObjects s !! mesh t = Some o ∧ kind o = Mesh ∧
       isArrow (userData o) = false.

(** What holds of the instance while [loadTracks] has built the tracks of
    the particles [done], in rendering mode [mode]. *)
Record invariant (mode : bool) (done : list Particle) (s : State) : Prop :=
  { inv_mode : useSimplifiedRendering s = mode;
    inv_hovered : hoveredTrack s = None;
    inv_selected : selectedTrack s = None;
    inv_tracks : map particle (tracks s) = filter (λ p, renderable p = true) done;
    inv_objects :
      length (trackObjects s)
      = (2 * length (filter (λ p, detailed mode p = true) done)
         + length (filter (λ p, simplified mode p = true) done))%nat;
    inv_animated :
      length (animatedTracks s)
      = length (filter (λ p, detailed mode p = true) done);
    inv_refs : Forall (animates_mesh s) (animatedTracks s);
    inv_fresh : Forall fresh (trackObjects s) }.

End Build.

Module UI.

Import ParticleTracks Logic.

(** [x || d] for a number [x]: [d] when [x] is 0 or NaN. *)
Definition or_default (x d : float) : float :=
  if truthy (VNum x) then x else d.

(** The part of [updateFilters] (ui.js) that drives the tracks: the parsed
    bounds get their defaults and the three filters run in this order.
    [minEnergy], [maxEnergy], [minPt], [maxPt] are what [parseFloat] returned
    for the four input fields. *)
Definition updateFilters (selectedTypes : list string)
    (minEnergy maxEnergy minPt maxPt : float) (s : State) : State :=
  let minEnergy := or_default minEnergy 0 in
  let maxEnergy := or_default maxEnergy infinity in
  let minPt := or_default minPt 0 in
  let maxPt := or_default maxPt infinity in
  filterByPt minPt maxPt
    (filterByEnergy minEnergy maxEnergy
      (filterByType selectedTypes s)).

(** The three tests of the filters, on a particle and its track data. *)
Definition type_passes (types : list string) (p : Particle) : bool :=
  (length types =? 0)%nat || bool_decide (p_type p ∈ types).
Definition energy_passes (lo hi : float) (p : Particle) : bool :=
  PrimFloat.leb lo (p_E p) && PrimFloat.leb (p_E p) hi.
Definition pt_passes (lo hi : float) (td : TrackData) : bool :=
  PrimFloat.leb lo (pt td) && PrimFloat.leb (pt td) hi.

End UI.

Module Pointer.

Import ParticleTracks Logic.

Inductive PointerEvent : Type :=
  | MouseMove (mouse : Vec2) (intersects : list Intersection)
  | Click (mouse client : Vec2) (intersects : list Intersection).

Definition dispatch (e : PointerEvent) : M unit :=
  match e with
  | MouseMove mouse intersects => handleMouseMove mouse intersects
  | Click mouse client intersects => handleClick mouse client intersects
  end.

(** The events are handled in order; a handler that raises leaves the state
    it had reached, and the next event is handled from there. *)
Definition dispatch_all (es : list PointerEvent) (s : State) : State :=
  foldl (λ s e, exec (dispatch e) s) s es.

(** [f] changes nothing but the material of an object. *)
Definition material_change (f : TrackObject → TrackObject) : Prop :=
  ∀ o, f o = set_material (material (f o)) o.

(** [s'] differs from [s] at most in the hovered and selected references and
    in the materials of the scene objects. *)
Definition same_scene (s s' : State) : Prop :=
  tracks s' = tracks s ∧ animatedTracks s' = animatedTracks s ∧
  useSimplifiedRendering s' = useSimplifiedRendering s ∧
  isAnimating s' = isAnimating s ∧
  length (trackObjects s') = length (trackObjects s) ∧
  ∀ i o, trackObjects s !! i = Some o →
    ∃ m, trackObjects s' !! i = Some (set_material m o).

End Pointer.

Module Appearance.

Import ParticleTracks Logic.

(** The appearance a hovered track is given. *)
Definition hover_highlight (o : TrackObject) : Prop :=
  color (material o) = Some 0xFFFFFF%Z ∧
  opacity (material o)
  = Some (Math_min (ToNumber (originalOpacity (userData o)) + 0.3) 1)%float.


(** The previously hovered track can be reset without a [TypeError]: there
    is none, or it is the selected track (which is left alone), or it is a
    mesh. *)
Definition hover_resettable (s : State) : Prop :=
  ∀ h, hoveredTrack s = Some h → selectedTrack s ≠ Some h → has_emissive s h.


End Appearance.

Module Scaling.

Import ParticleTracks Logic.

(** The scene objects after [animatedTracks.forEach(t => t.mesh.scale
    .setScalar(g(t)))]. *)
Definition rescaled (g : AnimatedTrack → float) (l : list AnimatedTrack)
    (objs : list TrackObject) : list TrackObject :=
  foldl (λ objs t, alter (setScalar (g t)) (mesh t) objs) objs l.

(** The entries of [animatedTracks] refer to distinct objects of the scene,
    and every object of the scene has scale 1. *)
Definition unscaled (s : State) : Prop :=
  NoDup (map mesh (animatedTracks s)) ∧
  Forall (λ t, mesh t < length (trackObjects s))%nat (animatedTracks s) ∧
  Forall (λ o, scale o = 1%float) (trackObjects s).

End Scaling.

Module Eased.

Import ParticleTracks Logic.

(** The scales of a scene whose entrance animation began at [t0] and was
    last drawn at [t1]. *)
Definition eased (Math_pow : float → float → float) (t0 t1 : float)
    (s : State) : Prop :=
  NoDup (map mesh (animatedTracks s)) ∧
  (∀ i o, trackObjects s !! i = Some o →
     i ∉ map mesh (animatedTracks s) → scale o = 1%float) ∧
  (∀ t o, t ∈ animatedTracks s → trackObjects s !! mesh t = Some o →
     scale o = easeOutCubic Math_pow (localProgress (t1 - t0) t)).

End Eased.

(** ** Notions used to state the properties of the loader *)

Module Diagnosis.

Import DataLoader.

(** The index of the particle that an error message names. *)
Definition blamed_particle (e : SchemaError) : option nat :=
  match e with
  | ParticleNotObject i | ParticleMissingField i _
  | ParticleFieldNotNumber i _ | TrajectoryNotArray i
  | PointNotObject i _ | PointNotNumbers i _ => Some i
  | _ => None
  end.

Definition bad_coordinate (pt : value) : bool :=
  existsb (λ k, negb (Schema.is_number (get_prop pt k))) ["x"; "y"; "z"].

(** What the message of an error says of the particle [p] it names. *)
Definition describes_particle (p : value) (e : SchemaError) : Prop :=
  match e with
  | ParticleNotObject _ => Schema.is_object p = false
  | ParticleMissingField _ f =>
      f ∈ eventSchema_particle_required ∧ has_prop f p = false
  | ParticleFieldNotNumber _ f =>
      f ∈ numericFields ∧ Schema.is_valid_number (get_prop p f) = false
  | TrajectoryNotArray _ => Schema.trajectory_not_sequence p = true
  | PointNotObject _ j =>
      ∃ pts pt, get_prop p "trajectory" = VArr pts ∧ pts !! j = Some pt ∧
                Schema.is_object pt = false
  | PointNotNumbers _ j =>
      ∃ pts pt, get_prop p "trajectory" = VArr pts ∧ pts !! j = Some pt ∧
                Schema.is_object pt = true ∧ bad_coordinate pt = true
  | _ => False
  end.

(** What the message of an error that names no particle says of the
    event. *)
Definition describes_event (e : value) (err : SchemaError) : Prop :=
  match err with
  | EventNotObject => Schema.is_object e = false
  | MissingField f => f ∈ eventSchema_required ∧ has_prop f e = false
  | VertexNotObject => Schema.is_object (get_prop e "vertex") = false
  | VertexNotNumbers =>
      Schema.is_object (get_prop e "vertex") = true ∧
      bad_coordinate (get_prop e "vertex") = true
  | ParticlesNotArray => isArray (get_prop e "particles") = false
  | _ => False
  end.

End Diagnosis.

Module CSV.

Import DataLoader.

(** [s.split(sep)] for a separator of one character. *)
Fixpoint split (sep : ascii) (s : string) : list string :=
  match s with
  | EmptyString => [EmptyString]
  | String c s' =>
      if Ascii.eqb c sep then EmptyString :: split sep s'
      else match split sep s' with
           | h :: t => String c h :: t
           | [] => [String c EmptyString]
           end
  end.

Definition numericColumns : list string :=
  ["id"; "px"; "py"; "pz"; "E"; "charge"; "pdg"].

(** [particle[header] = v] for a primitive [v], on an object made by an
    object literal: the own property is created or overwritten, except that
    assigning a primitive to [__proto__] does nothing. *)
Definition assign (header : string) (v : value) (particle : gmap string value)
  : gmap string value :=
  if String.eqb header "__proto__" then particle else <[header := v]> particle.

Section Host.

(** [String.prototype.trim] and the global [parseFloat] of the host. *)
Variable trim : string → string.
Variable parseFloat : string → float.

(** The callback of [headers.forEach]; [values[index]?.trim()] is
    [undefined] when the row has no such cell. *)
Definition cell (values : list string) (particle : gmap string value)
    (header : string) (index : nat) : gmap string value :=
  let value := trim <$> values !! index in
  if bool_decide (header ∈ numericColumns) then
    let parsed := match value with
                  | Some v => parseFloat v
                  | None => PrimFloat.nan
                  end in
    assign header (VNum (UI.or_default parsed 0)) particle
  else
    assign header (match value with Some v => VStr v | None => VUndef end)
      particle.

(** [headers.forEach((header, index) => ...)], from [index] on. *)
Fixpoint fill (values headers : list string) (index : nat)
    (particle : gmap string value) : gmap string value :=
  match headers with
  | [] => particle
  | header :: headers' =>
      fill values headers' (S index) (cell values particle header index)
  end.

(** The body of the loop over the lines: [None] when the line is skipped by
    [continue], the particle that is pushed otherwise. *)
Definition row (headers : list string) (line : string) : option value :=
  let values := split "," line in
  if (length values <? length headers)%nat then None
  else
    let particle := fill values headers 0 ∅ in
    Some (VObj
      (if truthy (get_prop (VObj particle) "trajectory") then particle
       else
         <["trajectory" :=
             VArr (generateSimpleTrajectory
                     (num_of (get_prop (VObj particle) "px"))
                     (num_of (get_prop (VObj particle) "py"))
                     (num_of (get_prop (VObj particle) "pz")))]> particle)).

(** [parseCSV(csvText)]; [Date_now] is the value of [Date.now()]. *)
Definition parseCSV (Date_now : N) (csvText : string) : value :=
  let lines := split "010" (trim csvText) in
  let headers := split "," (hd EmptyString lines) in
  let particles := omap (row headers) (tl lines) in
  VObj (<["metadata" :=
            VObj (<["particle_count" :=
                      VNum (float_of_nat (length particles))]>
                 (<["source" := VStr "CSV import"]> ∅))]>
       (<["particles" := VArr particles]>
       (<["vertex" := point 0 0 0]>
       (<["event_id" := VStr ("csv-import-" +:+ pretty Date_now)]> ∅)))).

(** The header row that [parseCSV] reads. *)
Definition headers_of (csvText : string) : list string :=
  split "," (hd EmptyString (split "010" (trim csvText))).

End Host.

(** Every numeric column that a particle under construction holds is a
    number other than NaN. *)
Definition numbers_valid (m : gmap string value) : Prop :=
  ∀ k v, k ∈ numericColumns → m !! k = Some v →
         Schema.is_valid_number v = true.

(** A host for the sample files below, which hold no blank and in which
    every number is 1: [trim] has nothing to remove. *)
Definition plain_trim (s : string) : string := s.
Definition unit_parseFloat (s : string) : float := 1%float.

(** A file of one header row and one particle. *)
Definition one_electron : string :=
  "id,type,px,py,pz,E" +:+ String "010" "1,electron,1,1,1,1".

End CSV.

Module Loader.

Import DataLoader CSV.

(** The mutable fields of a [DataLoader]; event indices are integers. *)
Record Instance : Type :=
  { events : list value;
    currentEventIndex : Z;
    currentEvent : value;
    isLoading : bool }.

(** The instance the constructor makes. *)
Definition created : Instance :=
  {| events := []; currentEventIndex := 0; currentEvent := VNull;
     isLoading := false |}.

Definition set_events (v : list value) (d : Instance) : Instance :=
  {| events := v; currentEventIndex := currentEventIndex d;
     currentEvent := currentEvent d; isLoading := isLoading d |}.
Definition set_isLoading (v : bool) (d : Instance) : Instance :=
  {| events := events d; currentEventIndex := currentEventIndex d;
     currentEvent := currentEvent d; isLoading := v |}.
Definition set_current (index : Z) (event : value) (d : Instance) : Instance :=
  {| events := events d; currentEventIndex := index;
     currentEvent := event; isLoading := isLoading d |}.

(** [getEvent(index)] *)
Definition getEvent (index : Z) (d : Instance) : value :=
  if (0 <=? index)%Z && (index <? Z.of_nat (length (events d)))%Z
  then default VUndef (events d !! Z.to_nat index)
  else VNull.

(** [switchToEvent(index)]: the value returned and the instance left. *)
Definition switchToEvent (index : Z) (d : Instance) : value * Instance :=
  let event := getEvent index d in
  if truthy event then (event, set_current index event d) else (VNull, d).

(** [nextEvent()]; [%] is the remainder that takes the sign of the
    dividend. *)
Definition nextEvent (d : Instance) : value * Instance :=
  if (length (events d) =? 0)%nat then (VNull, d)
  else
    let nextIndex :=
      Z.rem (currentEventIndex d + 1) (Z.of_nat (length (events d))) in
    switchToEvent nextIndex d.

(** [previousEvent()] *)
Definition previousEvent (d : Instance) : value * Instance :=
  if (length (events d) =? 0)%nat then (VNull, d)
  else
    let prevIndex :=
      if (currentEventIndex d =? 0)%Z
      then (Z.of_nat (length (events d)) - 1)%Z
      else (currentEventIndex d - 1)%Z in
    switchToEvent prevIndex d.

Definition getEventCount (d : Instance) : nat := length (events d).

(** [clear()] *)
Definition clear (d : Instance) : Instance :=
  set_current 0 VNull (set_events [] d).

(** What a request for an event file brings: the parsed JSON body, or
    nothing when the request or the parsing fails, and the time
    [new Date().toISOString()] at which the body is validated. *)
Record Response : Type := { body : option value; received : string }.

(** A file chosen for upload, by the ending of its name. *)
Inductive File : Type :=
  | NoFile
  | JsonFile (content : Response)
  | CsvFile (text : string) (Date_now : N)
  | OtherFile.

Section Host.

Variable Math_atan2 : float → float → float.
Variables Math_log Math_tan : float → float.
Variable trim : string → string.
Variable parseFloat : string → float.

(** The event that [validateEvent] makes of a response, if any. *)
Definition accepted (r : Response) : option value :=
  match body r with
  | Some eventData =>
      match validateEvent Math_atan2 Math_log Math_tan (received r) eventData with
      | Ok validatedEvent => Some validatedEvent
      | Throw _ => None
      end
  | None => None
  end.

(** [loadEvent(filePath)]: the validated event, or nothing when the promise
    is rejected; [isLoading] is reset on both paths.  What is written to the
    console is left out. *)
Definition loadEvent (r : Response) (d : Instance) : option value * Instance :=
  let d := set_isLoading true d in
  (accepted r, set_isLoading false d).

(** [loadEvents(filePaths)], given the response to each request. *)
Definition loadEvents (responses : list Response) (d : Instance) : Instance :=
  let d := set_events [] d in
  let d :=
    foldl (λ d r,
             match loadEvent r d with
             | (Some event, d) => set_events (events d ++ [event]) d
             | (None, d) => d
             end) d responses in
  if (0 <? length (events d))%nat
  then set_current 0 (default VUndef (events d !! 0%nat)) d
  else d.

(** What [handleFileUpload] (ui.js) does to the loader: the event read from
    the file, if any, is appended and made current. *)
Definition handleFileUpload (file : File) (d : Instance) : Instance :=
  let event :=
    match file with
    | NoFile | OtherFile => None
    | JsonFile content => accepted content
    | CsvFile text Date_now => Some (parseCSV trim parseFloat Date_now text)
    end in
  match event with
  | Some event =>
      let d := set_events (events d ++ [event]) d in
      (switchToEvent (Z.of_nat (length (events d)) - 1) d).2
  | None => d
  end.

(** The calls that the user interface makes on the loader. *)
Inductive Call : Type :=
  | SwitchToEvent (index : Z)
  | NextEvent
  | PreviousEvent
  | Clear
  | LoadEvents (responses : list Response)
  | HandleFileUpload (file : File).

Definition call (c : Call) (d : Instance) : Instance :=
  match c with
  | SwitchToEvent index => (switchToEvent index d).2
  | NextEvent => (nextEvent d).2
  | PreviousEvent => (previousEvent d).2
  | Clear => clear d
  | LoadEvents responses => loadEvents responses d
  | HandleFileUpload file => handleFileUpload file d
  end.

Definition calls (cs : list Call) (d : Instance) : Instance :=
  foldl (λ d c, call c d) d cs.

End Host.

(** The current index is never negative, every loaded event is an object,
    and while events are loaded the current event is the one at the current
    index. *)
Definition consistent (d : Instance) : Prop :=
  (0 ≤ currentEventIndex d)%Z ∧
  Forall (λ e, ∃ o, e = VObj o) (events d) ∧
  (events d ≠ [] →
   (currentEventIndex d < Z.of_nat (length (events d)))%Z ∧
   events d !! Z.to_nat (currentEventIndex d) = Some (currentEvent d)).

(** Two loaded events, the second of which is current. *)
Definition two_events : Instance :=
  {| events := [Samples.validated_event; Samples.validated_event];
     currentEventIndex := 1;
     currentEvent := Samples.validated_event;
     isLoading := false |}.

End Loader.

(** ** Loads in flight *)

Module Async.

Import DataLoader CSV Loader.

(** [loadEvents] and [loadEvent] are asynchronous: at each [await] the
    other handlers of the page run, on the loader as the part of the load
    that has run so far leaves it.  A load in flight waits in [loadEvent]
    for the response to a request, [rest] being the requests still to make,
    or in the loop of [loadEvents] for [loadEvent] to hand over its result
    ([None] when its promise is rejected). *)
Inductive Pending : Type :=
  | AwaitResponse (r : Response) (rest : list Response)
  | AwaitLoadEvent (event : option value) (rest : list Response).

(** A loader and its loads in flight, oldest first. *)
Record Page : Type := { loader : Instance; inflight : list Pending }.

(** What happens on the page: a call that runs to its end at once (a
    navigation call, [clear], the part of an upload after its [await], or a
    whole load that nothing interleaves with), the start of a load up to
    its first [await], or the [i]-th load in flight running from its
    [await] to the next one, or to its end. *)
Inductive Step : Type :=
  | Calls (c : Call)
  | Begins (responses : list Response)
  | Resumes (i : nat).

(** The end of [loadEvents]: the first event, if any, becomes current. *)
Definition loadEvents_end (d : Instance) : Instance :=
  if (0 <? length (events d))%nat
  then set_current 0 (default VUndef (events d !! 0%nat)) d
  else d.

(** The head of the loop of [loadEvents]: the next request is made, and
    [loadEvent] runs to its first [await]; or the loop is over. *)
Definition loadEvents_next (rest : list Response) (d : Instance)
  : Instance * option Pending :=
  match rest with
  | r :: rest => (set_isLoading true d, Some (AwaitResponse r rest))
  | [] => (loadEvents_end d, None)
  end.

(** [loadEvents(filePaths)] up to its first [await]. *)
Definition loadEvents_begin (responses : list Response) (d : Instance)
  : Instance * option Pending :=
  loadEvents_next responses (set_events [] d).

Section Host.

Variable Math_atan2 : float → float → float.
Variables Math_log Math_tan : float → float.
Variable trim : string → string.
Variable parseFloat : string → float.

(** A load in flight runs on from its [await]: [loadEvent] gets its
    response, resets [isLoading] and settles; or the loop of [loadEvents]
    takes the event, if there is one, and goes on. *)
Definition resume (p : Pending) (d : Instance) : Instance * option Pending :=
  match p with
  | AwaitResponse r rest =>
      (set_isLoading false d,
       Some (AwaitLoadEvent (accepted Math_atan2 Math_log Math_tan r) rest))
  | AwaitLoadEvent event rest =>
      loadEvents_next rest
        match event with
        | Some event => set_events (events d ++ [event]) d
        | None => d
        end
  end.

Definition step (st : Step) (p : Page) : Page :=
  match st with
  | Calls c =>
      {| loader := call Math_atan2 Math_log Math_tan trim parseFloat c (loader p);
         inflight := inflight p |}
  | Begins responses =>
      let '(d, next) := loadEvents_begin responses (loader p) in
      {| loader := d; inflight := inflight p ++ option_list next |}
  | Resumes i =>
      match inflight p !! i with
      | Some pending =>
          let '(d, next) := resume pending (loader p) in
          {| loader := d;
             inflight := match next with
                         | Some pending' => <[i := pending']> (inflight p)
                         | None => delete i (inflight p)
                         end |}
      | None => p
      end
  end.

Definition steps (sts : list Step) (p : Page) : Page :=
  foldl (λ p st, step st p) p sts.

(** A load running on from [next] with nothing in between; [fuel] bounds
    the number of resumptions. *)
Fixpoint run (fuel : nat) (d : Instance) (next : option Pending) : Instance :=
  match next, fuel with
  | None, _ => d
  | Some _, O => d
  | Some p, S fuel => let '(d, next) := resume p d in run fuel d next
  end.

End Host.

(** The page as it is opened. *)
Definition opened : Page := {| loader := created; inflight := [] |}.

(** What holds of a loader at every point, also while loads are in flight:
    the current index is not negative, every loaded event is an object, and
    the current event is null or an object. *)
Definition sound (d : Instance) : Prop :=
  (0 ≤ currentEventIndex d)%Z ∧
  Forall (λ e, ∃ o, e = VObj o) (events d) ∧
  (currentEvent d = VNull ∨ ∃ o, currentEvent d = VObj o).

(** The event that a load in flight is about to append, if any, is what
    [validateEvent] returned: an object. *)
Definition validated (p : Pending) : Prop :=
  match p with
  | AwaitLoadEvent (Some event) _ => ∃ o, event = VObj o
  | _ => True
  end.

End Async.

(** ** Poly-lines under the pointer *)

Module Jam.

Import ParticleTracks Logic.

(** The object that [r] refers to has a material without emissive colour
    (a poly-line). *)
Definition lacks_emissive (s : State) (r : nat) : Prop :=
  ∃ o, trackObjects s !! r = Some o ∧ emissive (material o) = None.

(** The selected track is the poly-line [r]. *)
Definition jammed (r : nat) (s : State) : Prop :=
  selectedTrack s = Some r ∧ lacks_emissive s r.

(** The scene of an event of 501 particles, in which every track is a
    poly-line, and that scene after a click on its first track. *)
Definition crowded : State :=
  exec (loadTracks Samples.flat_pow (λ _, 0%float) 0 0
          (replicate 501 (Scene.electron 10 11)) Scene.origin) initial.
Definition clicked : State :=
  exec (handleClick Scene.pointer Scene.pointer [Scene.hit 0]) crowded.

(** The crowded scene after the pointer moved over its first track. *)
Definition hovered : State :=
  exec (handleMouseMove Scene.pointer [Scene.hit 0]) crowded.

End Jam.

(** ** What a method leaves of the previous instance *)

Module Carry.

Import ParticleTracks.

(** The instance [s] with the animation clock (progress, running flag, start
    time) of [c]. *)
Definition with_clock (c s : State) : State :=
  set_animationStartTime (animationStartTime c)
    (set_isAnimating (isAnimating c)
      (set_animationProgress (animationProgress c) s)).

(** [m] neither reads nor writes the animation clock. *)
Definition oblivious {A} (m : M A) : Prop :=
  ∀ c s, m (with_clock c s)
         = let '(o, s1, l) := m s in (o, with_clock c s1, l).

(** Everything the instance holds besides the animation clock. *)
Definition scene (s : State) :=
  (tracks s, trackObjects s, animatedTracks s, hoveredTrack s,
   selectedTrack s, useSimplifiedRendering s).

End Carry.

(** ** Doubles as mantissa and exponent *)

Module Rounding.

Local Open Scope Z_scope.

(** The result of rounding to nearest a positive number given with at least
    53 digits, in the range of the normal doubles. *)
Definition packed (m e : Z) : spec_float :=
  if e <=? 971 then S754_finite false (Z.to_pos m) e else S754_infinity false.

(** [M * 2 ^ E] is at least [m0 * 2 ^ e0]. *)
Definition at_least (m0 e0 M E : Z) : Prop :=
  ∃ k, k ≤ E ∧ k ≤ e0 ∧ m0 * 2 ^ (e0 - k) ≤ M * 2 ^ (E - k).

(** A double that is a zero of either sign, a positive finite number or
    positive infinity. *)
Definition nonneg (x : spec_float) : Prop :=
  match x with
  | S754_zero _ | S754_infinity false | S754_finite false _ _ => True
  | _ => False
  end.

End Rounding.

(** * Properties of the validators *)

Module ValidationFacts.

Import DataLoader.

Lemma bind_Ok_inv {A B} (m : result A) (k : A → result B) (b : B) :
  m ≫= k = Ok b → ∃ a, m = Ok a ∧ k a = Ok b.
Proof. destruct m as [a|e]; [eauto | discriminate]. Qed.

Lemma map_from_Ok {A B} (f : A → nat → result B) (l : list A) :
  ∀ i l', map_from f i l = Ok l' →
    length l' = length l ∧
    ∀ j x y, l !! j = Some x → l' !! j = Some y → f x (i + j)%nat = Ok y.
Proof.
  induction l as [|x l IH]; intros i l' H; cbn [map_from] in H.
  - injection H as <-. split; [done|]. intros j x y Hx. by rewrite lookup_nil in Hx.
  - apply bind_Ok_inv in H as (y & Hy & H).
    apply bind_Ok_inv in H as (ys & Hys & H).
    injection H as <-.
    destruct (IH _ _ Hys) as [Hlen Hnth].
    split; [cbn; by rewrite Hlen|].
    intros [|j] x' y' Hx' Hy'; cbn in Hx', Hy'.
    + injection Hx' as <-. injection Hy' as <-. by rewrite Nat.add_0_r.
    + rewrite <- Nat.add_succ_comm. eauto.
Qed.

Lemma map_from_fixed {A} (f : A → nat → result A) (l : list A) :
  (∀ x j, x ∈ l → f x j = Ok x) → ∀ i, map_from f i l = Ok l.
Proof.
  induction l as [|x l IH]; intros Hf i; [done|].
  cbn [map_from]. rewrite Hf by left. cbn.
  rewrite IH; [done|]. intros y j Hy. apply Hf. by right.
Qed.

Lemma map_from_is_Ok {A B} (f : A → nat → result B) (bad : A → bool) (l : list A) :
  (∀ x j, is_Ok (f x j) = negb (bad x)) →
  ∀ i, is_Ok (map_from f i l) = negb (existsb bad l).
Proof.
  intros Hf. induction l as [|x l IH]; intros i; [done|].
  cbn [map_from existsb]. specialize (Hf x i). specialize (IH (S i)).
  destruct (f x i); cbn in *.
  - destruct (bad x); [done|]. cbn. destruct (map_from f (S i) l); cbn in *; done.
  - by destruct (bad x).
Qed.

Lemma check_required_Ok fs v err :
  check_required fs v err = Ok () → ∀ k, k ∈ fs → has_prop k v = true.
Proof.
  induction fs as [|f fs IH]; cbn; intros H k Hk.
  - by apply elem_of_nil in Hk.
  - destruct (has_prop f v) eqn:E; [|discriminate].
    apply elem_of_cons in Hk as [->|Hk]; eauto.
Qed.

Lemma check_required_is_Ok fs v err :
  is_Ok (check_required fs v err) = negb (existsb (λ k, negb (has_prop k v)) fs).
Proof.
  induction fs as [|f fs IH]; [done|]. cbn.
  destruct (has_prop f v); cbn; done.
Qed.

Lemma check_numeric_Ok fs v err :
  check_numeric fs v err = Ok () →
  ∀ k, k ∈ fs → ∃ n, get_prop v k = VNum n ∧ PrimFloat.is_nan n = false.
Proof.
  induction fs as [|f fs IH]; cbn; intros H k Hk.
  - by apply elem_of_nil in Hk.
  - destruct (get_prop v f) as [| | |n| | |] eqn:E; try discriminate.
    destruct (PrimFloat.is_nan n) eqn:En; [discriminate|].
    apply elem_of_cons in Hk as [->|Hk]; eauto.
Qed.

Ltac in_list :=
  unfold eventSchema_particle_required, numericFields; repeat constructor.

Section Facts.
Variable Math_atan2 : float → float → float.
Variables Math_log Math_tan : float → float.
Abbreviation validateParticle := (validateParticle Math_atan2 Math_log Math_tan).
Abbreviation validateEvent := (validateEvent Math_atan2 Math_log Math_tan).
Abbreviation derived := (derived Math_atan2 Math_log Math_tan).

Lemma validateParticle_inv p i p' :
  validateParticle p i = Ok p' →
  ∃ o px py pz t',
    p = VObj o ∧
    (∀ k, k ∈ eventSchema_particle_required → is_Some (o !! k)) ∧
    (∀ k, k ∈ numericFields →
       Schema.is_valid_number (get_prop (VObj o) k) = true) ∧
    o !! "px" = Some (VNum px) ∧ o !! "py" = Some (VNum py) ∧
    o !! "pz" = Some (VNum pz) ∧
    (∃ E, o !! "E" = Some (VNum E)) ∧
    (if truthy (get_prop p "trajectory")
     then ∃ pts, o !! "trajectory" = Some (VArr pts) ∧
                 map_from (validatePoint i) 0 pts = Ok t'
     else t' = generateSimpleTrajectory px py pz) ∧
    p' = VObj (<["derived" := derived px py pz]>
              (<["trajectory" := VArr t']> o)).
Proof.
  unfold DataLoader.validateParticle. intros H.
  destruct (negb (truthy p) || negb (bool_decide (typeof p = TObject))) eqn:Hobj;
    [discriminate|].
  apply bind_Ok_inv in H as ([] & Hreq & H).
  apply bind_Ok_inv in H as ([] & Hnum & H).
  apply bind_Ok_inv in H as (t' & Htraj & H).
  injection H as <-.
  pose proof (check_required_Ok _ _ _ Hreq) as Hreq'.
  pose proof (check_numeric_Ok _ _ _ Hnum) as Hnum'.
  destruct p as [| | | | |l|o]; try discriminate.
  assert (Hn : ∀ k, k ∈ numericFields → ∃ n, o !! k = Some (VNum n)).
  { intros k Hk. destruct (Hnum' k Hk) as (n & Hn & _). exists n.
    cbn in Hn. destruct (o !! k); cbn in Hn; by subst. }
  destruct (Hn "px") as [px Hpx]; [unfold numericFields; in_list|].
  destruct (Hn "py") as [py Hpy]; [unfold numericFields; in_list|].
  destruct (Hn "pz") as [pz Hpz]; [unfold numericFields; in_list|].
  destruct (Hn "E") as [E HE]; [unfold numericFields; in_list|].
  exists o, px, py, pz, t'.
  cbn [get_prop spread] in *. rewrite Hpx, Hpy, Hpz in *. cbn [default num_of] in *.
  repeat split; eauto.
  - intros k Hk. specialize (Hreq' k Hk). cbn in Hreq'. by apply bool_decide_eq_true in Hreq'.
  - intros k Hk. destruct (Hnum' k Hk) as (n & Hn' & Hnan). cbn [get_prop].
    rewrite Hn'. cbn. by rewrite Hnan.
  - destruct (truthy (default VUndef (o !! "trajectory"))) eqn:Ht.
    + destruct (o !! "trajectory") as [t|] eqn:Eo; cbn in *; [|discriminate].
      destruct t; try discriminate. eauto.
    + by injection Htraj as <-.
Qed.


(** C6: every particle that validates gets a [derived] object with
    pt = sqrt(px*px + py*py), momentum = sqrt(px*px + py*py + pz*pz),
    phi = atan2(py, px) and eta = -log(tan(atan2(pt, |pz|) / 2)), eta being 0
    when pz == 0; the derived object is a function of (px, py, pz) alone: any
    validated particle with the same three components gets the same one. *)
Theorem derived_kinematics (p : value) (i : nat) (p' : value) :
  validateParticle p i = Ok p' →
  ∃ px py pz : float,
    get_prop p "px" = VNum px ∧ get_prop p "py" = VNum py ∧
    get_prop p "pz" = VNum pz ∧
    let d := get_prop p' "derived" in
    let pt := PrimFloat.sqrt (px * px + py * py) in
    get_prop d "pt" = VNum pt ∧
    get_prop d "momentum" = VNum (PrimFloat.sqrt (px * px + py * py + pz * pz)) ∧
    get_prop d "phi" = VNum (Math_atan2 py px) ∧
    get_prop d "eta" =
      VNum (if PrimFloat.eqb pz 0 then 0
            else - Math_log (Math_tan (Math_atan2 pt (PrimFloat.abs pz) / 2)))%float ∧
    ∀ q j q',
      validateParticle q j = Ok q' →
      get_prop q "px" = VNum px → get_prop q "py" = VNum py →
      get_prop q "pz" = VNum pz →
      get_prop q' "derived" = d.
Proof.
  intros H.
  apply validateParticle_inv in H
    as (o & px & py & pz & t' & -> & _ & _ & Hpx & Hpy & Hpz & _ & _ & ->).
  exists px, py, pz. cbn [get_prop]. rewrite Hpx, Hpy, Hpz.
  rewrite lookup_insert_eq. cbn [default].
  repeat split; try reflexivity.
  - unfold DataLoader.derived, derived_eta, derived_pt.
    destruct (PrimFloat.eqb pz 0); reflexivity.
  - intros q j q' Hq Hqx Hqy Hqz.
    apply validateParticle_inv in Hq
      as (o2 & px2 & py2 & pz2 & t2 & -> & _ & _ & Hpx2 & Hpy2 & Hpz2 & _ & _ & ->).
    cbn [get_prop] in *. rewrite lookup_insert_eq. cbn [default].
    rewrite Hpx2 in Hqx. rewrite Hpy2 in Hqy. rewrite Hpz2 in Hqz.
    cbn in Hqx, Hqy, Hqz. congruence.
Qed.

(** C10: a successful validation keeps the particle sequence: the output
    array has the length and the order of the input, and its i-th particle
    carries the i-th input particle's id, type, px, py, pz, E and charge
    unchanged.  Only trajectory and derived are added or replaced: both are
    present in the validated particle, and every other property of it is
    the input particle's, present with the same value or absent alike. *)
Theorem validation_preserves_particles (now : string) (e e' : value) :
  validateEvent now e = Ok e' →
  ∃ ps ps' : list value,
    get_prop e "particles" = VArr ps ∧
    get_prop e' "particles" = VArr ps' ∧
    length ps' = length ps ∧
    ∀ i p p', ps !! i = Some p → ps' !! i = Some p' →
      (∀ k, k ∈ ["id"; "type"; "px"; "py"; "pz"; "E"; "charge"] →
         get_prop p' k = get_prop p k) ∧
      ∃ o o' : gmap string value,
        p = VObj o ∧ p' = VObj o' ∧
        (∀ k, k ≠ "trajectory" → k ≠ "derived" →
           o' !! k = o !! k ∧ get_prop p' k = get_prop p k) ∧
        is_Some (o' !! "trajectory") ∧ is_Some (o' !! "derived").
Proof.
  unfold DataLoader.validateEvent. intros H.
  destruct (negb (truthy e) || _) eqn:Hobj; [discriminate|].
  apply bind_Ok_inv in H as ([] & Hreq & H).
  destruct (negb (truthy (get_prop e "vertex")) || _); [discriminate|].
  destruct (get_prop (get_prop e "vertex") "x"); try discriminate.
  destruct (get_prop (get_prop e "vertex") "y"); try discriminate.
  destruct (get_prop (get_prop e "vertex") "z"); try discriminate.
  destruct (get_prop e "particles") as [| | | | |ps|] eqn:Hps; try discriminate.
  apply bind_Ok_inv in H as (ps' & Hmap & H). injection H as <-.
  destruct e as [| | | | |l|o]; try discriminate.
  apply map_from_Ok in Hmap as [Hlen Hnth].
  exists ps, ps'. split; [done|]. split.
  { cbn [get_prop spread]. rewrite lookup_insert_ne by done.
    by rewrite lookup_insert_eq. }
  split; [done|].
  intros i p p' Hp Hp'.
  specialize (Hnth i p p' Hp Hp').
  apply validateParticle_inv in Hnth as (op & px & py & pz & t' & -> & _ & _ & _ & _ & _ & _ & _ & ->).
  split.
  { intros k Hk. cbn [get_prop].
    repeat (apply elem_of_cons in Hk as [->|Hk]);
      [by rewrite !lookup_insert_ne by done .. | by apply elem_of_nil in Hk]. }
  eexists _, _. split; [reflexivity|]. split; [reflexivity|].
  split; [|split].
  - intros k Ht Hd. cbn [get_prop]. by rewrite !lookup_insert_ne by done.
  - rewrite lookup_insert_ne by done. rewrite lookup_insert_eq. by eexists.
  - rewrite lookup_insert_eq. by eexists.
Qed.


Lemma validatePoint_Ok i pt j pt' :
  validatePoint i pt j = Ok pt' →
  ∃ x y z, pt' = point x y z ∧ get_prop pt "x" = VNum x ∧
           get_prop pt "y" = VNum y ∧ get_prop pt "z" = VNum z.
Proof.
  unfold validatePoint. destruct (negb (truthy pt) || _); [discriminate|].
  destruct (get_prop pt "x"); try discriminate.
  destruct (get_prop pt "y"); try discriminate.
  destruct (get_prop pt "z"); try discriminate.
  intros [= <-]. eauto 10.
Qed.

Lemma validatePoint_point i j x y z :
  validatePoint i (point x y z) j = Ok (point x y z).
Proof. reflexivity. Qed.

Lemma generateSimpleTrajectory_points px py pz pt :
  pt ∈ generateSimpleTrajectory px py pz → ∃ x y z, pt = point x y z.
Proof.
  unfold generateSimpleTrajectory.
  destruct (PrimFloat.eqb _ 0).
  - intros ->%list_elem_of_singleton. eauto.
  - intros (n & -> & _)%list_elem_of_fmap. eauto.
Qed.

(** Validating a validated particle again returns it unchanged. *)
Lemma validateParticle_idempotent p i p' j :
  validateParticle p i = Ok p' → validateParticle p' j = Ok p'.
Proof.
  intros H.
  apply validateParticle_inv in H
    as (o & px & py & pz & t' & -> & Hreq & Hnum & Hpx & Hpy & Hpz & [E HE] & Ht & ->).
  assert (Hpts : ∀ pt, pt ∈ t' → ∃ x y z, pt = point x y z).
  { destruct (truthy _).
    - destruct Ht as (pts & _ & Hmap). intros pt (k & Hk)%list_elem_of_lookup.
      apply map_from_Ok in Hmap as [Hlen Hnth].
      destruct (lookup_lt_is_Some_2 pts k) as [x Hx];
        [rewrite <- Hlen; by eapply lookup_lt_Some|].
      apply (Hnth _ _ _ Hx) in Hk. apply validatePoint_Ok in Hk as (?&?&?&?&_).
      eauto.
    - subst t'. apply generateSimpleTrajectory_points. }
  unfold DataLoader.validateParticle.
  set (p' := VObj _).
  assert (Hobj : negb (truthy p') || negb (bool_decide (typeof p' = TObject)) = false) by done.
  rewrite Hobj. clear Hobj.
  assert (Hreq' : check_required eventSchema_particle_required p' (ParticleMissingField j) = Ok ()).
  { unfold eventSchema_particle_required, p'. cbn [check_required has_prop].
    rewrite !lookup_insert_ne by done.
    rewrite !bool_decide_eq_true_2; [done|apply Hreq; unfold eventSchema_particle_required; in_list..]. }
  rewrite Hreq'. clear Hreq'.
  assert (Hnum' : check_numeric numericFields p' (ParticleFieldNotNumber j) = Ok ()).
  { unfold numericFields, p'. cbn [check_numeric get_prop].
    rewrite !lookup_insert_ne by done. rewrite Hpx, Hpy, Hpz, HE. cbn [default].
    pose proof (Hnum "px" ltac:(in_list)) as Hx.
    pose proof (Hnum "py" ltac:(in_list)) as Hy.
    pose proof (Hnum "pz" ltac:(in_list)) as Hz.
    pose proof (Hnum "E" ltac:(in_list)) as He.
    cbn [get_prop] in Hx, Hy, Hz, He. rewrite Hpx in Hx. rewrite Hpy in Hy.
    rewrite Hpz in Hz. rewrite HE in He.
    cbn [default Schema.is_valid_number] in Hx, Hy, Hz, He.
    apply negb_true_iff in Hx, Hy, Hz, He. cbn [id]. by rewrite Hx, Hy, Hz, He. }
  rewrite Hnum'. clear Hnum'.
  cbn [mbind result_bind].
  assert (Hg : ∀ k v, k ≠ "derived" → k ≠ "trajectory" → o !! k = Some v →
                 get_prop p' k = v).
  { intros k v ? ? Hk. unfold p'. cbn [get_prop].
    rewrite !lookup_insert_ne by done. by rewrite Hk. }
  rewrite (Hg "px" _ ltac:(done) ltac:(done) Hpx),
          (Hg "py" _ ltac:(done) ltac:(done) Hpy),
          (Hg "pz" _ ltac:(done) ltac:(done) Hpz).
  assert (Htr : get_prop p' "trajectory" = VArr t').
  { unfold p'. cbn [get_prop]. rewrite lookup_insert_ne by done.
    by rewrite lookup_insert_eq. }
  rewrite Htr. cbn [truthy num_of].
  rewrite map_from_fixed.
  2:{ intros pt k (x & y & z & ->)%Hpts. apply validatePoint_point. }
  cbn [mbind result_bind]. unfold p'. cbn [spread]. do 2 f_equal.
  apply map_eq; intros k.
  destruct (decide (k = "derived")) as [->|];
    [by rewrite !lookup_insert_eq|].
  rewrite !(lookup_insert_ne _ "derived") by done.
  destruct (decide (k = "trajectory")) as [->|];
    [by rewrite !lookup_insert_eq|].
  by rewrite !lookup_insert_ne by done.
Qed.


Lemma validateEvent_inv now e e' :
  validateEvent now e = Ok e' →
  ∃ o ps ps',
    e = VObj o ∧
    (∀ k, k ∈ eventSchema_required → is_Some (o !! k)) ∧
    Schema.is_object (get_prop e "vertex") = true ∧
    (∀ k, k ∈ ["x"; "y"; "z"] →
       Schema.is_number (get_prop (get_prop e "vertex") k) = true) ∧
    o !! "particles" = Some (VArr ps) ∧
    map_from validateParticle 0 ps = Ok ps' ∧
    e' = VObj
           (<["metadata" :=
                VObj (<["validated_at" := VStr now]>
                     (<["particle_count" := VNum (float_of_nat (length ps'))]>
                     (spread (get_prop e "metadata"))))]>
           (<["particles" := VArr ps']> o)).
Proof.
  unfold DataLoader.validateEvent. intros H.
  destruct (negb (truthy e) || _) eqn:Hobj; [discriminate|].
  apply bind_Ok_inv in H as ([] & Hreq & H).
  destruct (negb (truthy (get_prop e "vertex")) || _) eqn:Hv; [discriminate|].
  destruct (get_prop (get_prop e "vertex") "x") eqn:Hx; try discriminate.
  destruct (get_prop (get_prop e "vertex") "y") eqn:Hy; try discriminate.
  destruct (get_prop (get_prop e "vertex") "z") eqn:Hz; try discriminate.
  destruct (get_prop e "particles") as [| | | | |ps|] eqn:Hps; try discriminate.
  apply bind_Ok_inv in H as (ps' & Hmap & H). injection H as <-.
  pose proof (check_required_Ok _ _ _ Hreq) as Hreq'.
  destruct e as [| | | | |l|o]; try discriminate.
  exists o, ps, ps'. repeat split; try done.
  - intros k Hk. specialize (Hreq' k Hk). cbn in Hreq'.
    by apply bool_decide_eq_true in Hreq'.
  - by destruct (get_prop (VObj o) "vertex").
  - intros k Hk.
    repeat (apply elem_of_cons in Hk as [->|Hk]);
      [by rewrite ?Hx, ?Hy, ?Hz .. | by apply elem_of_nil in Hk].
  - cbn [get_prop] in Hps. destruct (o !! "particles"); cbn in Hps; by subst.
Qed.

(** C7: validating the output of a successful validation succeeds again,
    and its particle array is the very same array: every validated particle
    is returned unchanged by [validateParticle], so its derived fields and
    its trajectory are unchanged.  (The input of [validateEvent] is a value
    of the embedding, which nothing can mutate; the source only reads it.) *)
Theorem validation_idempotent (now now' : string) (e e' : value) :
  validateEvent now e = Ok e' →
  ∃ (e'' : value) (ps' : list value),
    validateEvent now' e' = Ok e'' ∧
    get_prop e' "particles" = VArr ps' ∧
    get_prop e'' "particles" = VArr ps' ∧
    ∀ i p', ps' !! i = Some p' → validateParticle p' i = Ok p'.
Proof.
  intros H.
  apply validateEvent_inv in H
    as (o & ps & ps' & -> & Hreq & Hvo & Hvn & Hps & Hmap & ->).
  set (e' := VObj _).
  assert (Hg : ∀ k, k ≠ "metadata" → k ≠ "particles" →
                 get_prop e' k = get_prop (VObj o) k).
  { intros k ? ?. unfold e'. cbn [get_prop]. by rewrite !lookup_insert_ne by done. }
  assert (Hp' : get_prop e' "particles" = VArr ps').
  { unfold e'. cbn [get_prop]. rewrite lookup_insert_ne by done.
    by rewrite lookup_insert_eq. }
  assert (Hfix : ∀ p' j, p' ∈ ps' → validateParticle p' j = Ok p').
  { intros p' j (k & Hk)%list_elem_of_lookup.
    apply map_from_Ok in Hmap as [Hlen Hnth].
    destruct (lookup_lt_is_Some_2 ps k) as [p Hp];
      [rewrite <- Hlen; by eapply lookup_lt_Some|].
    eapply validateParticle_idempotent, Hnth; eauto. }
  eexists _, ps'. split; [|split; [done|split]].
  - unfold DataLoader.validateEvent.
    assert (Hobj : negb (truthy e') || negb (bool_decide (typeof e' = TObject)) = false) by done.
    rewrite Hobj.
    assert (Hreq' : check_required eventSchema_required e' MissingField = Ok ()).
    { assert (He : ∀ k, k ∈ eventSchema_required → has_prop k e' = true).
      { intros k Hk. unfold e'. cbn [has_prop]. apply bool_decide_eq_true_2.
        specialize (Hreq k Hk). rewrite !lookup_insert.
        repeat case_decide; done. }
      unfold eventSchema_required in *. cbn [check_required].
      by rewrite !He by repeat constructor. }
    rewrite Hreq'. cbn [mbind result_bind].
    rewrite (Hg "vertex") by done. rewrite Hp'.
    assert (Hv : negb (truthy (get_prop (VObj o) "vertex"))
                 || negb (bool_decide (typeof (get_prop (VObj o) "vertex") = TObject)) = false).
    { by destruct (get_prop (VObj o) "vertex"). }
    rewrite Hv.
    pose proof (Hvn "x" ltac:(repeat constructor)) as Hx.
    pose proof (Hvn "y" ltac:(repeat constructor)) as Hy.
    pose proof (Hvn "z" ltac:(repeat constructor)) as Hz.
    destruct (get_prop (get_prop (VObj o) "vertex") "x"); try discriminate.
    destruct (get_prop (get_prop (VObj o) "vertex") "y"); try discriminate.
    destruct (get_prop (get_prop (VObj o) "vertex") "z"); try discriminate.
    rewrite map_from_fixed by (intros; by apply Hfix).
    cbn [mbind result_bind]. reflexivity.
  - cbn [get_prop]. rewrite lookup_insert_ne by done.
    by rewrite lookup_insert_eq.
  - intros i p' Hi. apply Hfix. by eapply list_elem_of_lookup_2.
Qed.


(** C3, as amended: a particle whose trajectory is absent (or otherwise
    falsy) gets a synthesized trajectory: the six points d * (p / |p|) for
    d = 0, 1, 2, 3, 4, 5, which start at the origin, not at the event vertex,
    or the single point (0, 0, 0) when the computed |p| is zero.  A
    trajectory that is present as an array, of one point or of any other
    length, is copied point by point and keeps its length. *)
Theorem synthesized_trajectory (p : value) (i : nat) (p' : value) :
  validateParticle p i = Ok p' →
  (truthy (get_prop p "trajectory") = false →
   ∃ px py pz : float,
     get_prop p "px" = VNum px ∧ get_prop p "py" = VNum py ∧
     get_prop p "pz" = VNum pz ∧
     let momentum := PrimFloat.sqrt (px * px + py * py + pz * pz) in
     get_prop p' "trajectory" =
       VArr (if PrimFloat.eqb momentum 0 then [point 0 0 0]
             else map (λ d : float,
                         point (d * (px / momentum)) (d * (py / momentum))
                               (d * (pz / momentum)))
                      [0; 1; 2; 3; 4; 5]%float)) ∧
  (∀ pts, get_prop p "trajectory" = VArr pts →
   ∃ pts', get_prop p' "trajectory" = VArr pts' ∧
     length pts' = length pts ∧
     ∀ j pt pt', pts !! j = Some pt → pts' !! j = Some pt' →
       ∃ x y z, pt' = point x y z ∧ get_prop pt "x" = VNum x ∧
                get_prop pt "y" = VNum y ∧ get_prop pt "z" = VNum z).
Proof.
  intros H.
  apply validateParticle_inv in H
    as (o & px & py & pz & t' & -> & _ & _ & Hpx & Hpy & Hpz & _ & Ht & ->).
  assert (Htr : ∀ d, get_prop (VObj (<["derived" := d]> (<["trajectory" := VArr t']> o)))
                  "trajectory" = VArr t').
  { intros d. cbn [get_prop]. rewrite lookup_insert_ne by done.
    by rewrite lookup_insert_eq. }
  rewrite Htr. split.
  - intros Hf. rewrite Hf in Ht. subst t'.
    exists px, py, pz. cbn [get_prop]. rewrite Hpx, Hpy, Hpz.
    repeat split; done.
  - intros pts Hpts. rewrite Hpts in Ht. cbn [truthy] in Ht.
    destruct Ht as (pts0 & Ho & Hmap). cbn [get_prop] in Hpts. rewrite Ho in Hpts.
    injection Hpts as ->.
    apply map_from_Ok in Hmap as [Hlen Hnth].
    exists t'. repeat split; try done.
    intros j pt pt' Hj Hj'. specialize (Hnth _ _ _ Hj Hj').
    by apply validatePoint_Ok in Hnth.
Qed.

Lemma is_Ok_bind {A B} (m : result A) (k : A → result B) :
  is_Ok (m ≫= k) = match m with Ok a => is_Ok (k a) | Throw _ => false end.
Proof. by destruct m. Qed.

Lemma check_numeric_is_Ok fs v err :
  is_Ok (check_numeric fs v err)
  = negb (existsb (λ k, negb (Schema.is_valid_number (get_prop v k))) fs).
Proof.
  induction fs as [|f fs IH]; [done|]. cbn [check_numeric existsb].
  destruct (get_prop v f) as [| | |n| | |]; try done.
  cbn. destruct (PrimFloat.is_nan n); cbn; done.
Qed.

Lemma not_object_guard v :
  negb (truthy v) || negb (bool_decide (typeof v = TObject))
  = negb (Schema.is_object v).
Proof. destruct v as [| |b|n|s| |]; cbn; rewrite ?orb_true_r; done. Qed.

Lemma not_object_props v k :
  Schema.is_object v = false → get_prop v k = VUndef ∧ has_prop k v = false.
Proof. by destruct v. Qed.

Lemma validatePoint_is_Ok i pt j :
  is_Ok (validatePoint i pt j) = negb (Schema.point_fails pt).
Proof.
  unfold validatePoint, Schema.point_fails. rewrite not_object_guard.
  destruct (Schema.is_object pt); [|done].
  cbn [negb orb existsb].
  destruct (get_prop _ "x"); try done;
  destruct (get_prop _ "y"); try done;
  destruct (get_prop _ "z"); try done.
Qed.

Lemma validateParticle_is_Ok p i :
  is_Ok (validateParticle p i) = negb (Schema.particle_violation p).
Proof.
  unfold DataLoader.validateParticle, Schema.particle_violation.
  rewrite not_object_guard.
  destruct (Schema.is_object p) eqn:Hobj; cbn [negb].
  2:{ unfold Schema.particle_misses_field, Schema.absent. cbn [existsb].
      by rewrite (proj2 (not_object_props p "id" Hobj)). }
  rewrite is_Ok_bind.
  pose proof (check_required_is_Ok eventSchema_particle_required p
                (ParticleMissingField i)) as Hreq.
  change (existsb _ eventSchema_particle_required)
    with (Schema.particle_misses_field p) in Hreq.
  destruct (check_required _ _ _) as [[]|]; cbn [is_Ok] in Hreq;
    symmetry in Hreq; [apply negb_true_iff in Hreq|apply negb_false_iff in Hreq];
    rewrite Hreq; [|done].
  rewrite is_Ok_bind.
  pose proof (check_numeric_is_Ok numericFields p
                (ParticleFieldNotNumber i)) as Hnum.
  change (existsb _ numericFields) with (Schema.particle_bad_number p) in Hnum.
  destruct (check_numeric _ _ _) as [[]|]; cbn [is_Ok] in Hnum;
    symmetry in Hnum; [apply negb_true_iff in Hnum|apply negb_false_iff in Hnum];
    rewrite Hnum; [|done].
  rewrite is_Ok_bind. cbn [orb].
  unfold Schema.trajectory_point_fails, Schema.trajectory_not_sequence.
  destruct (get_prop p "trajectory") as [| |b|n|s|pts|] eqn:Ht; try done;
    cbn [isArray negb andb orb]; rewrite ?andb_true_r.
  - by destruct (truthy _).
  - by destruct (truthy _).
  - by destruct (truthy _).
  - cbn [truthy]. rewrite orb_false_r.
    pose proof (map_from_is_Ok (validatePoint i) Schema.point_fails pts
                  (validatePoint_is_Ok i) 0) as Hm.
    by destruct (map_from _ _ _).
Qed.

(** C5, as amended: [validateEvent] throws exactly when one of the listed
    conditions holds or a particle has a present trajectory that is not a
    sequence, and returns a validated event exactly when none does; a throw
    carries no event, so a failing load produces none. *)
Theorem validation_fails_exactly_on_violations (now : string) (e : value) :
  ((∃ err, validateEvent now e = Throw err) ↔ Schema.violation e = true) ∧
  ((∃ e', validateEvent now e = Ok e') ↔ Schema.violation e = false).
Proof.
  assert (H : is_Ok (validateEvent now e) = negb (Schema.violation e)).
  { unfold DataLoader.validateEvent, Schema.violation, Schema.event_violation.
    rewrite not_object_guard.
    destruct (Schema.is_object e) eqn:Hobj; cbn [negb].
    2:{ unfold Schema.absent. cbn [existsb].
        by rewrite (proj2 (not_object_props e "event_id" Hobj)). }
    rewrite is_Ok_bind.
    pose proof (check_required_is_Ok eventSchema_required e MissingField) as Hreq.
    destruct (check_required _ _ _) as [[]|]; cbn [is_Ok] in Hreq;
      symmetry in Hreq; [apply negb_true_iff in Hreq|apply negb_false_iff in Hreq];
      unfold eventSchema_required in Hreq; unfold Schema.absent; rewrite Hreq; [|done].
    cbn [orb].
    rewrite not_object_guard.
    destruct (Schema.is_object (get_prop e "vertex")) eqn:Hvo; cbn [negb].
    2:{ cbn [existsb].
        by rewrite (proj1 (not_object_props _ "x" Hvo)). }
    cbn [existsb].
    destruct (get_prop (get_prop e "vertex") "x"); try done;
    destruct (get_prop (get_prop e "vertex") "y"); try done;
    destruct (get_prop (get_prop e "vertex") "z"); try done.
    cbn [Schema.is_number negb orb].
    destruct (get_prop e "particles") as [| | | | |ps|]; try done.
    rewrite is_Ok_bind.
    pose proof (map_from_is_Ok validateParticle Schema.particle_violation ps
                  validateParticle_is_Ok 0) as Hm.
    unfold Schema.particle_violation in Hm.
    by destruct (map_from _ _ _). }
  destruct (validateEvent now e) as [e'|err]; cbn in H; symmetry in H;
    [apply negb_true_iff in H|apply negb_false_iff in H]; rewrite H.
  - split; split; try done; eauto. by intros [? ?].
  - split; split; try done; eauto. by intros [? ?].
Qed.
End Facts.

Import Samples.

Lemma derived_kinematics_witness :
  validateParticle flat_atan2 flat_log flat_tan (electron []) 0
    = Ok validated_electron ∧
  get_prop (get_prop validated_electron "derived") "momentum" = VNum 5.
Proof.
  assert (H : validateParticle flat_atan2 flat_log flat_tan (electron []) 0
              = Ok validated_electron) by (vm_compute; reflexivity).
  split; [exact H|].
  destruct (derived_kinematics flat_atan2 flat_log flat_tan _ _ _ H)
    as (px & py & pz & Hx & Hy & Hz & _ & Hm & _).
  vm_compute in Hx, Hy, Hz. injection Hx as <-. injection Hy as <-.
  injection Hz as <-. rewrite Hm. vm_compute. reflexivity.
Defined.

Lemma validation_preserves_particles_witness :
  validateEvent flat_atan2 flat_log flat_tan "2026-01-01" sample_event
    = Ok validated_event ∧
  ∃ ps ps', get_prop sample_event "particles" = VArr ps ∧
            get_prop validated_event "particles" = VArr ps' ∧
            length ps' = length ps.
Proof.
  assert (H : validateEvent flat_atan2 flat_log flat_tan "2026-01-01"
                sample_event = Ok validated_event) by (vm_compute; reflexivity).
  split; [exact H|].
  destruct (validation_preserves_particles flat_atan2 flat_log flat_tan _ _ _ H)
    as (ps & ps' & H1 & H2 & H3 & _).
  by exists ps, ps'.
Defined.

Lemma validation_idempotent_witness :
  validateEvent flat_atan2 flat_log flat_tan "2026-01-01" sample_event
    = Ok validated_event ∧
  ∃ e'', validateEvent flat_atan2 flat_log flat_tan "2026-02-02" validated_event
         = Ok e''.
Proof.
  assert (H : validateEvent flat_atan2 flat_log flat_tan "2026-01-01"
                sample_event = Ok validated_event) by (vm_compute; reflexivity).
  split; [exact H|].
  destruct (validation_idempotent flat_atan2 flat_log flat_tan
              "2026-01-01" "2026-02-02" _ _ H) as (e'' & ps' & H1 & _).
  by exists e''.
Defined.

Lemma synthesized_trajectory_witness :
  validateParticle flat_atan2 flat_log flat_tan (electron []) 0
    = Ok validated_electron ∧
  truthy (get_prop (electron []) "trajectory") = false ∧
  ∃ pts, get_prop validated_electron "trajectory" = VArr pts ∧ length pts = 6%nat.
Proof.
  assert (H : validateParticle flat_atan2 flat_log flat_tan (electron []) 0
              = Ok validated_electron) by (vm_compute; reflexivity).
  assert (Hf : truthy (get_prop (electron []) "trajectory") = false)
    by (vm_compute; reflexivity).
  split; [exact H|]. split; [exact Hf|].
  destruct (synthesized_trajectory flat_atan2 flat_log flat_tan _ _ _ H)
    as [Hs _].
  destruct (Hs Hf) as (px & py & pz & Hx & Hy & Hz & Ht).
  vm_compute in Hx, Hy, Hz. injection Hx as <-. injection Hy as <-.
  injection Hz as <-. eexists. split; [exact Ht|]. vm_compute. reflexivity.
Defined.

(** C3 fails as stated: an electron with a one-point trajectory keeps that
    one point (it does not get six), and the synthesized trajectory of an
    electron without one starts at (0, 0, 0) although the vertex is
    (7, 8, 9). *)
Lemma one_point_trajectory_is_kept :
  let e := event (point 7 8 9) [one_point_electron; electron []] in
  ∃ e' p1 p2,
    validateEvent flat_atan2 flat_log flat_tan "2026-01-01" e = Ok e' ∧
    get_prop e' "particles" = VArr [p1; p2] ∧
    get_prop p1 "trajectory" = VArr [point 1 2 3] ∧
    get_prop (get_prop p2 "trajectory") "0" = point 0 0 0 ∧
    get_prop e' "vertex" = point 7 8 9.
Proof.
  cbn zeta. eexists _, _, _. split; [vm_compute; reflexivity|].
  split; [vm_compute; reflexivity|]. 
  split; [vm_compute; reflexivity|]. 
  split; vm_compute; reflexivity.
Qed.

(** C5 fails as stated: an event whose only defect is a particle whose
    trajectory is a string is rejected, although none of the listed
    conditions holds of it. *)
Lemma string_trajectory_rejected :
  let e := event (point 0 0 0) [string_trajectory_electron] in
  validateEvent flat_atan2 flat_log flat_tan "2026-01-01" e
    = Throw (TrajectoryNotArray 0) ∧
  Schema.listed_violation e = false.
Proof. split; vm_compute; reflexivity. Qed.

End ValidationFacts.

(** * Properties of the arithmetic of doubles *)

Module FloatFacts.

Import ParticleTracks Rounding.

(** ** Comparison of doubles *)

(** Comparison of doubles, through the specification of the primitive
    operations. *)
Lemma SFcompare_antisym a b :
  SFcompare b a = option_map CompOpp (SFcompare a b).
Proof.
  destruct a as [sa|sa| |sa ma ea], b as [sb|sb| |sb mb eb]; cbn;
    try reflexivity;
    try (destruct sa; reflexivity); try (destruct sb; reflexivity);
    try (destruct sa, sb; reflexivity).
  f_equal. rewrite (Z.compare_antisym ea eb).
  change (PosDef.Pos.compare_cont Eq mb ma) with (Pos.compare mb ma).
  change (PosDef.Pos.compare_cont Eq ma mb) with (Pos.compare ma mb).
  rewrite (Pos.compare_antisym ma mb).
  destruct sa, sb; cbn; try reflexivity;
    destruct (ea ?= eb)%Z; cbn; try reflexivity;
    destruct (ma ?= mb)%positive; reflexivity.
Qed.

Lemma SFcompare_nan a b :
  SFcompare a b = None ↔ a = S754_nan ∨ b = S754_nan.
Proof.
  destruct a as [sa|sa| |sa ma ea], b as [sb|sb| |sb mb eb]; cbn;
    split; intros H; try discriminate; auto; destruct H; discriminate.
Qed.

Lemma SFcompare_refl a : a ≠ S754_nan → SFcompare a a = Some Eq.
Proof.
  destruct a as [sa|sa| |sa ma ea]; cbn; intros H; try done.
  - by destruct sa.
  - rewrite Z.compare_refl.
    change (PosDef.Pos.compare_cont Eq ma ma) with (Pos.compare ma ma).
    rewrite Pos.compare_refl. by destruct sa.
Qed.

Lemma is_nan_spec x : PrimFloat.is_nan x = true ↔ Prim2SF x = S754_nan.
Proof.
  unfold PrimFloat.is_nan. rewrite FloatAxioms.eqb_spec. unfold SFeqb.
  split.
  - intros H. destruct (Prim2SF x) eqn:E; [..|done|];
      rewrite SFcompare_refl in H by done; done.
  - intros ->. done.
Qed.

Lemma is_nan_false x : PrimFloat.is_nan x = false ↔ Prim2SF x ≠ S754_nan.
Proof.
  rewrite <- is_nan_spec. by destruct (PrimFloat.is_nan x).
Qed.

Lemma ltb_leb a b : PrimFloat.ltb a b = true → PrimFloat.leb a b = true.
Proof.
  rewrite FloatAxioms.ltb_spec, FloatAxioms.leb_spec. unfold SFltb, SFleb.
  by destruct (SFcompare _ _) as [[]|].
Qed.

Lemma ltb_asym a b : PrimFloat.ltb a b = true → PrimFloat.ltb b a = false.
Proof.
  rewrite !FloatAxioms.ltb_spec. unfold SFltb.
  rewrite (SFcompare_antisym (Prim2SF a) (Prim2SF b)).
  by destruct (SFcompare (Prim2SF a) (Prim2SF b)) as [[]|].
Qed.

Lemma ltb_nan_l a b : PrimFloat.is_nan a = true → PrimFloat.ltb a b = false.
Proof.
  rewrite is_nan_spec, FloatAxioms.ltb_spec. unfold SFltb. by intros ->.
Qed.

Lemma leb_total a b :
  PrimFloat.is_nan a = false → PrimFloat.is_nan b = false →
  PrimFloat.ltb a b = false → PrimFloat.leb b a = true.
Proof.
  rewrite !is_nan_false, FloatAxioms.ltb_spec, FloatAxioms.leb_spec.
  unfold SFltb, SFleb. intros Ha Hb.
  rewrite (SFcompare_antisym (Prim2SF a) (Prim2SF b)).
  destruct (SFcompare (Prim2SF a) (Prim2SF b)) as [[]|] eqn:E; try done.
  apply SFcompare_nan in E. tauto.
Qed.

Lemma leb_refl a : PrimFloat.is_nan a = false → PrimFloat.leb a a = true.
Proof.
  rewrite is_nan_false, FloatAxioms.leb_spec. unfold SFleb. intros H.
  by rewrite SFcompare_refl.
Qed.

Lemma leb_not_nan a b :
  PrimFloat.leb a b = true →
  PrimFloat.is_nan a = false ∧ PrimFloat.is_nan b = false.
Proof.
  rewrite !is_nan_false, FloatAxioms.leb_spec. unfold SFleb. intros H.
  split; intros E; rewrite E in H; [done|].
  by destruct (Prim2SF a).
Qed.

Lemma Math_min_one m :
  PrimFloat.is_nan m = false →
  PrimFloat.is_nan (Math_min m 1) = false ∧
  PrimFloat.leb (Math_min m 1) 1 = true ∧
  PrimFloat.ltb (Math_min m 1) 1 = PrimFloat.ltb m 1 ∧
  (Math_min m 1 = m ∨ Math_min m 1 = 1%float).
Proof.
  intros Hm. unfold Math_min. rewrite Hm.
  change (PrimFloat.is_nan 1) with false. cbn [orb].
  destruct (PrimFloat.ltb m 1) eqn:H1.
  { split; [done|]. split; [by apply ltb_leb|]. split; [done|by left]. }
  destruct (PrimFloat.ltb 1 m) eqn:H2.
  { split; [done|]. split; [reflexivity|]. split; [reflexivity|by right]. }
  destruct (PrimFloat.ltb (1 / m) 0).
  - split; [done|]. split; [by apply leb_total|]. split; [done|by left].
  - split; [done|]. split; [reflexivity|]. split; [reflexivity|by right].
Qed.

Lemma Math_max_zero x :
  PrimFloat.is_nan x = false →
  PrimFloat.is_nan (Math_max 0 x) = false ∧
  PrimFloat.leb 0 (Math_max 0 x) = true.
Proof.
  intros Hx. unfold Math_max. rewrite Hx.
  change (PrimFloat.is_nan 0) with false. cbn [orb].
  destruct (PrimFloat.ltb x 0) eqn:H1; [by split|].
  destruct (PrimFloat.ltb 0 x) eqn:H2; [split; [done|by apply ltb_leb]|].
  change (PrimFloat.ltb (1 / 0) 0) with false. cbn iota. by split.
Qed.

Lemma leb_trans_one m :
  PrimFloat.leb 0 m = true →
  PrimFloat.leb 0 (Math_min m 1) = true.
Proof.
  intros H0. destruct (leb_not_nan _ _ H0) as [_ Hm].
  destruct (Math_min_one m Hm) as (_ & _ & _ & [->| ->]); [done|reflexivity].
Qed.

Lemma ltb_Math_min_one x :
  PrimFloat.ltb (Math_min x 1) 1 = PrimFloat.ltb x 1.
Proof.
  destruct (PrimFloat.is_nan x) eqn:Hx.
  - rewrite (ltb_nan_l x 1 Hx). unfold Math_min. by rewrite Hx.
  - by destruct (Math_min_one x Hx) as (_ & _ & -> & _).
Qed.

Lemma leb_infinity x :
  PrimFloat.leb x infinity = negb (PrimFloat.is_nan x).
Proof.
  destruct (PrimFloat.is_nan x) eqn:Hx.
  - apply is_nan_spec in Hx. rewrite FloatAxioms.leb_spec, Hx. reflexivity.
  - apply is_nan_false in Hx. rewrite FloatAxioms.leb_spec.
    change (Prim2SF infinity) with (S754_infinity false).
    unfold SFleb. destruct (Prim2SF x) as [s|s| |s m e]; cbn; try done.
    by destruct s.
Qed.

Lemma leb_zero_infinity x :
  PrimFloat.leb 0 x && PrimFloat.leb x infinity = PrimFloat.leb 0 x.
Proof.
  destruct (PrimFloat.leb 0 x) eqn:H0; [|done].
  destruct (leb_not_nan _ _ H0) as [_ Hx]. by rewrite leb_infinity, Hx.
Qed.

(** ** Rounding of doubles: lower bounds *)

Section RoundingFacts.
Local Open Scope Z_scope.

Lemma digits2_pos_bounds (p : positive) :
  2 ^ (Z.pos (digits2_pos p) - 1) ≤ Z.pos p < 2 ^ Z.pos (digits2_pos p).
Proof.
  induction p as [p IH|p IH|]; cbn [digits2_pos].
  - rewrite Pos2Z.inj_succ.
    replace (Z.succ (Z.pos (digits2_pos p)) - 1) with (Z.pos (digits2_pos p) - 1 + 1) by lia.
    rewrite Z.pow_succ_r by lia. rewrite Z.pow_add_r by lia. lia.
  - rewrite Pos2Z.inj_succ.
    replace (Z.succ (Z.pos (digits2_pos p)) - 1) with (Z.pos (digits2_pos p) - 1 + 1) by lia.
    rewrite Z.pow_succ_r by lia. rewrite Z.pow_add_r by lia. lia.
  - cbn. lia.
Qed.

Lemma Zdigits2_unique (m n : Z) :
  2 ^ (n - 1) ≤ m < 2 ^ n → 0 < n → Zdigits2 m = n.
Proof.
  intros [Hlo Hhi] Hn.
  assert (0 < m) by (pose proof (Z.pow_pos_nonneg 2 (n - 1)); lia).
  destruct m as [|p|p]; try lia. cbn [Zdigits2].
  pose proof (digits2_pos_bounds p) as [Hl Hh].
  set (d := Z.pos (digits2_pos p)) in *.
  assert (d - 1 < n).
  { apply (Z.pow_lt_mono_r_iff 2); lia. }
  assert (n - 1 < d).
  { apply (Z.pow_lt_mono_r_iff 2); lia. }
  lia.
Qed.

Lemma shr_1_m mrs : 0 ≤ shr_m mrs → shr_m (shr_1 mrs) = shr_m mrs / 2.
Proof.
  destruct mrs as [m r s]. cbn [shr_m shr_1]. intros Hm.
  destruct m as [|[p|p|]|p]; cbn [shr_m]; try lia; try reflexivity.
  - apply (Z.div_unique _ _ _ 1); lia.
  - apply (Z.div_unique _ _ _ 0); lia.
Qed.

Lemma iter_shr_1_m (p : positive) :
  ∀ mrs, 0 ≤ shr_m mrs →
    shr_m (SpecFloat.iter_pos shr_1 p mrs) = shr_m mrs / 2 ^ Z.pos p.
Proof.
  assert (Hnn : ∀ mrs, 0 ≤ shr_m mrs → 0 ≤ shr_m (shr_1 mrs)).
  { intros mrs H. rewrite shr_1_m by done. apply Z.div_pos; lia. }
  induction p as [p IH|p IH|]; intros mrs Hm; cbn [SpecFloat.iter_pos].
  - assert (H1 := Hnn mrs Hm).
    assert (H2 : 0 ≤ shr_m (SpecFloat.iter_pos shr_1 p (shr_1 mrs))).
    { rewrite IH by done. apply Z.div_pos; lia. }
    rewrite IH by done. rewrite IH by done. rewrite shr_1_m by done.
    assert (Hpow : 2 ^ Z.pos p~1 = 2 * 2 ^ Z.pos p * 2 ^ Z.pos p).
    { rewrite Pos2Z.inj_xI, <- Z.pow_succ_r, <- Z.pow_add_r by lia.
      f_equal. lia. }
    pose proof (Z.pow_pos_nonneg 2 (Z.pos p)).
    rewrite Hpow, !Z.div_div by lia; try (f_equal; lia).
  - assert (H2 : 0 ≤ shr_m (SpecFloat.iter_pos shr_1 p mrs)).
    { rewrite IH by done. apply Z.div_pos; lia. }
    rewrite IH by done. rewrite IH by done.
    assert (Hpow : 2 ^ Z.pos p~0 = 2 ^ Z.pos p * 2 ^ Z.pos p).
    { rewrite Pos2Z.inj_xO, <- Z.pow_add_r by lia. f_equal. lia. }
    pose proof (Z.pow_pos_nonneg 2 (Z.pos p)).
    rewrite Hpow, !Z.div_div by lia; try (f_equal; lia).
  - by apply shr_1_m.
Qed.

Lemma shr_m_of_loc m l : shr_m (shr_record_of_loc m l) = m.
Proof. by destruct l as [|[]]. Qed.

Lemma shr_spec m l e n :
  0 ≤ m → 0 ≤ n →
  shr_m (shr (shr_record_of_loc m l) e n).1 = m / 2 ^ n ∧
  (shr (shr_record_of_loc m l) e n).2 = e + n.
Proof.
  intros Hm Hn. unfold shr. destruct n as [|p|p]; try lia; cbn [fst snd].
  - rewrite shr_m_of_loc, Z.div_1_r. split; [done|lia].
  - rewrite iter_shr_1_m by (by rewrite shr_m_of_loc).
    by rewrite shr_m_of_loc.
Qed.

Lemma round_nearest_even_cases m l :
  round_nearest_even m l = m ∨ round_nearest_even m l = m + 1.
Proof.
  destruct l as [|[]]; cbn; auto. destruct (Z.even m); auto.
Qed.

Lemma binary_round_aux_normal (M E : Z) (l : location) :
  0 < M → 53 ≤ Zdigits2 M → -1074 ≤ Zdigits2 M + E - 53 →
  let m1 := M / 2 ^ (Zdigits2 M - 53) in
  let e1 := Zdigits2 M + E - 53 in
  2 ^ 52 ≤ m1 < 2 ^ 53 ∧
  ∃ m2, (m2 = m1 ∨ m2 = m1 + 1) ∧
    binary_round_aux prec emax false M E l
    = if m2 <? 2 ^ 53 then packed m2 e1 else packed (2 ^ 52) (e1 + 1).
Proof.
  intros HM Hd He m1 e1.
  set (d := Zdigits2 M) in *.
  assert (Hm1 : 2 ^ 52 ≤ m1 < 2 ^ 53).
  { destruct M as [|p|p]; try lia. cbn [Zdigits2] in d.
    pose proof (digits2_pos_bounds p) as [Hl Hh]. fold d in Hl, Hh.
    unfold m1.
    assert (Hp : 0 < 2 ^ (d - 53)) by (apply Z.pow_pos_nonneg; lia).
    assert (Hs : 2 ^ (d - 1) = 2 ^ 52 * 2 ^ (d - 53)).
    { rewrite <- Z.pow_add_r by lia. f_equal. lia. }
    assert (Hs' : 2 ^ d = 2 ^ 53 * 2 ^ (d - 53)).
    { rewrite <- Z.pow_add_r by lia. f_equal. lia. }
    split.
    - apply Z.div_le_lower_bound; [done|]. lia.
    - apply Z.div_lt_upper_bound; [done|]. lia. }
  split; [exact Hm1|].
  unfold binary_round_aux, shr_fexp. fold d.
  assert (Hf : fexp prec emax (d + E) = e1).
  { unfold fexp, emin, prec, emax, e1. lia. }
  rewrite Hf.
  destruct (shr_spec M l E (e1 - E)) as [Hs1 Hs2]; [lia|unfold e1; lia|].
  destruct (shr (shr_record_of_loc M l) E (e1 - E)) as [mrs' e'].
  cbn [fst snd] in Hs1, Hs2.
  replace (e1 - E) with (d - 53) in Hs1 by (unfold e1; lia).
  fold m1 in Hs1. replace (E + (e1 - E)) with e1 in Hs2 by lia. subst e'.
  rewrite Hs1.
  set (m2 := round_nearest_even m1 (loc_of_shr_record mrs')).
  exists m2. split; [apply round_nearest_even_cases|].
  assert (Hm2 : m2 = m1 ∨ m2 = m1 + 1) by apply round_nearest_even_cases.
  destruct (m2 <? 2 ^ 53) eqn:Hlt.
  - apply Z.ltb_lt in Hlt.
    assert (Hd2 : Zdigits2 m2 = 53) by (apply Zdigits2_unique; lia).
    rewrite Hd2.
    assert (Hf2 : fexp prec emax (53 + e1) = e1).
    { unfold fexp, emin, prec, emax, e1. lia. }
    rewrite Hf2, Z.sub_diag. cbn [shr shr_record_of_loc shr_m].
    unfold packed. destruct m2 as [|p|p]; try lia. reflexivity.
  - apply Z.ltb_ge in Hlt.
    assert (Hm2' : m2 = 2 ^ 53) by lia. rewrite Hm2'.
    change (Zdigits2 (2 ^ 53)) with 54.
    assert (Hf2 : fexp prec emax (54 + e1) - e1 = 1).
    { unfold fexp, emin, prec, emax, e1. lia. }
    rewrite Hf2. cbn [shr shr_record_of_loc].
    unfold packed. reflexivity.
Qed.

Lemma packed_above (m0 : positive) (e0 m e : Z) :
  0 < m → e0 < e ∨ (e0 = e ∧ Z.pos m0 ≤ m) →
  SFleb (S754_finite false m0 e0) (packed m e) = true.
Proof.
  intros Hm H. unfold packed. destruct (e <=? 971); [|reflexivity].
  unfold SFleb, SFcompare. destruct H as [H|[-> H]].
  - by rewrite (proj2 (Z.compare_lt_iff e0 e) H).
  - rewrite Z.compare_refl.
    change (PosDef.Pos.compare_cont Eq m0 (Z.to_pos m))
      with (Pos.compare m0 (Z.to_pos m)).
    destruct (Pos.compare_spec m0 (Z.to_pos m)); try done. lia.
Qed.

Lemma binary_round_aux_lower (M E : Z) (l : location) (m0 : positive) (e0 : Z) :
  0 < M → 53 ≤ Zdigits2 M → 2 ^ 52 ≤ Z.pos m0 < 2 ^ 53 → -1074 ≤ e0 →
  at_least (Z.pos m0) e0 M E →
  SFleb (S754_finite false m0 e0) (binary_round_aux prec emax false M E l)
  = true.
Proof.
  intros HM Hd Hm0 He0 (k & HkE & Hke & Hle).
  set (d := Zdigits2 M) in *.
  assert (HMd : M < 2 ^ d).
  { destruct M as [|p|p]; try lia. apply digits2_pos_bounds. }
  assert (Hpk : 0 < 2 ^ (E - k)) by (apply Z.pow_pos_nonneg; lia).
  assert (Hpk0 : 0 < 2 ^ (e0 - k)) by (apply Z.pow_pos_nonneg; lia).
  assert (HA : 52 + e0 < d + E).
  { assert (2 ^ (52 + e0 - k) < 2 ^ (d + E - k)).
    { replace (52 + e0 - k) with (52 + (e0 - k)) by lia.
      replace (d + E - k) with (d + (E - k)) by lia.
      rewrite !Z.pow_add_r by lia.
      set (A := 2 ^ (e0 - k)) in *. set (B := 2 ^ (E - k)) in *.
      assert (2 ^ 52 * A ≤ Z.pos m0 * A) by (apply Z.mul_le_mono_nonneg_r; lia).
      assert (M * B < 2 ^ d * B) by (apply Z.mul_lt_mono_pos_r; lia).
      lia. }
    assert (52 + e0 - k < d + E - k); [|lia].
    apply (Z.pow_lt_mono_r_iff 2); lia. }
  destruct (binary_round_aux_normal M E l HM Hd ltac:(fold d; lia))
    as (Hm1 & m2 & Hm2 & ->).
  fold d in Hm1, Hm2 |- *.
  set (m1 := M / 2 ^ (d - 53)) in *. set (e1 := d + E - 53).
  destruct (Z.eq_dec e1 e0) as [Heq|Hne].
  - assert (Hm10 : Z.pos m0 ≤ m1).
    { unfold m1. apply Z.div_le_lower_bound; [apply Z.pow_pos_nonneg; lia|].
      replace (d - 53) with (e0 - E) by (unfold e1 in Heq; lia).
      assert (Hsplit : 2 ^ (e0 - k) = 2 ^ (e0 - E) * 2 ^ (E - k)).
      { rewrite <- Z.pow_add_r by (unfold e1 in Heq; lia). f_equal. lia. }
      rewrite Hsplit in Hle. nia. }
    assert (H52 : 0 < 2 ^ 52) by reflexivity.
    destruct (m2 <? 2 ^ 53); apply packed_above; lia.
  - assert (H52 : 0 < 2 ^ 52) by reflexivity.
    assert (e0 < e1) by (unfold e1 in *; lia).
    destruct (m2 <? 2 ^ 53); apply packed_above; lia.
Qed.

Lemma Zdigits2_ge (m n : Z) : 2 ^ (n - 1) ≤ m → 0 < n → n ≤ Zdigits2 m.
Proof.
  intros Hlo Hn.
  assert (0 < m) by (pose proof (Z.pow_pos_nonneg 2 (n - 1)); lia).
  destruct m as [|p|p]; try lia. cbn [Zdigits2].
  pose proof (digits2_pos_bounds p) as [Hl Hh].
  set (d := Z.pos (digits2_pos p)) in *.
  assert (n - 1 < d); [|lia].
  apply (Z.pow_lt_mono_r_iff 2); lia.
Qed.

Lemma at_least_digits (m0 e0 M E : Z) :
  0 < M → 2 ^ 52 ≤ m0 → at_least m0 e0 M E → 52 + e0 < Zdigits2 M + E.
Proof.
  intros HM Hm0 (k & HkE & Hke & Hle).
  set (d := Zdigits2 M) in *.
  assert (HMd : M < 2 ^ d).
  { destruct M as [|p|p]; try lia. apply digits2_pos_bounds. }
  assert (0 < d).
  { destruct M as [|p|p]; try lia. unfold d. cbn. lia. }
  assert (Hpk : 0 < 2 ^ (E - k)) by (apply Z.pow_pos_nonneg; lia).
  assert (Hpk0 : 0 < 2 ^ (e0 - k)) by (apply Z.pow_pos_nonneg; lia).
  assert (2 ^ (52 + e0 - k) < 2 ^ (d + E - k)).
  { replace (52 + e0 - k) with (52 + (e0 - k)) by lia.
    replace (d + E - k) with (d + (E - k)) by lia.
    rewrite !Z.pow_add_r by lia.
    set (A := 2 ^ (e0 - k)) in *. set (B := 2 ^ (E - k)) in *.
    assert (2 ^ 52 * A ≤ m0 * A) by (apply Z.mul_le_mono_nonneg_r; lia).
    assert (M * B < 2 ^ d * B) by (apply Z.mul_lt_mono_pos_r; lia).
    lia. }
  assert (52 + e0 - k < d + E - k); [|lia].
  apply (Z.pow_lt_mono_r_iff 2); lia.
Qed.

Lemma at_least_shift (m0 e0 M E M' E' : Z) :
  E' ≤ E → M' = M * 2 ^ (E - E') →
  at_least m0 e0 M E → at_least m0 e0 M' E'.
Proof.
  intros HE -> (k & HkE & Hke & Hle).
  exists (Z.min k E'). split; [lia|]. split; [lia|].
  set (k' := Z.min k E').
  assert (H1 : 2 ^ (e0 - k') = 2 ^ (e0 - k) * 2 ^ (k - k')).
  { rewrite <- Z.pow_add_r by lia. f_equal. lia. }
  assert (H2 : 2 ^ (E - E') * 2 ^ (E' - k') = 2 ^ (E - k) * 2 ^ (k - k')).
  { rewrite <- !Z.pow_add_r by lia. f_equal. lia. }
  assert (H3 : 0 ≤ 2 ^ (k - k')) by (apply Z.pow_nonneg; lia).
  rewrite H1, <- Z.mul_assoc, H2, !Z.mul_assoc.
  by apply Z.mul_le_mono_nonneg_r.
Qed.

Lemma shl_align_spec (mx : positive) (ex e' : Z) :
  e' ≤ ex →
  Z.pos (shl_align mx ex e').1 = Z.pos mx * 2 ^ (ex - e') ∧
  (shl_align mx ex e').2 = e'.
Proof.
  intros H. unfold shl_align. destruct (e' - ex) as [|d|d] eqn:Hd; try lia.
  - cbn [fst snd]. replace (ex - e') with 0 by lia. split; lia.
  - cbn [fst snd]. split; [|done].
    replace (ex - e') with (Z.pos d) by lia.
    pose proof (Zpower.shift_pos_correct d mx) as Hs.
    unfold Zpower.shift_pos in Hs. rewrite Hs.
    change (Z.pow_pos 2 d) with (2 ^ Z.pos d). lia.
Qed.

Lemma binary_round_lower (M : positive) (E : Z) (m0 : positive) (e0 : Z) :
  2 ^ 52 ≤ Z.pos m0 < 2 ^ 53 → -1074 ≤ e0 →
  at_least (Z.pos m0) e0 (Z.pos M) E →
  SFleb (S754_finite false m0 e0) (binary_round prec emax false M E) = true.
Proof.
  intros Hm0 He0 Hle. unfold binary_round.
  pose proof (digits2_pos_bounds M) as [Hl Hh].
  pose proof (at_least_digits _ _ _ _ (Pos2Z.is_pos M) (proj1 Hm0) Hle) as HA.
  cbn [Zdigits2] in HA.
  set (d := Z.pos (digits2_pos M)) in *.
  destruct (Z_lt_le_dec (fexp prec emax (d + E)) E) as [Hlt|Hge].
  - destruct (shl_align_spec M E (fexp prec emax (d + E))) as [H1 H2]; [lia|].
    destruct (shl_align M E (fexp prec emax (d + E))) as [mz ez].
    cbn [fst snd] in H1, H2. subst ez.
    apply binary_round_aux_lower; try done.
    + apply Zdigits2_ge; [|lia]. rewrite H1.
      assert (Hd53 : d < 53) by (unfold fexp, emin, prec, emax in Hlt; lia).
      assert (Hs : 2 ^ (53 - 1) = 2 ^ (d - 1) * 2 ^ (53 - d)).
      { rewrite <- Z.pow_add_r by lia. f_equal. lia. }
      rewrite Hs.
      assert (Hp : 2 ^ (53 - d) ≤ 2 ^ (E - fexp prec emax (d + E))).
      { apply Z.pow_le_mono_r; [lia|].
        unfold fexp, emin, prec, emax in *. lia. }
      assert (0 < 2 ^ (53 - d)) by (apply Z.pow_pos_nonneg; lia).
      assert (0 < 2 ^ (d - 1)) by (apply Z.pow_pos_nonneg; lia).
      nia.
    + by apply (at_least_shift _ _ (Z.pos M) E); [lia|..].
  - assert (Hs : shl_align M E (fexp prec emax (d + E)) = (M, E)).
    { unfold shl_align. by destruct (fexp prec emax (d + E) - E) eqn:?; try lia. }
    rewrite Hs. apply binary_round_aux_lower; try done.
    cbn [Zdigits2]. fold d. unfold fexp, emin, prec, emax in Hge. lia.
Qed.

Lemma shr_m_nonneg m l e n :
  0 ≤ m → 0 ≤ shr_m (shr (shr_record_of_loc m l) e n).1.
Proof.
  intros Hm. destruct (Z_lt_le_dec n 0) as [Hn|Hn].
  - unfold shr. destruct n; try lia. cbn [fst]. by rewrite shr_m_of_loc.
  - destruct (shr_spec m l e n) as [-> _]; try done.
    apply Z.div_pos; [done|apply Z.pow_pos_nonneg; lia].
Qed.

Lemma binary_round_aux_nonneg (M E : Z) (l : location) :
  0 ≤ M → nonneg (binary_round_aux prec emax false M E l).
Proof.
  intros HM. unfold binary_round_aux, shr_fexp.
  pose proof (shr_m_nonneg M l E (fexp prec emax (Zdigits2 M + E) - E) HM) as H1.
  destruct (shr (shr_record_of_loc M l) E _) as [mrs' e']. cbn [fst] in H1.
  set (m2 := round_nearest_even (shr_m mrs') (loc_of_shr_record mrs')).
  assert (H2 : 0 ≤ m2).
  { unfold m2.
    destruct (round_nearest_even_cases (shr_m mrs') (loc_of_shr_record mrs'))
      as [-> | ->]; lia. }
  pose proof (shr_m_nonneg m2 loc_Exact e'
                (fexp prec emax (Zdigits2 m2 + e') - e') H2) as H3.
  destruct (shr (shr_record_of_loc m2 loc_Exact) e' _) as [mrs'' e''].
  cbn [fst] in H3.
  destruct (shr_m mrs''); try lia; cbn; [done|].
  by destruct (_ <=? _).
Qed.

Lemma SFleb_zero_nonneg x : SFleb (S754_zero false) x = true → nonneg x.
Proof. by destruct x as [s|[]| |[] m e]. Qed.

Lemma SFdiv_nonneg x (m : positive) (e : Z) :
  nonneg x → nonneg (SFdiv prec emax x (S754_finite false m e)).
Proof.
  destruct x as [s|[]| |[] mx ex]; cbn [nonneg SFdiv xorb]; try done.
  intros _. unfold SFdiv_core_binary.
  set (m' := match _ with Z.pos _ => _ | _ => _ end).
  assert (Hm' : 0 ≤ m').
  { unfold m'. destruct (_ - _ - _); try lia.
    rewrite Z.shiftl_mul_pow2 by lia.
    pose proof (Z.pow_pos_nonneg 2 (Z.pos p)). lia. }
  pose proof (Z_div_mod m' (Z.pos m) ltac:(lia)) as Hq.
  destruct (Z.div_eucl m' (Z.pos m)) as [q r].
  apply binary_round_aux_nonneg. nia.
Qed.

Lemma SFmul_nonneg x (m : positive) (e : Z) :
  nonneg x → nonneg (SFmul prec emax x (S754_finite false m e)).
Proof.
  destruct x as [s|[]| |[] mx ex]; cbn [nonneg SFmul xorb]; try done.
  intros _. by apply binary_round_aux_nonneg.
Qed.

Lemma SFleb_refl_finite (m : positive) (e : Z) :
  SFleb (S754_finite false m e) (S754_finite false m e) = true.
Proof.
  unfold SFleb, SFcompare. rewrite Z.compare_refl.
  change (PosDef.Pos.compare_cont Eq m m) with (Pos.compare m m).
  by rewrite Pos.compare_refl.
Qed.

Lemma SFadd_lower x (m0 : positive) (e0 : Z) :
  2 ^ 52 ≤ Z.pos m0 < 2 ^ 53 → -1074 ≤ e0 → nonneg x →
  SFleb (S754_finite false m0 e0)
        (SFadd prec emax x (S754_finite false m0 e0)) = true.
Proof.
  intros Hm0 He0.
  destruct x as [s|[]| |[] mx ex]; cbn [nonneg SFadd]; try done.
  - intros _. apply SFleb_refl_finite.
  - intros _. cbn [cond_Zopp].
    destruct (shl_align_spec mx ex (Z.min ex e0)) as [H1 _]; [lia|].
    destruct (shl_align_spec m0 e0 (Z.min ex e0)) as [H2 _]; [lia|].
    destruct (shl_align mx ex (Z.min ex e0)) as [a ?].
    destruct (shl_align m0 e0 (Z.min ex e0)) as [b ?].
    cbn [fst] in *. change (Z.pos a + Z.pos b) with (Z.pos (a + b)).
    cbn [binary_normalize]. apply binary_round_lower; try done.
    exists (Z.min ex e0). split; [lia|]. split; [lia|].
    rewrite Z.sub_diag, Z.mul_1_r, Pos2Z.inj_add. lia.
Qed.

Lemma SFcompare_Eq_finite (m : positive) (e : Z) x :
  SFcompare (S754_finite false m e) x = Some Eq → x = S754_finite false m e.
Proof.
  destruct x as [s|[]| |[] mx ex]; cbn [SFcompare]; try done.
  destruct (e ?= ex) eqn:He; try done.
  apply Z.compare_eq in He. subst ex.
  change (PosDef.Pos.compare_cont Eq m mx) with (Pos.compare m mx).
  destruct (Pos.compare_spec m mx); try done. by subst.
Qed.

(** Division by 100 of a double that is at least 100 gives at least 1. *)
Lemma SFdiv_hundred (mx : positive) (ex : Z) :
  valid_binary (S754_finite false mx ex) = true →
  SFleb (S754_finite false 7036874417766400 (-46)) (S754_finite false mx ex)
  = true →
  SFleb (S754_finite false 4503599627370496 (-52))
        (SFdiv prec emax (S754_finite false mx ex)
               (S754_finite false 7036874417766400 (-46))) = true.
Proof.
  intros Hv Hle.
  assert (Hex : -46 < ex ∨ (ex = -46 ∧ 7036874417766400 ≤ Z.pos mx)).
  { unfold SFleb, SFcompare in Hle.
    destruct (Z.compare_spec (-46) ex) as [<-|?|?]; [right|by left|done].
    split; [done|].
    change (PosDef.Pos.compare_cont Eq 7036874417766400 mx)
      with (Pos.compare 7036874417766400 mx) in Hle.
    destruct (Pos.compare_spec 7036874417766400 mx); try done; lia. }
  assert (Hd : Z.pos (digits2_pos mx) = 53).
  { unfold SpecFloat.valid_binary, bounded, canonical_mantissa in Hv.
    apply andb_prop in Hv as [Hv _]. apply Z.eqb_eq in Hv.
    unfold fexp, emin, prec, emax in Hv. lia. }
  pose proof (digits2_pos_bounds mx) as [Hlo Hhi]. rewrite Hd in Hlo, Hhi.
  change (2 ^ (53 - 1)) with 4503599627370496 in Hlo.
  change (2 ^ 53) with 9007199254740992 in Hhi.
  cbn [SFdiv xorb]. unfold SFdiv_core_binary. cbn [Zdigits2]. rewrite Hd.
  change (Z.pos (digits2_pos 7036874417766400)) with 53.
  replace (Z.min (fexp prec emax (53 + ex - (53 + -46))) (ex - -46))
    with (ex - 7) by (unfold fexp, emin, prec, emax; lia).
  replace (ex - -46 - (ex - 7)) with 53 by lia. cbv beta iota zeta.
  rewrite Z.shiftl_mul_pow2 by lia.
  change (2 ^ 53) with 9007199254740992.
  pose proof (Z_div_mod (Z.pos mx * 9007199254740992) 7036874417766400
                ltac:(lia)) as Hq.
  destruct (Z.div_eucl (Z.pos mx * 9007199254740992) 7036874417766400)
    as [q r].
  destruct Hq as [Hq Hr].
  assert (Hq52 : 4503599627370496 ≤ q) by lia.
  apply binary_round_aux_lower.
  - lia.
  - apply Zdigits2_ge; [|lia]. change (2 ^ (53 - 1)) with 4503599627370496. lia.
  - by vm_compute.
  - lia.
  - destruct Hex as [Hex|[-> Hmx]].
    + exists (-52). split; [lia|]. split; [lia|].
      change (2 ^ (-52 - -52)) with 1.
      assert (1 ≤ 2 ^ (ex - 7 - -52)).
      { apply (Z.pow_le_mono_r 2 0); lia. }
      nia.
    + exists (-53). split; [lia|]. split; [lia|].
      change (2 ^ (-52 - -53)) with 2. change (2 ^ (-46 - 7 - -53)) with 1.
      lia.
Qed.

End RoundingFacts.

(** ** The opacity of a detailed track *)

Lemma nonneg_not_nan x : nonneg (Prim2SF x) → PrimFloat.is_nan x = false.
Proof. intros H. apply is_nan_false. intros E. by rewrite E in H. Qed.

Lemma leb_zero_nonneg x : PrimFloat.leb 0 x = true → nonneg (Prim2SF x).
Proof.
  rewrite FloatAxioms.leb_spec. change (Prim2SF 0) with (S754_zero false).
  apply SFleb_zero_nonneg.
Qed.

Lemma Math_min_one_nonneg m :
  nonneg (Prim2SF m) → nonneg (Prim2SF (Math_min m 1)).
Proof.
  intros H.
  destruct (Math_min_one m (nonneg_not_nan _ H)) as (_ & _ & _ & [-> | ->]);
    [done|by vm_compute].
Qed.

(** From energy 0 on, the opacity of a detailed track is at least 0.3. *)
Lemma energyAlpha_lower E :
  PrimFloat.leb 0 E = true → PrimFloat.leb 0.3 (energyAlpha E) = true.
Proof.
  intros HE. unfold energyAlpha.
  rewrite FloatAxioms.leb_spec, FloatAxioms.add_spec, FloatAxioms.mul_spec.
  unfold SF64add, SF64mul.
  change (Prim2SF 0.3) with (S754_finite false 5404319552844595 (-54)).
  change (Prim2SF 0.7) with (S754_finite false 6305039478318694 (-53)).
  apply SFadd_lower; [by vm_compute|lia|].
  apply SFmul_nonneg, Math_min_one_nonneg.
  rewrite FloatAxioms.div_spec. unfold SF64div.
  change (Prim2SF 100) with (S754_finite false 7036874417766400 (-46)).
  apply SFdiv_nonneg. by apply leb_zero_nonneg.
Qed.

(** From energy 100 on, the quotient E / 100 is at least 1. *)
Lemma div_hundred_lower E :
  PrimFloat.leb 100 E = true → PrimFloat.leb 1 (E / 100) = true.
Proof.
  rewrite !FloatAxioms.leb_spec, FloatAxioms.div_spec. unfold SF64div.
  change (Prim2SF 100) with (S754_finite false 7036874417766400 (-46)).
  change (Prim2SF 1) with (S754_finite false 4503599627370496 (-52)).
  pose proof (FloatAxioms.Prim2SF_valid E) as Hv.
  destruct (Prim2SF E) as [s|[]| |[] mx ex]; try done.
  by apply SFdiv_hundred.
Qed.

Lemma Math_min_above_one m :
  PrimFloat.leb 1 m = true → Math_min m 1 = 1%float.
Proof.
  intros H1. destruct (leb_not_nan _ _ H1) as [_ Hn].
  unfold Math_min. rewrite Hn. change (PrimFloat.is_nan 1) with false.
  cbn [orb].
  destruct (PrimFloat.ltb m 1) eqn:Hlt, (PrimFloat.ltb 1 m) eqn:Hgt;
    try reflexivity;
    rewrite FloatAxioms.leb_spec in H1; rewrite FloatAxioms.ltb_spec in Hlt, Hgt;
    unfold SFleb, SFltb in *;
    rewrite (SFcompare_antisym (Prim2SF 1) (Prim2SF m)) in Hlt;
    destruct (SFcompare (Prim2SF 1) (Prim2SF m)) as [[]|] eqn:Hc;
    cbn in Hlt; try done.
  apply (SFcompare_Eq_finite 4503599627370496 (-52)) in Hc.
  assert (Hm : m = 1%float) by (by apply FloatAxioms.Prim2SF_inj).
  rewrite Hm. by destruct (PrimFloat.ltb _ _).
Qed.

(** From energy 100 on, the opacity of a detailed track is 1. *)
Lemma energyAlpha_top E :
  PrimFloat.leb 100 E = true → energyAlpha E = 1%float.
Proof.
  intros HE. unfold energyAlpha.
  rewrite (Math_min_above_one _ (div_hundred_lower _ HE)).
  vm_compute. reflexivity.
Qed.

End FloatFacts.

(** * Properties of the track engine *)

Module TrackFacts.

Import ParticleTracks Filters Logic Appearance FloatFacts.

Lemma safe_ret {A} P (a : A) : safe P (mret a).
Proof. intros s Hs. by exists a, s, []. Qed.

Lemma safe_bind {A B} P (m : M A) (k : A → M B) :
  safe P m → (∀ a, safe P (k a)) → safe P (m ≫= k).
Proof.
  intros Hm Hk s Hs. destruct (Hm s Hs) as (a & s1 & l1 & E1 & Hs1).
  destruct (Hk a s1 Hs1) as (b & s2 & l2 & E2 & Hs2).
  exists b, s2, (l1 ++ l2). unfold mbind, M_bind. by rewrite E1, E2.
Qed.

Lemma safe_get P : safe P get_state.
Proof. intros s Hs. by exists s, s, []. Qed.

Lemma safe_modify (P : State → Prop) f : (∀ s, P s → P (f s)) → safe P (modify f).
Proof. intros Hf s Hs. exists (), (f s), []. split; [done|auto]. Qed.

Lemma safe_emit P e : safe P (emit e).
Proof. intros s Hs. by exists (), s, [e]. Qed.

Lemma safe_forEach_from {A} P (f : A → nat → M unit) l :
  (∀ x i, safe P (f x i)) → ∀ i, safe P (forEach_from f i l).
Proof.
  intros Hf. induction l as [|x l IH]; intros i; cbn [forEach_from].
  - apply safe_ret.
  - apply safe_bind; [apply Hf|intros _; apply IH].
Qed.

Lemma safe_forEach {A} P (f : A → M unit) l :
  (∀ x, safe P (f x)) → safe P (forEach f l).
Proof. intros Hf. apply safe_forEach_from. auto. Qed.

Lemma safe_exec {A} (P : State → Prop) (m : M A) s : safe P m → P s → P (exec m s).
Proof.
  intros Hm Hs. destruct (Hm s Hs) as (a & s' & l & E & Hs').
  unfold exec. by rewrite E.
Qed.

Lemma exec_modify_bind {B} f (k : () → M B) s :
  exec (modify f ≫= k) s = exec (k ()) (f s).
Proof.
  unfold exec, mbind, M_bind, modify. by destruct (k () (f s)) as [[? ?] ?].
Qed.

Lemma safe_update r f :
  (∀ o, built o → built (f o)) → safe all_built (update r f).
Proof.
  intros Hf. apply safe_modify. intros s Hs. unfold all_built in *. cbn.
  apply Forall_alter; [done|]. intros o _. apply Hf.
Qed.

Lemma safe_push o : built o → safe all_built (push_object o).
Proof.
  intros Ho. apply safe_modify. intros s Hs. unfold all_built in *. cbn.
  apply Forall_app. split; [done|]. by constructor.
Qed.

Lemma safe_createParticleTrack random particle vertex index :
  safe all_built (createParticleTrack random particle vertex index).
Proof.
  unfold createParticleTrack.
  destruct (_ <? 2)%nat; [apply safe_emit|].
  apply safe_bind; [by apply safe_modify|]. intros _.
  apply safe_bind; [apply safe_get|]. intros s.
  destruct (_ && _).
  - apply safe_push. reflexivity.
  - unfold createDetailedTrack.
    apply safe_bind; [by apply safe_modify|]. intros _.
    apply safe_bind; [apply safe_push; cbn; eauto|]. intros _.
    unfold createDirectionArrow. destruct (_ <? 2)%nat; [apply safe_ret|].
    by apply safe_push.
Qed.

Lemma safe_get_then {B} (P : State → Prop) (k : State → M B) :
  (∀ s, P s → ∃ b s' l, k s s = (Done b, s', l) ∧ P s') →
  safe P (get_state ≫= k).
Proof.
  intros Hk s Hs. destruct (Hk s Hs) as (b & s' & l & E & Hs').
  exists b, s', l. unfold mbind, M_bind, get_state. by rewrite E.
Qed.

Lemma exec_bind {A B} (m : M A) (k : A → M B) s a s1 l :
  m s = (Done a, s1, l) → exec (m ≫= k) s = exec (k a) s1.
Proof.
  intros E. unfold exec, mbind, M_bind. rewrite E.
  by destruct (k a s1) as [[? ?] ?].
Qed.

Lemma safe_update_in mode r f :
  (∀ o, built_in mode o → built_in mode (f o)) →
  safe (all_built_in mode) (update r f).
Proof.
  intros Hf. apply safe_modify. intros s [Hm Hs]. split; [done|]. cbn.
  apply Forall_alter; [done|]. intros o _. apply Hf.
Qed.

Lemma safe_push_in mode o :
  built_in mode o → safe (all_built_in mode) (push_object o).
Proof.
  intros Ho. apply safe_modify. intros s [Hm Hs]. split; [done|]. cbn.
  apply Forall_app. split; [done|]. by constructor.
Qed.

Lemma safe_createParticleTrack_in mode random particle vertex index :
  safe (all_built_in mode) (createParticleTrack random particle vertex index).
Proof.
  unfold createParticleTrack.
  destruct (_ <? 2)%nat; [apply safe_emit|].
  apply safe_bind; [by apply safe_modify|]. intros _.
  apply safe_get_then. intros s Hs. pose proof Hs as [Hm _]. rewrite Hm.
  destruct (mode && _) eqn:Hc.
  - apply andb_prop in Hc as [-> Hc]. apply Nat.ltb_lt in Hc.
    refine (safe_push_in true _ _ s Hs). cbn. eauto 10.
  - assert (Hd : mode = false ∨
                 length (default [] (p_trajectory particle)) ≤ 10).
    { destruct mode; [right|by left]. cbn [andb] in Hc.
      apply Nat.ltb_ge in Hc. lia. }
    refine ((_ : safe (all_built_in mode) (createDetailedTrack random _)) s Hs).
    unfold createDetailedTrack.
    apply safe_bind; [by apply safe_modify|]. intros _.
    apply safe_bind; [apply safe_push_in; cbn; eauto 10|]. intros _.
    unfold createDirectionArrow. destruct (_ <? 2)%nat; [apply safe_ret|].
    by apply safe_push_in.
Qed.

Section Anim.
Variable Math_pow : float → float → float.

Lemma safe_animateFrame_in mode t :
  safe (all_built_in mode) (animateFrame Math_pow t).
Proof.
  unfold animateFrame.
  apply safe_bind; [apply safe_get|]. intros s.
  destruct (negb _); [apply safe_ret|].
  apply safe_bind; [by apply safe_modify|]. intros _.
  apply safe_bind; [apply safe_forEach; intros; by apply safe_update_in|].
  intros _.
  apply safe_bind; [apply safe_get|]. intros s'.
  destruct (_ <? _)%float; [apply safe_emit|].
  apply safe_bind; [by apply safe_modify|]. intros _. apply safe_emit.
Qed.

Lemma safe_startAnimation_in mode t0 t1 :
  safe (all_built_in mode) (startAnimation Math_pow t0 t1).
Proof.
  unfold startAnimation.
  apply safe_bind; [apply safe_get|]. intros s.
  destruct (_ =? 0)%nat; [apply safe_ret|].
  apply safe_bind; [by apply safe_modify|]. intros _.
  apply safe_bind; [by apply safe_modify|]. intros _.
  apply safe_bind; [by apply safe_modify|]. intros _.
  apply safe_bind; [apply safe_forEach; intros; by apply safe_update_in|].
  intros _.
  apply safe_animateFrame_in.
Qed.

Lemma loadTracks_all_built_in random t0 t1 particles vertex s :
  all_built_in (maxTracks <? length particles)%nat
    (exec (loadTracks Math_pow random t0 t1 particles vertex) s).
Proof.
  set (mode := (maxTracks <? length particles)%nat).
  unfold loadTracks. rewrite exec_modify_bind.
  assert (Hmode : ∃ l,
    (if (maxTracks <? length particles)%nat then
       emit (ConsoleWarn (PerformanceWarning (length particles)));;
       modify (set_useSimplifiedRendering true)
     else modify (set_useSimplifiedRendering false)) (clearTracks s)
    = (Done (), set_useSimplifiedRendering mode (clearTracks s), l)).
  { unfold mode. destruct (_ <? _)%nat; by eexists. }
  destruct Hmode as [l Hmode]. rewrite (exec_bind _ _ _ _ _ _ Hmode).
  apply safe_exec; [|by split; [|constructor]].
  apply safe_bind.
  { apply safe_forEach_from. intros. apply safe_createParticleTrack_in. }
  intros _. apply safe_startAnimation_in.
Qed.

Lemma safe_animateFrame t : safe all_built (animateFrame Math_pow t).
Proof.
  unfold animateFrame.
  apply safe_bind; [apply safe_get|]. intros s.
  destruct (negb _); [apply safe_ret|].
  apply safe_bind; [by apply safe_modify|]. intros _.
  apply safe_bind; [apply safe_forEach; intros; by apply safe_update|]. intros _.
  apply safe_bind; [apply safe_get|]. intros s'.
  destruct (_ <? _)%float; [apply safe_emit|].
  apply safe_bind; [by apply safe_modify|]. intros _. apply safe_emit.
Qed.

Lemma safe_startAnimation t0 t1 : safe all_built (startAnimation Math_pow t0 t1).
Proof.
  unfold startAnimation.
  apply safe_bind; [apply safe_get|]. intros s.
  destruct (_ =? 0)%nat; [apply safe_ret|].
  apply safe_bind; [by apply safe_modify|]. intros _.
  apply safe_bind; [by apply safe_modify|]. intros _.
  apply safe_bind; [by apply safe_modify|]. intros _.
  apply safe_bind; [apply safe_forEach; intros; by apply safe_update|]. intros _.
  apply safe_animateFrame.
Qed.

(** C9, as amended: let a batch of particles be loaded, in simplified mode
    when there are more than 500 of them.  A track drawn as a tube (every
    track of a batch that is not in simplified mode, and in simplified mode
    every track whose trajectory has at most 10 points) has the opacity
    min(E / 100, 1) * 0.7 + 0.3 of its particle's energy E; a track drawn as a
    poly-line (only in simplified mode, for a trajectory of more than 10
    points) has the fixed opacity 0.8 whatever its energy; an arrow has 0.9.
    The formula gives 0.3 at energy 0, at least 0.3 at every energy that is
    at least 0, and 1 at every energy that is at least 100. *)
Theorem track_opacity random t0 t1 particles vertex (s : State) (o : TrackObject) :
  let simplified := (maxTracks <? length particles)%nat in
  let s' := exec (loadTracks Math_pow random t0 t1 particles vertex) s in
  o ∈ trackObjects s' →
  useSimplifiedRendering s' = simplified ∧
  match kind o, isArrow (userData o) with
  | Line, _ =>
      ∃ t, ud_trackData (userData o) = Some t ∧
           ud_particle (userData o) = Some (particle t) ∧
           simplified = true ∧ 10 < length (trajectory t) ∧
           opacity (material o) = Some 0.8%float
  | Mesh, false =>
      ∃ t, ud_trackData (userData o) = Some t ∧
           ud_particle (userData o) = Some (particle t) ∧
           (simplified = false ∨ length (trajectory t) ≤ 10) ∧
           opacity (material o)
           = Some (Math_min (p_E (particle t) / 100) 1 * 0.7 + 0.3)%float
  | Mesh, true => opacity (material o) = Some 0.9%float
  end ∧
  energyAlpha 0 = 0.3%float ∧
  (∀ E, PrimFloat.leb 0 E = true →
        PrimFloat.leb 0.3 (energyAlpha E) = true) ∧
  (∀ E, PrimFloat.leb 100 E = true → energyAlpha E = 1%float).
Proof.
  intros simplified s' Ho.
  destruct (loadTracks_all_built_in random t0 t1 particles vertex s)
    as [Hm Hall].
  split; [exact Hm|]. split.
  { eapply Forall_forall in Hall; [exact Hall|exact Ho]. }
  split; [vm_compute; reflexivity|].
  split; [apply energyAlpha_lower|apply energyAlpha_top].
Qed.
End Anim.

Lemma lookup_filter_map (f : TrackObject → TrackObject) s i o' :
  trackObjects (set_trackObjects (map f (trackObjects s)) s) !! i = Some o' →
  ∃ o, trackObjects s !! i = Some o ∧ o' = f o.
Proof.
  cbn. change (map f (trackObjects s)) with (f <$> trackObjects s).
  rewrite list_lookup_fmap. destruct (trackObjects s !! i); cbn; [|done].
  intros [= <-]. eauto.
Qed.

Lemma filterByEnergy_narrowing lo hi : narrowing (filterByEnergy lo hi).
Proof.
  intros s i o o' Ho Ho' Hv. apply lookup_filter_map in Ho' as (o0 & Ho0 & ->).
  rewrite Ho in Ho0. injection Ho0 as <-.
  destruct (ud_particle (userData o)); [|done]. cbn. by rewrite Hv.
Qed.

Lemma filterByPt_narrowing lo hi : narrowing (filterByPt lo hi).
Proof.
  intros s i o o' Ho Ho' Hv. apply lookup_filter_map in Ho' as (o0 & Ho0 & ->).
  rewrite Ho in Ho0. injection Ho0 as <-.
  destruct (ud_trackData (userData o)); [|done]. cbn. by rewrite Hv.
Qed.

Lemma call_length c s : length (trackObjects (call c s)) = length (trackObjects s).
Proof. destruct c; cbn; apply length_map. Qed.

Lemma range_call_narrowing c : is_range c = true → narrowing (call c).
Proof.
  destruct c; [done| |]; intros _;
    [apply filterByEnergy_narrowing | apply filterByPt_narrowing].
Qed.

Lemma range_calls_narrowing (cs : list FilterCall) :
  Forall (λ c, is_range c = true) cs →
  narrowing (calls cs).
Proof.
  induction cs as [|c cs IH] using rev_ind; intros Hcs s i o o' Ho Ho' Hv.
  - cbn in Ho'. congruence.
  - apply Forall_app in Hcs as [Hcs Hc]. apply Forall_inv in Hc.
    unfold calls in Ho'. rewrite foldl_app in Ho'. cbn [foldl] in Ho'.
    fold (calls cs s) in Ho'.
    destruct (trackObjects (calls cs s) !! i) as [o1|] eqn:Ho1.
    + apply (range_call_narrowing c Hc (calls cs s) i o1 o' Ho1 Ho').
      apply (IH Hcs s i o o1 Ho Ho1 Hv).
    + apply lookup_ge_None in Ho1. apply lookup_lt_Some in Ho'.
      rewrite call_length in Ho'. lia.
Qed.

Lemma filterByType_overwrites types s i o :
  trackObjects s !! i = Some o →
  ∃ o', trackObjects (filterByType types s) !! i = Some o' ∧
    visible o' =
      match ud_particle (userData o) with
      | Some p => (length types =? 0)%nat || bool_decide (p_type p ∈ types)
      | None => visible o
      end.
Proof.
  intros Ho. unfold filterByType. cbn.
  change (map ?f (trackObjects s)) with (f <$> trackObjects s).
  rewrite list_lookup_fmap, Ho. cbn. eexists; split; [done|].
  by destruct (ud_particle (userData o)).
Qed.

Lemma range_call_ands c s i o :
  is_range c = true → trackObjects s !! i = Some o →
  ∃ o', trackObjects (call c s) !! i = Some o' ∧
        visible o' = visible o && range_test c (userData o) ∧
        userData o' = userData o.
Proof.
  intros Hc Ho. destruct c as [ts|lo hi|lo hi]; [done|..];
    cbn [call range_test]; [unfold filterByEnergy|unfold filterByPt]; cbn;
    change (map ?f (trackObjects s)) with (f <$> trackObjects s);
    rewrite list_lookup_fmap, Ho; cbn; (eexists; split; [done|]).
  - destruct (ud_particle (userData o)); cbn; [done|].
    by rewrite andb_true_r.
  - destruct (ud_trackData (userData o)); cbn; [done|].
    by rewrite andb_true_r.
Qed.

Lemma range_calls_and (cs : list FilterCall) :
  Forall (λ c, is_range c = true) cs →
  ∀ s i o, trackObjects s !! i = Some o →
    ∃ o', trackObjects (calls cs s) !! i = Some o' ∧
          visible o'
          = visible o && forallb (λ c, range_test c (userData o)) cs ∧
          userData o' = userData o.
Proof.
  induction 1 as [|c cs Hc Hcs IH]; intros s i o Ho.
  - exists o. cbn. by rewrite andb_true_r.
  - destruct (range_call_ands c s i o Hc Ho) as (o1 & Ho1 & Hv1 & Hu1).
    destruct (IH (call c s) i o1 Ho1) as (o' & Ho' & Hv' & Hu').
    exists o'. split; [exact Ho'|]. cbn [forallb].
    rewrite Hv', Hv1, Hu1, Hu'. split; [|done]. by rewrite andb_assoc.
Qed.

(** C1, as amended: [filterByEnergy] and [filterByPt] only narrow: no call
    of either, and no sequence of such calls, turns a visibility flag from
    false to true.  Each ANDs its range test into the current flag: the flag
    of an object that has a particle becomes its old value AND
    (min ≤ value ∧ value ≤ max), and after a sequence of such calls it is
    the flag before the sequence AND all their range tests.  [filterByType]
    instead overwrites the flag of every object that has a particle with the
    membership result (true for an empty type list), whatever the flag
    was. *)
Theorem range_filters_only_narrow (cs : list FilterCall) :
  Forall (λ c, is_range c = true) cs →
  narrowing (calls cs) ∧
  Forall (λ c, narrowing (call c)) cs ∧
  (∀ s i o,
     trackObjects s !! i = Some o →
     ∃ o', trackObjects (calls cs s) !! i = Some o' ∧
       visible o'
       = visible o && forallb (λ c, range_test c (userData o)) cs) ∧
  (∀ minEnergy maxEnergy s i o,
     trackObjects s !! i = Some o →
     ∃ o', trackObjects (filterByEnergy minEnergy maxEnergy s) !! i = Some o' ∧
       visible o' =
         match ud_particle (userData o) with
         | Some p => visible o && (PrimFloat.leb minEnergy (p_E p)
                                   && PrimFloat.leb (p_E p) maxEnergy)
         | None => visible o
         end) ∧
  (∀ minPt maxPt s i o,
     trackObjects s !! i = Some o →
     ∃ o', trackObjects (filterByPt minPt maxPt s) !! i = Some o' ∧
       visible o' =
         match ud_trackData (userData o) with
         | Some t => visible o && (PrimFloat.leb minPt (pt t)
                                   && PrimFloat.leb (pt t) maxPt)
         | None => visible o
         end) ∧
  ∀ types s i o,
    trackObjects s !! i = Some o →
    ∃ o', trackObjects (filterByType types s) !! i = Some o' ∧
      visible o' =
        match ud_particle (userData o) with
        | Some p => (length types =? 0)%nat || bool_decide (p_type p ∈ types)
        | None => visible o
        end.
Proof.
  intros Hcs. split; [by apply range_calls_narrowing|]. split.
  { eapply Forall_impl; [exact Hcs|]. intros c. apply range_call_narrowing. }
  split.
  { intros s i o Ho.
    destruct (range_calls_and cs Hcs s i o Ho) as (o' & Ho' & Hv & _). eauto. }
  split.
  { intros lo hi s i o Ho.
    destruct (range_call_ands (ByEnergy lo hi) s i o eq_refl Ho)
      as (o' & Ho' & Hv & _).
    exists o'. split; [exact Ho'|]. rewrite Hv. cbn [range_test].
    destruct (ud_particle (userData o)); [done|apply andb_true_r]. }
  split.
  { intros lo hi s i o Ho.
    destruct (range_call_ands (ByPt lo hi) s i o eq_refl Ho)
      as (o' & Ho' & Hv & _).
    exists o'. split; [exact Ho'|]. rewrite Hv. cbn [range_test].
    destruct (ud_trackData (userData o)); [done|apply andb_true_r]. }
  intros types s i o. apply filterByType_overwrites.
Qed.

Import Scene.

Lemma track_opacity_witness :
  let s := exec (loadTracks Samples.flat_pow (λ _, 0%float) 0 0
                   [electron 50 3] origin) initial in
  ∃ o, o ∈ trackObjects s ∧
       opacity (material o) = Some (0.5 * 0.7 + 0.3)%float.
Proof.
  cbn zeta.
  set (s := exec (loadTracks Samples.flat_pow (λ _, 0%float) 0 0
                    [electron 50 3] origin) initial).
  assert (H : ∃ o, trackObjects s !! 0%nat = Some o ∧ kind o = Mesh ∧
                   isArrow (userData o) = false ∧
                   p_E <$> ud_particle (userData o) = Some 50%float).
  { vm_compute. eexists. repeat split. }
  destruct H as (o & Ho & Hk & Ha & HE).
  exists o. split; [by eapply list_elem_of_lookup_2|].
  destruct (track_opacity Samples.flat_pow (λ _, 0%float) 0 0
              [electron 50 3] origin initial o
              (list_elem_of_lookup_2 _ _ _ Ho)) as (_ & H & _).
  rewrite Hk, Ha in H. destruct H as (t & _ & Hp & _ & Hop).
  rewrite Hp in HE. injection HE as HE. rewrite Hop, HE.
  vm_compute. reflexivity.
Defined.

(** C9 fails as stated: in an event of 501 particles the simplified track of
    a particle of energy 0 has opacity 0.8, not the 0.3 of the formula; and
    the detailed track of a particle of energy -100, which validation
    accepts, has an opacity below 0.3. *)
Lemma simplified_track_opacity_is_fixed :
  let s := exec (loadTracks Samples.flat_pow (λ _, 0%float) 0 0
                   (replicate 501 (electron 0 11)) origin) initial in
  let s' := exec (loadTracks Samples.flat_pow (λ _, 0%float) 0 0
                    [electron (-100) 3] origin) initial in
  (kind <$> trackObjects s !! 0%nat) = Some Line ∧
  (opacity ∘ material <$> trackObjects s !! 0%nat) = Some (Some 0.8%float) ∧
  (Math_min (0 / 100) 1 * 0.7 + 0.3 = 0.3)%float ∧
  (opacity ∘ material <$> trackObjects s' !! 0%nat)
  = Some (Some (-0.7 + 0.3)%float) ∧
  PrimFloat.ltb (-0.7 + 0.3) 0.3 = true.
Proof. cbn zeta. repeat split; vm_compute; reflexivity. Qed.

Lemma range_filters_only_narrow_witness :
  Forall (λ c, is_range c = true) [ByEnergy 50 infinity; ByPt 0 infinity] ∧
  narrowing (calls [ByEnergy 50 infinity; ByPt 0 infinity]).
Proof.
  assert (H : Forall (λ c, is_range c = true)
                [ByEnergy 50 infinity; ByPt 0 infinity])
    by (repeat constructor).
  split; [exact H|].
  exact (proj1 (range_filters_only_narrow _ H)).
Defined.

(** C1 fails as stated: an electron of energy 10 hidden by
    [filterByEnergy(50)] is made visible again by a later
    [filterByType(['electron'])]. *)
Lemma type_filter_widens :
  let s0 := exec (loadTracks Samples.flat_pow (λ _, 0%float) 0 0
                    [electron 10 3] origin) initial in
  let s1 := filterByEnergy 50 infinity (filterByType ["electron"] s0) in
  let s2 := filterByType ["electron"] s1 in
  visible <$> trackObjects s1 !! 0%nat = Some false ∧
  visible <$> trackObjects s2 !! 0%nat = Some true.
Proof. split; vm_compute; reflexivity. Qed.

(** C4 at its failing input: in an event of 501 particles the simplified
    track of an 11-point trajectory has stride 1, so its line keeps all 11
    points and repeats the last one: 12 points, not at most 8 and the final
    point. *)
Lemma simplified_track_keeps_every_point (Math_pow : float → float → float) :
  let s := exec (loadTracks Math_pow (λ _, 0%float) 0 0
                   (replicate 501 (electron 10 11)) origin) initial in
  useSimplifiedRendering s = true ∧
  (geometry <$> trackObjects s !! 0%nat)
  = Some (LineGeometry (line 11 ++ [{| vx := 10; vy := 0; vz := 0 |}])).
Proof. split; vm_compute; reflexivity. Qed.

(** A tick of an animation that is not running changes nothing. *)
Lemma animateFrame_idle (Math_pow : float → float → float) now s :
  isAnimating s = false → animateFrame Math_pow now s = (Done (), s, []).
Proof.
  intros H. unfold animateFrame, mbind, M_bind, get_state. by rewrite H.
Qed.

(** C2 at its failing input: a track with delay 300 ms (random value 0.6),
    animation started at 1000 ms.  The tick at 3000 ms ends the animation and
    dispatches the completion event although the track's local progress is
    0.85, and leaves its scale at easeOutCubic(0.85); later ticks change
    nothing. *)
Lemma animation_completes_before_delayed_track
    (Math_pow : float → float → float) :
  let s0 := exec (loadTracks Math_pow (λ _, 0.6%float) 1000 1000
                    [electron 10 3] origin) initial in
  let s1 := exec (animateFrame Math_pow 3000) s0 in
  isAnimating s0 = true ∧
  animatedTracks s0 = [{| mesh := 0; originalScale := 1; delay := 300 |}] ∧
  isAnimating s1 = false ∧
  effects (animateFrame Math_pow 3000) s0
    = [DispatchEvent trackAnimationComplete] ∧
  map (localProgress 2000) (animatedTracks s1) = [0.85%float] ∧
  (scale <$> trackObjects s1 !! 0%nat) = Some (easeOutCubic Math_pow 0.85) ∧
  ∀ now, animateFrame Math_pow now s1 = (Done (), s1, []).
Proof.
  cbn zeta.
  split; [vm_compute; reflexivity|]. split; [vm_compute; reflexivity|].
  split; [vm_compute; reflexivity|]. split; [vm_compute; reflexivity|].
  split; [vm_compute; reflexivity|]. split; [vm_compute; reflexivity|].
  intros now. apply animateFrame_idle. vm_compute. reflexivity.
Qed.

Lemma hoare_bind {A B} P (m : M A) Q (k : A → M B) R E :
  hoare P m Q E → (∀ a, hoare (Q a) (k a) R E) → hoare P (m ≫= k) R E.
Proof.
  intros Hm Hk s Hs. specialize (Hm s Hs). unfold mbind, M_bind.
  destruct (m s) as [[[a|e] s1] l1]; [|done].
  specialize (Hk a s1 Hm). by destruct (k a s1) as [[[b|e] s2] l2].
Qed.

Lemma hoare_weaken {A} (P P' : State → Prop) (m : M A) (Q Q' : A → State → Prop)
    (E E' : State → Prop) :
  hoare P' m Q' E' → (∀ s, P s → P' s) → (∀ a s, Q' a s → Q a s) →
  (∀ s, E' s → E s) → hoare P m Q E.
Proof.
  intros H HP HQ HE s Hs. specialize (H s (HP s Hs)).
  destruct (m s) as [[[a|e] s1] l1]; auto.
Qed.

Lemma hoare_exec {A} P (m : M A) Q E (R : State → Prop) s :
  hoare P m Q E → P s → (∀ a s', Q a s' → R s') → (∀ s', E s' → R s') →
  R (exec m s).
Proof.
  intros H Hs HQ HE. specialize (H s Hs). unfold exec.
  destruct (m s) as [[[a|e] s1] l1]; cbn; eauto.
Qed.

Lemma hoare_ret {A} (P : State → Prop) (a : A) E : hoare P (mret a) (λ _, P) E.
Proof. by intros s Hs. Qed.

Lemma hoare_get P E : hoare P get_state (λ a s, a = s ∧ P s) E.
Proof. by intros s Hs. Qed.

Lemma hoare_modify (P Q : State → Prop) f E :
  (∀ s, P s → Q (f s)) → hoare P (modify f) (λ _, Q) E.
Proof. intros H s Hs. by apply H. Qed.

Lemma hoare_emit (P : State → Prop) e E : hoare P (emit e) (λ _, P) E.
Proof. by intros s Hs. Qed.

Lemma hoare_update (P Q : State → Prop) r f E :
  (∀ s, P s → Q (set_trackObjects (alter f r (trackObjects s)) s)) →
  hoare P (update r f) (λ _, Q) E.
Proof. intros H. by apply hoare_modify. Qed.

Lemma hoare_deref (P : State → Prop) r E :
  (∀ s, P s → E s) →
  hoare P (deref r) (λ o s, trackObjects s !! r = Some o ∧ P s) E.
Proof.
  intros HE s Hs. unfold deref, mbind, M_bind, get_state.
  destruct (trackObjects s !! r) eqn:Hr; cbn; auto.
Qed.





Lemma hoare_emissive_setHex_with (P : State → Prop) r h :
  (∀ s, P s → P (set_trackObjects (alter (set_emissive h) r (trackObjects s)) s)) →
  hoare P (emissive_setHex r h) (λ _, P) P.
Proof.
  intros Hst. unfold emissive_setHex.
  eapply hoare_bind; [by apply hoare_deref|]. intros o.
  destruct (emissive (material o)).
  - apply hoare_update. intros s [_ Hs]. by apply Hst.
  - by intros s [_ Hs].
Qed.

Lemma lookup_alter_Some (f : TrackObject → TrackObject) r (l : list TrackObject) i :
  alter f r l !! i = (if decide (r = i) then f else id) <$> l !! i.
Proof.
  rewrite list_lookup_alter. destruct (decide (r = i)) as [->|]; [done|].
  by destruct (l !! i).
Qed.

Lemma has_emissive_alter s r r' f :
  (∀ o, emissive (material (f o)) = emissive (material o)) →
  has_emissive s r →
  has_emissive (set_trackObjects (alter f r' (trackObjects s)) s) r.
Proof.
  intros Hf (o & Ho & He). unfold has_emissive. cbn.
  rewrite lookup_alter_Some, Ho. cbn. eexists; split; [done|].
  destruct (decide (r' = r)); cbn; by rewrite ?Hf.
Qed.

(** Resetting a mesh never raises. *)
Lemma hoare_reset_mesh (P : State → Prop) r :
  stable (λ _, True) P →
  hoare (λ s, P s ∧ has_emissive s r) (resetTrackAppearance r) (λ _, P)
        (λ _, False).
Proof.
  intros Hst. unfold resetTrackAppearance.
  eapply hoare_bind.
  { apply (hoare_update _ (λ s, P s ∧ has_emissive s r)). intros s [Hs He].
    split; [by apply Hst|]. by apply has_emissive_alter. }
  intros ?. eapply hoare_bind.
  { apply (hoare_update _ (λ s, P s ∧ has_emissive s r)). intros s [Hs He].
    split; [by apply Hst|]. by apply has_emissive_alter. }
  intros ?. intros s [Hs (o & Ho & He)].
  unfold emissive_setHex, deref, mbind, M_bind, get_state. rewrite Ho. cbn.
  destruct (emissive (material o)); [|done]. cbn. by apply Hst.
Qed.


Lemma object_satisfies_set (Phi : TrackObject → Prop) r f s :
  (∀ o, Phi (f o)) → is_Some (trackObjects s !! r) →
  object_satisfies Phi r (set_trackObjects (alter f r (trackObjects s)) s).
Proof.
  intros Hf [o Ho]. unfold object_satisfies. cbn.
  rewrite lookup_alter_Some, Ho. cbn. eexists; split; [done|].
  by destruct (decide (r = r)).
Qed.


























End TrackFacts.

(** * Further properties of the track engine *)

Module SceneFacts.

Import ParticleTracks Filters Logic FloatFacts TrackFacts.
Import Build UI Pointer Appearance Scaling Eased.

Lemma hoare_forEach_from {A} (I : list A → State → Prop) (f : A → nat → M unit)
    E (l : list A) :
  (∀ x i done, hoare (I done) (f x i) (λ _, I (done ++ [x])) E) →
  ∀ done i, hoare (I done) (forEach_from f i l) (λ _, I (done ++ l)) E.
Proof.
  intros Hf. induction l as [|x l IH]; intros done i; cbn [forEach_from].
  - rewrite app_nil_r. apply hoare_ret.
  - eapply hoare_bind; [apply Hf|]. intros ?.
    replace (done ++ x :: l) with ((done ++ [x]) ++ l) by (by rewrite <- app_assoc).
    apply IH.
Qed.

Lemma hoare_forEach {A} (P : State → Prop) (f : A → M unit) E (l : list A) :
  (∀ x, hoare P (f x) (λ _, P) E) → hoare P (forEach f l) (λ _, P) E.
Proof.
  intros Hf. unfold forEach.
  apply (hoare_forEach_from (λ _, P) (λ x _, f x) E l (λ x _ _, Hf x) [] 0%nat).
Qed.

Lemma hoare_push (P Q : State → Prop) o E :
  (∀ s, P s → Q (set_trackObjects (trackObjects s ++ [o]) s)) →
  hoare P (push_object o) (λ _, Q) E.
Proof. intros H. by apply hoare_modify. Qed.

Lemma animates_mesh_app s t os :
  animates_mesh s t → animates_mesh (set_trackObjects (trackObjects s ++ os) s) t.
Proof.
  intros (o & Ho & Hk). exists o. split; [|done]. cbn.
  by apply lookup_app_l_Some.
Qed.

Lemma filter_snoc {A} (P : A → Prop) `{∀ x, Decision (P x)} (l : list A) x :
  filter P (l ++ [x]) = filter P l ++ (if decide (P x) then [x] else []).
Proof.
  by rewrite filter_app, filter_cons, filter_nil.
Qed.

Lemma classify_short mode p :
  renderable p = false → detailed mode p = false ∧ simplified mode p = false.
Proof. unfold detailed, simplified. by intros ->. Qed.

Lemma classify_simplified mode p :
  renderable p = true → mode && (10 <? length (trajectory_of p))%nat = true →
  detailed mode p = false ∧ simplified mode p = true.
Proof.
  unfold detailed, simplified. intros -> H. rewrite <- andb_assoc. by rewrite H.
Qed.

Lemma classify_detailed mode p :
  renderable p = true → mode && (10 <? length (trajectory_of p))%nat = false →
  detailed mode p = true ∧ simplified mode p = false.
Proof.
  unfold detailed, simplified. intros -> H. rewrite <- andb_assoc. by rewrite H.
Qed.

Lemma createParticleTrack_invariant mode random p vertex i done :
  hoare (invariant mode done) (createParticleTrack random p vertex i)
        (λ _, invariant mode (done ++ [p])) (λ _, False).
Proof.
  unfold createParticleTrack. fold (trajectory_of p).
  destruct (length (trajectory_of p) <? 2)%nat eqn:Hshort.
  - intros s [H1 H2 H3 H4 H5 H6 H7 H8]. cbn [emit].
    assert (Hr : renderable p = false).
    { unfold renderable. apply Nat.ltb_lt in Hshort. apply Nat.leb_gt. lia. }
    destruct (classify_short mode p Hr) as [Hd Hs].
    split; try done; rewrite !filter_snoc, ?Hr, ?Hd, ?Hs;
      repeat case_decide; try done; by rewrite !app_nil_r.
  - assert (Hr : renderable p = true).
    { unfold renderable. apply Nat.ltb_ge in Hshort. by apply Nat.leb_le. }
    intros s [H1 H2 H3 H4 H5 H6 H7 H8].
    unfold mbind, M_bind, modify, get_state. cbn [useSimplifiedRendering set_tracks].
    rewrite H1.
    destruct (mode && (10 <? length (trajectory_of p))%nat) eqn:Hm.
    + destruct (classify_simplified mode p Hr Hm) as [Hd Hs].
      cbn [createSimplifiedTrack push_object modify].
      split; cbn [useSimplifiedRendering hoveredTrack selectedTrack tracks
                  trackObjects animatedTracks set_trackObjects set_tracks];
        try done; rewrite ?filter_snoc, ?Hr, ?Hd, ?Hs;
        repeat case_decide; try done.
      * by rewrite map_app, H4.
      * rewrite !length_app, H5. cbn [length]. lia.
      * by rewrite H6, ?app_nil_r.
      * eapply Forall_impl; [exact H7|]. intros t Ht.
        by apply (animates_mesh_app s).
      * apply Forall_app. split; [done|]. constructor; [|done].
        repeat split; cbn; eauto.
    + destruct (classify_detailed mode p Hr Hm) as [Hd Hs].
      unfold createDetailedTrack, createDirectionArrow, push_object, modify, mbind, M_bind.
      cbn [trajectory]. fold (trajectory_of p). rewrite Hshort.
      split; cbn [useSimplifiedRendering hoveredTrack selectedTrack tracks
                  trackObjects animatedTracks set_trackObjects set_tracks
                  set_animatedTracks];
        try done; rewrite ?filter_snoc, ?Hr, ?Hd, ?Hs;
        repeat case_decide; try done.
      * by rewrite map_app, H4.
      * rewrite !length_app, H5. cbn [length]. lia.
      * by rewrite !length_app, H6.
      * apply Forall_app. split.
        -- eapply Forall_impl; [exact H7|]. intros t (o & Ho & Hk).
           exists o. split; [|done]. cbn. rewrite <- app_assoc.
           by apply lookup_app_l_Some.
        -- constructor; [|done]. unfold animates_mesh.
           cbn [mesh trackObjects set_trackObjects set_animatedTracks set_tracks].
           eexists. split; [rewrite <- app_assoc; by apply list_lookup_middle|].
           done.
      * rewrite <- app_assoc. apply Forall_app. split; [done|].
        constructor; [|constructor; [|done]]; repeat split; cbn; eauto.
Qed.

Lemma invariant_animation_field mode done s (f : State → State) :
  (useSimplifiedRendering (f s) = useSimplifiedRendering s) →
  (hoveredTrack (f s) = hoveredTrack s) →
  (selectedTrack (f s) = selectedTrack s) →
  (tracks (f s) = tracks s) → (trackObjects (f s) = trackObjects s) →
  (animatedTracks (f s) = animatedTracks s) →
  invariant mode done s → invariant mode done (f s).
Proof.
  intros E1 E2 E3 E4 E5 E6 [H1 H2 H3 H4 H5 H6 H7 H8].
  split; rewrite ?E1, ?E2, ?E3, ?E4, ?E5, ?E6; try done.
  eapply Forall_impl; [exact H7|]. intros t (o & Ho & Hk). exists o.
  by rewrite E5.
Qed.

Lemma invariant_setScalar mode done s r v :
  invariant mode done s →
  invariant mode done
    (set_trackObjects (alter (setScalar v) r (trackObjects s)) s).
Proof.
  intros [H1 H2 H3 H4 H5 H6 H7 H8]. split; cbn; try done.
  - by rewrite length_alter.
  - eapply Forall_impl; [exact H7|]. intros t (o & Ho & Hk & Ha).
    unfold animates_mesh. cbn. rewrite lookup_alter_Some, Ho. cbn.
    eexists. split; [done|]. by destruct (decide (r = mesh t)).
  - apply Forall_alter; [done|]. by intros o _ (? & ? & ?).
Qed.

Section AnimationInvariant.
Variable Math_pow : float → float → float.

Lemma animateFrame_invariant mode done now :
  hoare (invariant mode done) (animateFrame Math_pow now)
        (λ _, invariant mode done) (λ _, False).
Proof.
  unfold animateFrame.
  eapply hoare_bind; [apply hoare_get|]. intros s0.
  destruct (negb (isAnimating s0)).
  { by intros s [_ Hs]. }
  eapply hoare_bind.
  { apply (hoare_modify _ (invariant mode done)). intros s [_ Hs].
    by apply invariant_animation_field. }
  intros ?. eapply hoare_bind.
  { apply hoare_forEach. intros t. apply hoare_update. intros s Hs.
    by apply invariant_setScalar. }
  intros ?. eapply hoare_bind; [apply hoare_get|]. intros s1.
  destruct (PrimFloat.ltb _ _).
  - by intros s [_ Hs].
  - eapply hoare_bind.
    { apply (hoare_modify _ (invariant mode done)). intros s [_ Hs].
      by apply invariant_animation_field. }
    intros ?. apply hoare_emit.
Qed.

Lemma startAnimation_invariant mode done t0 t1 :
  hoare (invariant mode done) (startAnimation Math_pow t0 t1)
        (λ _, invariant mode done) (λ _, False).
Proof.
  unfold startAnimation.
  eapply hoare_bind; [apply hoare_get|]. intros s0.
  destruct (length (animatedTracks s0) =? 0)%nat.
  { by intros s [_ Hs]. }
  eapply hoare_bind.
  { apply (hoare_modify _ (invariant mode done)). intros s [_ Hs].
    by apply invariant_animation_field. }
  intros ?. eapply hoare_bind.
  { apply (hoare_modify _ (invariant mode done)). intros s Hs.
    by apply invariant_animation_field. }
  intros ?. eapply hoare_bind.
  { apply (hoare_modify _ (invariant mode done)). intros s Hs.
    by apply invariant_animation_field. }
  intros ?. eapply hoare_bind.
  { apply hoare_forEach. intros t. apply hoare_update. intros s Hs.
    by apply invariant_setScalar. }
  intros ?. apply animateFrame_invariant.
Qed.

(** [loadTracks] returns normally and establishes the build invariant for
    all the particles, whatever the instance held before. *)
Lemma loadTracks_invariant random t0 t1 particles vertex s :
  outcome (loadTracks Math_pow random t0 t1 particles vertex) s = Done () ∧
  invariant (maxTracks <? length particles)%nat particles
    (exec (loadTracks Math_pow random t0 t1 particles vertex) s).
Proof.
  set (mode := (maxTracks <? length particles)%nat).
  assert (H : hoare (λ _, True) (loadTracks Math_pow random t0 t1 particles vertex)
                (λ _, invariant mode particles) (λ _, False)).
  { unfold loadTracks. fold mode.
    eapply hoare_bind.
    { apply (hoare_modify _ (λ s, invariant (useSimplifiedRendering s) [] s)).
      intros s0 _. by split. }
    intros ?. eapply hoare_bind.
    { instantiate (1 := λ _, invariant mode []).
      destruct mode.
      - eapply hoare_bind; [apply hoare_emit|]. intros ?.
        apply hoare_modify. intros s0 [H1 H2 H3 H4 H5 H6 H7 H8]. by split.
      - apply hoare_modify. intros s0 [H1 H2 H3 H4 H5 H6 H7 H8]. by split. }
    intros ?. eapply hoare_bind.
    { apply (hoare_forEach_from (invariant mode) _ (λ _, False) particles).
      intros. apply createParticleTrack_invariant. }
    intros ?. apply startAnimation_invariant. }
  specialize (H s I). unfold outcome, exec.
  destruct (loadTracks Math_pow random t0 t1 particles vertex s) as [[[[]|e] s'] l];
    [done|done].
Qed.

End AnimationInvariant.

Section BuildFacts.
Variable Math_pow : float → float → float.


(** X2: the tracks [loadTracks] registers are, in order, those of the
    particles whose trajectory has at least two points; the others are
    dropped, so [getTrackCount] never exceeds the number of particles. *)
Theorem loadTracks_keeps_renderable_particles random t0 t1 particles vertex s :
  let s' := exec (loadTracks Math_pow random t0 t1 particles vertex) s in
  map particle (tracks s')
  = filter (λ p, (2 <=? length (default [] (p_trajectory p)))%nat = true) particles ∧
  getTrackCount s' ≤ length particles.
Proof.
  destruct (loadTracks_invariant Math_pow random t0 t1 particles vertex s)
    as [_ [_ _ _ H4 _ _ _ _]].
  cbn zeta. split; [exact H4|].
  unfold getTrackCount. rewrite <- (length_map particle), H4.
  apply length_filter.
Qed.

(** X3: [loadTracks] builds two scene objects (tube and arrow) and one
    animation entry per detailed track and one scene object per simplified
    track; for an event of at most 500 particles that is two objects and one
    animation entry per registered track. *)
Theorem loadTracks_object_counts random t0 t1 particles vertex s :
  let s' := exec (loadTracks Math_pow random t0 t1 particles vertex) s in
  let mode := (500 <? length particles)%nat in
  length (trackObjects s')
  = (2 * length (filter (λ p, detailed mode p = true) particles)
     + length (filter (λ p, simplified mode p = true) particles))%nat ∧
  length (animatedTracks s')
  = length (filter (λ p, detailed mode p = true) particles) ∧
  (length particles ≤ 500 →
   length (trackObjects s') = (2 * getTrackCount s')%nat ∧
   length (animatedTracks s') = getTrackCount s').
Proof.
  destruct (loadTracks_invariant Math_pow random t0 t1 particles vertex s)
    as [_ [_ _ _ H4 H5 H6 _ _]].
  cbn zeta. split; [exact H5|]. split; [exact H6|]. intros Hn.
  assert (Hmode : (maxTracks <? length particles)%nat = false).
  { apply Nat.ltb_ge. unfold maxTracks. lia. }
  rewrite Hmode in H5, H6.
  assert (Hs : filter (λ p, simplified false p = true) particles = []).
  { clear. induction particles as [|p l IH]; [done|].
    rewrite filter_cons, IH. rewrite decide_False; [done|].
    unfold simplified. by destruct (renderable p). }
  assert (Hd : filter (λ p, detailed false p = true) particles
               = filter (λ p, renderable p = true) particles).
  { clear. induction particles as [|p l IH]; [done|].
    rewrite !filter_cons, IH.
    assert (Hp : detailed false p = renderable p)
      by (unfold detailed; by destruct (renderable p)).
    by rewrite Hp. }
  rewrite Hs, Hd, <- H4 in H5. rewrite Hd, <- H4 in H6.
  rewrite length_map in H5, H6. cbn [length] in H5.
  unfold getTrackCount. lia.
Qed.

(** X4: after [loadTracks] every animation entry refers to a tube mesh of
    the scene, every scene object is visible and carries its particle and
    track data, and [getVisibleTrackCount] is the number of scene objects. *)
Theorem loadTracks_scene_is_fresh random t0 t1 particles vertex s :
  let s' := exec (loadTracks Math_pow random t0 t1 particles vertex) s in
  (∀ t, t ∈ animatedTracks s' →
     ∃ o, trackObjects s' !! mesh t = Some o ∧ kind o = Mesh ∧
          isArrow (userData o) = false) ∧
  (∀ o, o ∈ trackObjects s' →
     visible o = true ∧ is_Some (ud_particle (userData o)) ∧
     is_Some (ud_trackData (userData o))) ∧
  getVisibleTrackCount s' = length (trackObjects s').
Proof.
  destruct (loadTracks_invariant Math_pow random t0 t1 particles vertex s)
    as [_ [_ _ _ _ _ _ H7 H8]].
  cbn zeta. split; [|split].
  - intros t Ht. eapply Forall_forall in H7; eauto.
  - intros o Ho. eapply Forall_forall in H8; eauto.
  - unfold getVisibleTrackCount.
    induction H8 as [|o l [Hv _] _ IH]; [done|].
    rewrite filter_cons. rewrite decide_True by done. cbn. by rewrite IH.
Qed.

End BuildFacts.

(** The loop of [createSimplifiedTrack] visits the indices [i], [i + step],
    ... below the length, as long as the fuel allows. *)
Lemma stride_loop_lookup traj step :
  (1 ≤ step)%nat →
  ∀ fuel i k, (length traj ≤ fuel + i)%nat →
    stride_loop fuel traj step i !! k = traj !! (i + k * step)%nat.
Proof.
  intros Hstep. induction fuel as [|fuel IH]; intros i k Hf.
  - cbn. symmetry. apply lookup_ge_None. nia.
  - cbn [stride_loop]. destruct (traj !! i) as [pt|] eqn:Hi.
    + destruct k as [|k]; cbn.
      * by rewrite Nat.add_0_r.
      * rewrite IH by lia. f_equal. lia.
    + rewrite lookup_nil. symmetry. apply lookup_ge_None.
      apply lookup_ge_None in Hi. nia.
Qed.

Lemma stride_loop_length traj step :
  (1 ≤ step)%nat →
  length (stride_loop (length traj) traj step 0)
  = ((length traj + step - 1) / step)%nat.
Proof.
  intros Hstep.
  set (l := stride_loop (length traj) traj step 0).
  set (c := ((length traj + step - 1) / step)%nat).
  assert (Hl : ∀ k, l !! k = traj !! (k * step)%nat).
  { intros k. unfold l. rewrite stride_loop_lookup by lia. by f_equal. }
  assert (Hc1 : ∀ k, (k * step < length traj)%nat ↔ (k < c)%nat).
  { intros k. unfold c.
    pose proof (Nat.div_mod_eq (length traj + step - 1) step) as Hdm.
    pose proof (Nat.mod_upper_bound (length traj + step - 1) step ltac:(lia)).
    split; intros Hk; nia. }
  destruct (Nat.lt_trichotomy (length l) c) as [Hlt|[Heq|Hgt]]; [|done|].
  - assert (Hn : l !! length l = None) by (by apply lookup_ge_None).
    rewrite Hl in Hn. apply lookup_ge_None in Hn.
    apply Hc1 in Hlt. lia.
  - destruct (lookup_lt_is_Some_2 l c Hgt) as [x Hx].
    rewrite Hl in Hx. apply lookup_lt_Some in Hx. apply Hc1 in Hx. lia.
Qed.

(** X5: the poly-line of a simplified track samples a non-empty trajectory
    of [n] points every [step = max 1 (n / 8)] points from the first one and
    then repeats the last point: it has one point more than the [n / step]
    (rounded up) samples, at most 16 in all. *)
Theorem simplifiedPoints_samples (traj : list Vec3) :
  let n := length traj in
  let step := Nat.max 1 (n / 8) in
  let count := ((n + step - 1) / step)%nat in
  (1 ≤ n)%nat →
  length (simplifiedPoints traj) = (count + 1)%nat ∧
  (count ≤ 15)%nat ∧
  (∀ k, (k < count)%nat → simplifiedPoints traj !! k = traj !! (k * step)%nat) ∧
  simplifiedPoints traj !! count = traj !! (n - 1)%nat ∧
  simplifiedPoints traj !! 0%nat = traj !! 0%nat.
Proof.
  intros n step count Hn.
  assert (Hstep : (1 ≤ step)%nat) by (unfold step; lia).
  pose proof (stride_loop_length traj step Hstep) as Hlen. fold n count in Hlen.
  assert (Hcount : (1 ≤ count)%nat).
  { unfold count.
    pose proof (Nat.div_mod_eq (n + step - 1) step) as Hdm.
    pose proof (Nat.mod_upper_bound (n + step - 1) step ltac:(lia)). nia. }
  destruct (lookup_lt_is_Some_2 traj (n - 1)) as [lastPoint Hlast]; [lia|].
  assert (Hsp : simplifiedPoints traj
                = stride_loop n traj step 0 ++ [lastPoint]).
  { unfold simplifiedPoints. fold n step. rewrite Hlen.
    replace (0 <? count)%nat with true by (symmetry; apply Nat.ltb_lt; lia).
    by rewrite Hlast. }
  rewrite Hsp. split; [|split; [|split; [|split]]].
  - rewrite length_app, Hlen. cbn. lia.
  - pose proof (Nat.div_mod_eq (n + step - 1) step) as Hdm. fold count in Hdm.
    pose proof (Nat.mod_upper_bound (n + step - 1) step ltac:(lia)) as Hmod.
    pose proof (Nat.div_mod_eq n 8) as Hdm8.
    pose proof (Nat.mod_upper_bound n 8 ltac:(lia)) as Hmod8.
    destruct (le_gt_dec count 15) as [|Hgt]; [done|].
    assert (H16 : (16 * step ≤ step * count)%nat) by nia.
    assert (Hs8 : (step = 1 ∨ step = n / 8)%nat) by (unfold step; lia).
    destruct Hs8 as [Hs1|Hs8]; [|lia].
    assert (n / 8 ≤ 1)%nat by (unfold step in Hs1; lia). lia.
  - intros k Hk. rewrite lookup_app_l by lia.
    rewrite stride_loop_lookup by lia. by f_equal.
  - rewrite <- Hlen at 1. rewrite list_lookup_middle by done. by rewrite Hlast.
  - rewrite lookup_app_l by lia. rewrite stride_loop_lookup by lia. by f_equal.
Qed.

Lemma simplifiedPoints_samples_witness :
  (1 ≤ length (Scene.line 20))%nat ∧
  length (simplifiedPoints (Scene.line 20)) = 11%nat.
Proof.
  assert (H : (1 ≤ length (Scene.line 20))%nat) by (vm_compute; lia).
  split; [exact H|].
  destruct (simplifiedPoints_samples (Scene.line 20) H) as [Hl _].
  rewrite Hl. vm_compute. reflexivity.
Defined.


Lemma lookup_call_fmap (f : TrackObject → TrackObject) s i :
  trackObjects (set_trackObjects (map f (trackObjects s)) s) !! i
  = f <$> trackObjects s !! i.
Proof. cbn. apply list_lookup_fmap. Qed.

Lemma filterByType_lookup types s i :
  trackObjects (filterByType types s) !! i
  = (λ o, match ud_particle (userData o) with
          | Some p => set_visible (type_passes types p) o
          | None => o
          end) <$> trackObjects s !! i.
Proof. apply lookup_call_fmap. Qed.

Lemma filterByEnergy_lookup lo hi s i :
  trackObjects (filterByEnergy lo hi s) !! i
  = (λ o, match ud_particle (userData o) with
          | Some p => set_visible (visible o && energy_passes lo hi p) o
          | None => o
          end) <$> trackObjects s !! i.
Proof. apply lookup_call_fmap. Qed.

Lemma filterByPt_lookup lo hi s i :
  trackObjects (filterByPt lo hi s) !! i
  = (λ o, match ud_trackData (userData o) with
          | Some td => set_visible (visible o && pt_passes lo hi td) o
          | None => o
          end) <$> trackObjects s !! i.
Proof. apply lookup_call_fmap. Qed.

(** X6: a filter call changes nothing of the instance but the [visible]
    flags of the scene objects: the number and the order of the objects and
    every other field of each object are kept. *)
Theorem filters_change_visibility_only (c : FilterCall) (s : State) :
  call c s = set_trackObjects (trackObjects (call c s)) s ∧
  length (trackObjects (call c s)) = length (trackObjects s) ∧
  ∀ i o, trackObjects s !! i = Some o →
    ∃ v, trackObjects (call c s) !! i = Some (set_visible v o).
Proof.
  split; [by destruct c|]. split; [apply call_length|].
  intros i o Ho. destruct c as [ts|lo hi|lo hi]; cbn [call].
  - rewrite filterByType_lookup, Ho. cbn.
    destruct (ud_particle (userData o)); [by eexists|].
    exists (visible o). by destruct o.
  - rewrite filterByEnergy_lookup, Ho. cbn.
    destruct (ud_particle (userData o)); [by eexists|].
    exists (visible o). by destruct o.
  - rewrite filterByPt_lookup, Ho. cbn.
    destruct (ud_trackData (userData o)); [by eexists|].
    exists (visible o). by destruct o.
Qed.

(** X7: after [updateFilters] an object that carries a particle and its
    track data is visible exactly when the particle passes the type test,
    the energy range and the pt range, with the bounds defaulted to 0 and to
    infinity when the parsed input is 0 or NaN; what the flag was before
    does not matter. *)
Theorem updateFilters_is_conjunction types minE maxE minPt maxPt s i o p td :
  trackObjects s !! i = Some o →
  ud_particle (userData o) = Some p → ud_trackData (userData o) = Some td →
  trackObjects (updateFilters types minE maxE minPt maxPt s) !! i
  = Some (set_visible
            (type_passes types p
             && energy_passes (or_default minE 0) (or_default maxE infinity) p
             && pt_passes (or_default minPt 0) (or_default maxPt infinity) td)
            o).
Proof.
  intros Ho Hp Htd. unfold updateFilters.
  rewrite filterByPt_lookup, filterByEnergy_lookup, filterByType_lookup, Ho.
  cbn. rewrite Hp. cbn. rewrite Hp. cbn. by rewrite Htd.
Qed.

Lemma updateFilters_is_conjunction_witness :
  let s := exec (loadTracks Samples.flat_pow (λ _, 0%float) 0 0
                   [Scene.electron 10 3] Scene.origin) initial in
  visible <$> trackObjects (updateFilters ["muon"] nan nan nan nan s) !! 0%nat
  = Some false.
Proof.
  cbn zeta.
  set (s := exec (loadTracks Samples.flat_pow (λ _, 0%float) 0 0
                    [Scene.electron 10 3] Scene.origin) initial).
  assert (H : ∃ o p td, trackObjects s !! 0%nat = Some o ∧
                ud_particle (userData o) = Some p ∧
                ud_trackData (userData o) = Some td ∧ p_type p = "electron").
  { vm_compute. eexists _, _, _. repeat split. }
  destruct H as (o & p & td & Ho & Hp & Htd & Hty).
  rewrite (updateFilters_is_conjunction ["muon"] nan nan nan nan s 0 o p td Ho Hp Htd).
  cbn. unfold type_passes. rewrite Hty. reflexivity.
Defined.

Lemma set_trackObjects_map2 (f g : TrackObject → TrackObject) s :
  set_trackObjects
    (map f (trackObjects (set_trackObjects (map g (trackObjects s)) s)))
    (set_trackObjects (map g (trackObjects s)) s)
  = set_trackObjects (map (λ o, f (g o)) (trackObjects s)) s.
Proof. destruct s; cbn. by rewrite map_map. Qed.

Lemma set_trackObjects_ext (f g : TrackObject → TrackObject) s :
  (∀ o, f o = g o) →
  set_trackObjects (map f (trackObjects s)) s
  = set_trackObjects (map g (trackObjects s)) s.
Proof. intros H. by rewrite (map_ext _ _ H). Qed.

(** X8: [filterByEnergy] and [filterByPt] commute, and applying either of
    them twice with the same bounds is the same as applying it once. *)
Theorem range_filters_commute_and_repeat loE hiE loPt hiPt s :
  filterByEnergy loE hiE (filterByPt loPt hiPt s)
  = filterByPt loPt hiPt (filterByEnergy loE hiE s) ∧
  filterByEnergy loE hiE (filterByEnergy loE hiE s) = filterByEnergy loE hiE s ∧
  filterByPt loPt hiPt (filterByPt loPt hiPt s) = filterByPt loPt hiPt s.
Proof.
  unfold filterByEnergy, filterByPt. rewrite !set_trackObjects_map2.
  repeat split; apply set_trackObjects_ext;
    intros [k g m [up ut oc oo ia] v sc]; cbn;
    destruct up, ut; cbn; try done;
    repeat match goal with
           | |- context [PrimFloat.leb ?a ?b] => destruct (PrimFloat.leb a b)
           end;
    by destruct v.
Qed.

Lemma filterByType_nil_count s :
  Forall (λ o, is_Some (ud_particle (userData o))) (trackObjects s) →
  getVisibleTrackCount (filterByType [] s) = length (trackObjects s).
Proof.
  intros H. unfold getVisibleTrackCount, filterByType.
  cbn [trackObjects set_trackObjects].
  induction H as [|o l [p Hp] _ IH]; [done|].
  cbn [map]. rewrite Hp.
  rewrite filter_cons, decide_True by done. cbn [length]. by f_equal.
Qed.

Lemma call_keeps_particles c s :
  Forall (λ o, is_Some (ud_particle (userData o))) (trackObjects s) →
  Forall (λ o, is_Some (ud_particle (userData o))) (trackObjects (call c s)).
Proof.
  intros H. destruct c; cbn [call]; unfold filterByType, filterByEnergy, filterByPt;
    cbn [trackObjects set_trackObjects]; apply Forall_map;
    (eapply Forall_impl; [exact H|]); intros o Ho; cbn beta;
    [destruct (ud_particle (userData o))
    |destruct (ud_particle (userData o))
    |destruct (ud_trackData (userData o))]; done.
Qed.

Lemma calls_keep_particles cs s :
  Forall (λ o, is_Some (ud_particle (userData o))) (trackObjects s) →
  Forall (λ o, is_Some (ud_particle (userData o))) (trackObjects (calls cs s)).
Proof.
  revert s. induction cs as [|c cs IH]; intros s H; [done|].
  cbn [calls foldl]. apply IH. by apply call_keeps_particles.
Qed.

Lemma calls_length cs s :
  length (trackObjects (calls cs s)) = length (trackObjects s).
Proof.
  revert s. induction cs as [|c cs IH]; intros s; [done|].
  cbn [calls foldl]. fold (calls cs (call c s)). by rewrite IH, call_length.
Qed.

(** X9: on a scene built by [loadTracks], whatever filter calls were made
    since, [filterByType] with an empty list makes every scene object
    visible again. *)
Theorem empty_type_filter_shows_all (Math_pow : float → float → float)
    random t0 t1 particles vertex s0 (cs : list FilterCall) :
  let loaded := exec (loadTracks Math_pow random t0 t1 particles vertex) s0 in
  getVisibleTrackCount (filterByType [] (calls cs loaded))
  = length (trackObjects loaded).
Proof.
  cbn zeta.
  destruct (loadTracks_invariant Math_pow random t0 t1 particles vertex s0)
    as [_ [_ _ _ _ _ _ _ H8]].
  rewrite filterByType_nil_count.
  - apply calls_length.
  - apply calls_keep_particles. eapply Forall_impl; [exact H8|].
    by intros o (_ & Hp & _).
Qed.


Lemma material_change_color h : material_change (color_setHex h).
Proof. by intros []. Qed.
Lemma material_change_color_orig :
  material_change (λ o, color_setHex (originalColor (userData o)) o).
Proof. by intros []. Qed.
Lemma material_change_opacity v : material_change (set_opacity v).
Proof. by intros []. Qed.
Lemma material_change_opacity_fn (g : TrackObject → option float) :
  material_change (λ o, set_opacity (g o) o).
Proof. by intros []. Qed.
Lemma material_change_emissive h : material_change (set_emissive h).
Proof. by intros []. Qed.

Section MaterialOnly.
Variable P : State → Prop.
Hypothesis P_material : ∀ s r f, material_change f → P s →
  P (set_trackObjects (alter f r (trackObjects s)) s).
Hypothesis P_hovered : ∀ s v, P s → P (set_hoveredTrack v s).
Hypothesis P_selected : ∀ s v, P s → P (set_selectedTrack v s).

Lemma hoare_emissive_material r h :
  hoare P (emissive_setHex r h) (λ _, P) P.
Proof.
  apply hoare_emissive_setHex_with. intros s Hs.
  apply P_material; [apply material_change_emissive|done].
Qed.

Lemma hoare_reset_material r : hoare P (resetTrackAppearance r) (λ _, P) P.
Proof.
  unfold resetTrackAppearance.
  eapply hoare_bind.
  { apply hoare_update. intros s Hs.
    apply P_material; [apply material_change_color_orig|done]. }
  intros ?. eapply hoare_bind.
  { apply hoare_update. intros s Hs.
    apply P_material; [apply material_change_opacity_fn|done]. }
  intros ?. apply hoare_emissive_material.
Qed.

Lemma hoare_highlight_material r b : hoare P (highlightTrack r b) (λ _, P) P.
Proof.
  unfold highlightTrack. destruct b.
  - eapply hoare_bind.
    { apply hoare_update. intros s Hs.
      apply P_material; [apply material_change_color|done]. }
    intros ?. eapply hoare_bind.
    { apply hoare_update. intros s Hs.
      apply P_material; [apply material_change_opacity|done]. }
    intros ?. apply hoare_emissive_material.
  - eapply hoare_bind.
    { apply hoare_update. intros s Hs.
      apply P_material; [apply material_change_color|done]. }
    intros ?. apply hoare_update. intros s Hs.
    apply P_material; [apply material_change_opacity_fn|done].
Qed.

Lemma hoare_dispatch_material e : hoare P (dispatch e) (λ _, P) P.
Proof.
  destruct e as [mouse intersects|mouse client intersects]; cbn [dispatch].
  - unfold handleMouseMove.
    eapply hoare_bind; [apply hoare_get|]. intros s0.
    eapply (hoare_bind _ _ (λ _, P)).
    { destruct (hoveredTrack s0); [|by intros s [_ Hs]].
      destruct (negb _); [|by intros s [_ Hs]].
      eapply hoare_weaken; [apply hoare_reset_material| |done|done].
      by intros s [_ Hs]. }
    intros ?. destruct intersects as [|hit rest].
    + eapply hoare_bind; [apply (hoare_modify P P); auto|]. intros ?.
      eapply hoare_bind; [apply (hoare_emit P)|]. intros ?. apply hoare_emit.
    + eapply hoare_bind; [apply (hoare_modify P P); auto|]. intros ?.
      eapply hoare_bind; [apply hoare_highlight_material|]. intros ?.
      eapply hoare_bind; [apply (hoare_emit P)|]. intros ?.
      eapply hoare_bind; [by apply hoare_deref|]. intros o.
      by intros s [_ Hs].
  - unfold handleClick.
    eapply hoare_bind; [apply hoare_get|]. intros s0.
    eapply (hoare_bind _ _ (λ _, P)).
    { destruct (selectedTrack s0); [|by intros s [_ Hs]].
      eapply hoare_weaken; [apply hoare_reset_material| |done|done].
      by intros s [_ Hs]. }
    intros ?. destruct intersects as [|hit rest].
    + eapply hoare_bind; [apply (hoare_modify P P); auto|]. intros ?.
      apply hoare_emit.
    + eapply hoare_bind; [apply (hoare_modify P P); auto|]. intros ?.
      eapply hoare_bind; [apply hoare_highlight_material|]. intros ?.
      eapply hoare_bind; [by apply hoare_deref|]. intros o.
      by intros s [_ Hs].
Qed.

End MaterialOnly.

Lemma same_scene_refl s : same_scene s s.
Proof.
  repeat split. intros i o Ho. exists (material o). rewrite Ho. by destruct o.
Qed.

(** X10: mouse moves and clicks, in any number and order and whether or not
    a handler raises, change nothing but the hovered and selected references
    and the materials of the scene objects: tracks, animation entries, the
    number of objects, their geometry, user data, visibility and scale are
    kept. *)
Theorem pointer_events_change_materials_only (es : list PointerEvent) (s : State) :
  same_scene s (dispatch_all es s).
Proof.
  induction es as [|e es IH] using rev_ind; [apply same_scene_refl|].
  unfold dispatch_all. rewrite foldl_app. cbn [foldl]. fold (dispatch_all es s).
  apply (hoare_exec (same_scene s) (dispatch e) (λ _, same_scene s)
           (same_scene s) (same_scene s)); [|done|done|done].
  apply hoare_dispatch_material.
  - intros s' r f Hf (H1 & H2 & H3 & H4 & H5 & H6).
    repeat split; try done; cbn.
    + by rewrite length_alter.
    + intros i o Ho. destruct (H6 i o Ho) as [m Hm].
      rewrite lookup_alter_Some, Hm. cbn.
      destruct (decide (r = i)) as [->|]; cbn.
      * rewrite Hf. exists (material (f (set_material m o))). by destruct o.
      * by exists m.
  - by intros s' v (H1 & H2 & H3 & H4 & H5 & H6).
  - by intros s' v (H1 & H2 & H3 & H4 & H5 & H6).
Qed.


Lemma valid_stable r : stable (λ _, True) (λ s, is_Some (trackObjects s !! r)).
Proof.
  intros s r' f _ [o Ho]. cbn. rewrite lookup_alter_Some, Ho. by eexists.
Qed.

(** X11: a mouse move over at least one object makes the nearest hit the
    hovered track, leaves the selection alone and gives the hit object the
    colour white and the opacity [min (originalOpacity + 0.3) 1], provided the
    hit refers to a scene object and the previously hovered track can be
    reset. *)
Theorem hover_highlights_nearest_hit mouse hit rest s :
  is_Some (trackObjects s !! object hit) →
  hover_resettable s →
  let s' := exec (handleMouseMove mouse (hit :: rest)) s in
  outcome (handleMouseMove mouse (hit :: rest)) s = Done () ∧
  hoveredTrack s' = Some (object hit) ∧
  selectedTrack s' = selectedTrack s ∧
  object_satisfies hover_highlight (object hit) s'.
Proof.
  intros Hvalid Hres.
  set (A := object hit).
  set (V := λ s' : State, is_Some (trackObjects s' !! A) ∧
                          selectedTrack s' = selectedTrack s).
  set (Post := λ s' : State, hoveredTrack s' = Some A ∧
                 selectedTrack s' = selectedTrack s ∧
                 object_satisfies hover_highlight A s').
  assert (HV : stable (λ _, True) V).
  { intros s' r f _ [Hv Hs]. split; [by apply valid_stable|done]. }
  assert (H : hoare (λ s', s' = s) (handleMouseMove mouse (hit :: rest))
                (λ _, Post) (λ _, False)).
  { unfold handleMouseMove.
    eapply hoare_bind; [apply hoare_get|]. intros s0.
    eapply (hoare_bind _ _ (λ _, V)).
    { intros s' [-> ->]. destruct (hoveredTrack s) as [h|] eqn:Hh; [|done].
      destruct (decide (selectedTrack s = Some h)) as [Hs|Hs].
      - by rewrite bool_decide_eq_true_2.
      - rewrite bool_decide_eq_false_2 by done. cbn [negb].
        pose proof (hoare_reset_mesh V h HV s
                      (conj (conj Hvalid eq_refl) (Hres h Hh Hs))) as Hr.
        by destruct (resetTrackAppearance h s) as [[[a|e] s1] l1]. }
    intros ?. eapply (hoare_bind _ _ (λ _ s', V s' ∧ hoveredTrack s' = Some A)).
    { apply hoare_modify. by intros s' [Hv Hs]. }
    intros ?. eapply (hoare_bind _ _ (λ _, Post)).
    { unfold highlightTrack.
      eapply (hoare_bind _ _
                (λ _ s', hoveredTrack s' = Some A ∧
                   selectedTrack s' = selectedTrack s ∧
                   object_satisfies
                     (λ o, color (material o) = Some 0xFFFFFF%Z) A s')).
      { apply hoare_update. intros s' [[Hv Hs] Hh].
        split; [done|]. split; [done|]. by apply object_satisfies_set. }
      intros ?. apply hoare_update. intros s' (Hh & Hs & o & Ho & Hc).
      split; [done|]. split; [done|]. unfold object_satisfies. cbn.
      rewrite lookup_alter_Some, Ho. cbn. eexists; split; [done|].
      rewrite decide_True by done.
      destruct o as [k g [c op em] ud v sc]; cbn in *. done. }
    intros ?. eapply hoare_bind; [apply (hoare_emit Post)|]. intros ?.
    eapply (hoare_bind _ _ (λ _, Post)).
    { intros s' HP. unfold deref, mbind, M_bind, get_state.
      destruct HP as (Hh & Hs & o & Ho & Hc). fold A. rewrite Ho. cbn.
      split; [done|]. split; [done|]. by exists o. }
    intros o. apply hoare_emit. }
  specialize (H s eq_refl). cbn zeta. unfold outcome, exec.
  destruct (handleMouseMove mouse (hit :: rest) s) as [[[[]|e] s1] l1];
    [|done]. cbn. by destruct H as (? & ? & ?).
Qed.

Lemma hover_highlights_nearest_hit_witness :
  let s := exec (handleMouseMove Scene.pointer [Scene.hit 2]) Scene.two_tracks in
  hoveredTrack s = Some 2%nat ∧ object_satisfies hover_highlight 2 s.
Proof.
  assert (Hv : is_Some (trackObjects Scene.two_tracks !! object (Scene.hit 2)))
    by (vm_compute; eauto).
  assert (Hr : hover_resettable Scene.two_tracks).
  { intros h Hh. vm_compute in Hh. discriminate. }
  destruct (hover_highlights_nearest_hit Scene.pointer (Scene.hit 2) []
              Scene.two_tracks Hv Hr) as (_ & H1 & _ & H2).
  by split.
Defined.




Lemma forEach_update_run (F : AnimatedTrack → TrackObject → TrackObject) l :
  ∀ i s,
    forEach_from (λ t _, update (mesh t) (F t)) i l s
    = (Done (),
       set_trackObjects
         (foldl (λ objs t, alter (F t) (mesh t) objs) (trackObjects s) l) s,
       []).
Proof.
  induction l as [|t l IH]; intros i s; cbn [forEach_from foldl].
  - by destruct s.
  - unfold mbind, M_bind. cbn [update modify]. rewrite IH. cbn. by destruct s.
Qed.

Lemma rescaled_length g l objs : length (rescaled g l objs) = length objs.
Proof.
  revert objs. induction l as [|t l IH]; intros objs; [done|].
  cbn [rescaled foldl].
  fold (rescaled g l (alter (setScalar (g t)) (mesh t) objs)).
  rewrite IH. apply length_alter.
Qed.

Lemma rescaled_other g l objs i :
  i ∉ map mesh l → rescaled g l objs !! i = objs !! i.
Proof.
  revert objs. induction l as [|t l IH]; intros objs Hi; [done|].
  cbn [rescaled foldl]. cbn in Hi. apply not_elem_of_cons in Hi as [Hne Hi].
  fold (rescaled g l (alter (setScalar (g t)) (mesh t) objs)).
  rewrite IH by done. by apply list_lookup_alter_ne.
Qed.

Lemma rescaled_at g l objs t o :
  NoDup (map mesh l) → t ∈ l → objs !! mesh t = Some o →
  rescaled g l objs !! mesh t = Some (setScalar (g t) o).
Proof.
  revert objs. induction l as [|t' l IH]; intros objs Hnd Ht Ho.
  - by apply elem_of_nil in Ht.
  - cbn in Hnd. apply NoDup_cons in Hnd as [Hnotin Hnd].
    cbn [rescaled foldl].
    fold (rescaled g l (alter (setScalar (g t')) (mesh t') objs)).
    apply elem_of_cons in Ht as [->|Ht].
    + rewrite rescaled_other by done.
      rewrite list_lookup_alter_eq, Ho. done.
    + assert (Hne : mesh t' ≠ mesh t).
      { intros Heq. apply Hnotin. rewrite Heq. by apply list_elem_of_fmap_2. }
      apply IH; [done|done|]. by rewrite list_lookup_alter_ne.
Qed.

Section Tick.
Variable Math_pow : float → float → float.

Lemma animateFrame_run now s :
  isAnimating s = true →
  let elapsed := (now - animationStartTime s)%float in
  let progress := Math_min (elapsed / animationDuration) 1 in
  let objs :=
    rescaled (λ t, easeOutCubic Math_pow (localProgress elapsed t))
      (animatedTracks s) (trackObjects s) in
  let s1 := set_trackObjects objs (set_animationProgress progress s) in
  animateFrame Math_pow now s
  = if PrimFloat.ltb progress 1
    then (Done (), s1, [RequestAnimationFrame])
    else (Done (), set_isAnimating false s1,
          [DispatchEvent trackAnimationComplete]).
Proof.
  intros Ha. cbn zeta. unfold animateFrame, forEach.
  unfold mbind at 1, M_bind at 1. cbn [get_state]. rewrite Ha. cbn [negb].
  unfold mbind at 1, M_bind at 1. cbn [modify].
  unfold mbind at 1, M_bind at 1. rewrite forEach_update_run.
  unfold mbind at 1, M_bind at 1. cbn [get_state].
  cbn [animationProgress set_trackObjects set_animationProgress trackObjects
       animationStartTime].
  unfold rescaled.
  destruct (PrimFloat.ltb _ 1); destruct s; reflexivity.
Qed.

Lemma animateFrame_scene now s :
  isAnimating s = true →
  let s' := exec (animateFrame Math_pow now) s in
  outcome (animateFrame Math_pow now) s = Done () ∧
  animatedTracks s' = animatedTracks s ∧
  trackObjects s'
  = rescaled (λ t, easeOutCubic Math_pow
                     (localProgress (now - animationStartTime s) t))
      (animatedTracks s) (trackObjects s).
Proof.
  intros Ha. cbn zeta. unfold exec, outcome.
  rewrite (animateFrame_run now s Ha). cbn zeta.
  by destruct (PrimFloat.ltb _ 1).
Qed.

(** X13: one frame of a running animation, drawn at time [now], sets the
    scale of the mesh of every animation entry to the eased local progress of
    that entry, leaves every other object alone, records the global progress
    [min (elapsed / 2000) 1], and either requests another frame (progress
    below 1) or stops and announces [trackAnimationComplete]. *)
Theorem tick_rescales_animated_tracks now s :
  isAnimating s = true →
  NoDup (map mesh (animatedTracks s)) →
  let s' := exec (animateFrame Math_pow now) s in
  let elapsed := (now - animationStartTime s)%float in
  let progress := Math_min (elapsed / 2000) 1 in
  animatedTracks s' = animatedTracks s ∧
  length (trackObjects s') = length (trackObjects s) ∧
  (∀ t o, t ∈ animatedTracks s → trackObjects s !! mesh t = Some o →
     trackObjects s' !! mesh t
     = Some (setScalar (easeOutCubic Math_pow (localProgress elapsed t)) o)) ∧
  (∀ i, i ∉ map mesh (animatedTracks s) →
     trackObjects s' !! i = trackObjects s !! i) ∧
  animationProgress s' = progress ∧
  isAnimating s' = PrimFloat.ltb progress 1 ∧
  effects (animateFrame Math_pow now) s
  = [if PrimFloat.ltb progress 1 then RequestAnimationFrame
     else DispatchEvent trackAnimationComplete].
Proof.
  intros Ha Hnd. cbn zeta. unfold exec, effects.
  rewrite (animateFrame_run now s Ha). cbn zeta.
  change animationDuration with 2000%float.
  destruct (PrimFloat.ltb _ 1) eqn:Hp; cbn;
    (repeat split; try done;
     [apply rescaled_length
     |intros t o Ht Ho; by apply rescaled_at
     |intros i Hi; by apply rescaled_other]).
Qed.

End Tick.

Lemma tick_rescales_animated_tracks_witness :
  let s := exec (loadTracks Samples.flat_pow (λ _, 0.6%float) 1000 1000
                   [Scene.electron 10 3] Scene.origin) initial in
  isAnimating s = true ∧
  isAnimating (exec (animateFrame Samples.flat_pow 2000) s) = true.
Proof.
  cbn zeta.
  set (s := exec (loadTracks Samples.flat_pow (λ _, 0.6%float) 1000 1000
                    [Scene.electron 10 3] Scene.origin) initial).
  assert (Ha : isAnimating s = true) by (vm_compute; reflexivity).
  assert (Hnd : NoDup (map mesh (animatedTracks s))).
  { vm_compute. repeat constructor. intros H. inversion H. }
  split; [exact Ha|].
  destruct (tick_rescales_animated_tracks Samples.flat_pow 2000 s Ha Hnd)
    as (_ & _ & _ & _ & _ & H & _).
  rewrite H. vm_compute. reflexivity.
Defined.


Lemma unscaled_set_tracks v s : unscaled s → unscaled (set_tracks v s).
Proof. done. Qed.

Lemma unscaled_push o s :
  scale o = 1%float → unscaled s →
  unscaled (set_trackObjects (trackObjects s ++ [o]) s).
Proof.
  intros Ho (Hnd & Hlt & Hone). split; [done|]. split.
  - eapply Forall_impl; [exact Hlt|]. intros t Ht.
    cbn [trackObjects set_trackObjects]. rewrite length_app. cbn [length]. cbn beta in Ht. lia.
  - apply Forall_app. split; [done|]. by constructor.
Qed.

Lemma unscaled_register o a s :
  scale o = 1%float → mesh a = length (trackObjects s) → unscaled s →
  unscaled (set_trackObjects (trackObjects s ++ [o])
              (set_animatedTracks (animatedTracks s ++ [a]) s)).
Proof.
  intros Ho Ha (Hnd & Hlt & Hone). split; [|split].
  - cbn [animatedTracks set_trackObjects set_animatedTracks].
    rewrite map_app. cbn [map]. apply NoDup_app. split; [done|].
    split; [|apply NoDup_singleton].
    intros j Hj ->%list_elem_of_singleton.
    apply list_elem_of_fmap in Hj as (t & Ht & Hin).
    eapply Forall_forall in Hlt; [|exact Hin]. lia.
  - cbn [animatedTracks trackObjects set_trackObjects set_animatedTracks].
    apply Forall_app. split.
    + eapply Forall_impl; [exact Hlt|]. intros t Ht. rewrite length_app. cbn [length]. cbn beta in Ht. lia.
    + constructor; [|done]. rewrite length_app, Ha. cbn. lia.
  - cbn [animatedTracks trackObjects set_trackObjects set_animatedTracks].
    apply Forall_app. split; [done|]. by constructor.
Qed.

Lemma unscaled_createParticleTrack random p vertex i :
  hoare unscaled (createParticleTrack random p vertex i) (λ _, unscaled)
        (λ _, False).
Proof.
  unfold createParticleTrack.
  destruct (length _ <? 2)%nat; [by intros s Hs|].
  eapply hoare_bind; [apply hoare_modify; intros s; apply unscaled_set_tracks|].
  intros ?. eapply hoare_bind; [apply hoare_get|]. intros s1.
  destruct (useSimplifiedRendering s1 && _).
  - apply hoare_push. intros s [_ Hs]. by apply unscaled_push.
  - unfold createDetailedTrack.
    intros s [_ Hs]. unfold mbind, M_bind, push_object, modify.
    cbn [trackObjects set_animatedTracks].
    match goal with
    | |- context [set_trackObjects (trackObjects s ++ [?o])
                    (set_animatedTracks (animatedTracks s ++ [?a]) s)] =>
        pose proof (unscaled_register o a s eq_refl eq_refl Hs) as Hr
    end.
    unfold createDirectionArrow. destruct (_ <? 2)%nat; [exact Hr|].
    unfold push_object, modify. by apply unscaled_push.
Qed.


Section InitialScales.
Variable Math_pow : float → float → float.

Lemma startAnimation_eased t0 t1 :
  hoare unscaled (startAnimation Math_pow t0 t1) (λ _, eased Math_pow t0 t1)
        (λ _, False).
Proof.
  intros s (Hnd & Hlt & Hone). unfold startAnimation, forEach.
  unfold mbind at 1, M_bind at 1. cbn [get_state].
  destruct (length (animatedTracks s) =? 0)%nat eqn:Hlen.
  - cbn. apply Nat.eqb_eq, length_zero_iff_nil in Hlen.
    unfold eased. rewrite Hlen. split; [constructor|]. split.
    + intros i o Ho _. exact (Forall_lookup_1 _ _ _ _ Hone Ho).
    + intros t o Ht. by apply elem_of_nil in Ht.
  - unfold mbind at 1, M_bind at 1. cbn [modify].
    unfold mbind at 1, M_bind at 1. cbn [modify].
    unfold mbind at 1, M_bind at 1. cbn [modify].
    unfold mbind at 1, M_bind at 1. rewrite forEach_update_run.
    cbn [trackObjects animatedTracks set_animationProgress
         set_animationStartTime set_isAnimating].
    fold (rescaled (λ _, 0%float) (animatedTracks s) (trackObjects s)).
    set (s0 := set_trackObjects _ _).
    assert (Ha0 : isAnimating s0 = true) by done.
    assert (Hnd0 : NoDup (map mesh (animatedTracks s0))) by done.
    destruct (animateFrame_scene Math_pow t1 s0 Ha0) as (Hdone & Han & Hobjs).
    unfold outcome, exec in *.
    destruct (animateFrame Math_pow t1 s0) as [[o' s'] l'].
    cbn [fst snd] in Hdone, Han, Hobjs. subst o'.
    unfold eased. rewrite Han, Hobjs.
    cbn [animatedTracks trackObjects animationStartTime set_trackObjects
         set_animationProgress set_animationStartTime set_isAnimating s0] in *.
    split; [done|]. split.
    + intros i o Ho Hi. rewrite !rescaled_other in Ho by done.
      exact (Forall_lookup_1 _ _ _ _ Hone Ho).
    + intros t o Ht Ho.
      eapply Forall_forall in Hlt as Hlt'; [|exact Ht]. cbn beta in Hlt'.
      destruct (lookup_lt_is_Some_2 (trackObjects s) (mesh t) Hlt') as [o0 Ho0].
      rewrite (rescaled_at _ _ _ t (setScalar 0 o0) Hnd Ht) in Ho
        by (by apply rescaled_at).
      by injection Ho as <-.
Qed.

(** X14: after [loadTracks] the animation entries refer to pairwise
    distinct objects, the mesh of every entry has the scale of its eased
    local progress at the first frame, and every other object (arrows and
    simplified tracks) has scale 1. *)
Theorem loadTracks_initial_scales random t0 t1 particles vertex s :
  eased Math_pow t0 t1
    (exec (loadTracks Math_pow random t0 t1 particles vertex) s).
Proof.
  eapply (hoare_exec (λ _, True) _ (λ _, eased Math_pow t0 t1) (λ _, False));
    [|done|done|done].
  unfold loadTracks.
  eapply (hoare_bind _ _ (λ _, unscaled)).
  { apply hoare_modify. intros ? _. split; [constructor|]. split; constructor. }
  intros ?. eapply (hoare_bind _ _ (λ _, unscaled)).
  { destruct (_ <? _)%nat.
    - eapply hoare_bind; [apply hoare_emit|]. intros ?. by apply hoare_modify.
    - by apply hoare_modify. }
  intros ?. eapply (hoare_bind _ _ (λ _, unscaled)).
  { apply (hoare_forEach_from (λ _, unscaled) _ (λ _, False) particles
             (λ x i _, unscaled_createParticleTrack (random i) x vertex i) [] 0%nat). }
  intros ?. apply startAnimation_eased.
Qed.

End InitialScales.


(** X20: the local progress of an animated track is NaN exactly when
    [(elapsed - delay) / 2000] is NaN, and lies between 0 and 1
    otherwise. *)
Theorem localProgress_in_unit_interval (elapsed : float) (t : AnimatedTrack) :
  let x := ((elapsed - delay t) / 2000)%float in
  let p := localProgress elapsed t in
  PrimFloat.is_nan p = PrimFloat.is_nan x ∧
  PrimFloat.leb 0 p && PrimFloat.leb p 1 = negb (PrimFloat.is_nan x).
Proof.
  cbn zeta. unfold localProgress. change animationDuration with 2000%float.
  set (x := ((elapsed - delay t) / 2000)%float).
  destruct (PrimFloat.is_nan x) eqn:Hx.
  - assert (Hmax : Math_max 0 x = PrimFloat.nan).
    { unfold Math_max. rewrite Hx. by rewrite orb_true_r. }
    rewrite Hmax. by split.
  - destruct (Math_max_zero x Hx) as [Hn H0].
    destruct (Math_min_one _ Hn) as (Hn' & H1 & _ & _).
    split; [done|]. by rewrite (leb_trans_one _ H0), H1.
Qed.


Section Clock.
Variable Math_pow : float → float → float.

(** X21: a frame of a running animation keeps the animation running
    exactly when [elapsed / 2000 < 1] (so a NaN clock stops it); the progress
    it records is at most 1 unless it is NaN, and is [elapsed / 2000] itself
    while that is below 1. *)
Theorem animation_runs_while_elapsed_below_duration (now : float) (s : State) :
  isAnimating s = true →
  let s' := exec (animateFrame Math_pow now) s in
  let x := ((now - animationStartTime s) / 2000)%float in
  isAnimating s' = PrimFloat.ltb x 1 ∧
  PrimFloat.leb (animationProgress s') 1 = negb (PrimFloat.is_nan x) ∧
  (PrimFloat.ltb x 1 = true → animationProgress s' = x).
Proof.
  intros Ha. cbn zeta. unfold exec.
  rewrite (animateFrame_run Math_pow now s Ha). cbn zeta.
  change animationDuration with 2000%float.
  set (x := ((now - animationStartTime s) / 2000)%float).
  rewrite ltb_Math_min_one.
  assert (Hleb : PrimFloat.leb (Math_min x 1) 1 = negb (PrimFloat.is_nan x)).
  { destruct (PrimFloat.is_nan x) eqn:Hx.
    - unfold Math_min. by rewrite Hx.
    - by destruct (Math_min_one x Hx) as (_ & -> & _). }
  destruct (PrimFloat.ltb x 1) eqn:H1;
    cbn [fst snd isAnimating animationProgress set_trackObjects
         set_animationProgress set_isAnimating].
  - split; [exact Ha|]. split; [exact Hleb|]. intros _. unfold Math_min.
    destruct (PrimFloat.is_nan x) eqn:Hx; [by rewrite ltb_nan_l in H1|].
    change (PrimFloat.is_nan 1) with false. cbn [orb]. by rewrite H1.
  - split; [done|]. split; [exact Hleb|]. intros [=].
Qed.

End Clock.

Lemma animation_runs_while_elapsed_below_duration_witness :
  let s := exec (loadTracks Samples.flat_pow (λ _, 0.6%float) 1000 1000
                   [Scene.electron 10 3] Scene.origin) initial in
  isAnimating s = true ∧
  isAnimating (exec (animateFrame Samples.flat_pow 3000) s) = false.
Proof.
  cbn zeta.
  set (s := exec (loadTracks Samples.flat_pow (λ _, 0.6%float) 1000 1000
                    [Scene.electron 10 3] Scene.origin) initial).
  assert (Ha : isAnimating s = true) by (vm_compute; reflexivity).
  split; [exact Ha|].
  destruct (animation_runs_while_elapsed_below_duration Samples.flat_pow 3000 s Ha)
    as (H & _).
  rewrite H. vm_compute. reflexivity.
Defined.


(** X23: when the four bound inputs of [updateFilters] are empty or 0
    (parsed as NaN or 0), an object is visible afterwards exactly when its
    particle passes the type test and has an energy and a pt that are at
    least 0: a particle of negative energy stays hidden. *)
Theorem empty_bounds_keep_nonnegative types minE maxE minPt maxPt s i o p td :
  truthy (VNum minE) = false → truthy (VNum maxE) = false →
  truthy (VNum minPt) = false → truthy (VNum maxPt) = false →
  trackObjects s !! i = Some o →
  ud_particle (userData o) = Some p → ud_trackData (userData o) = Some td →
  trackObjects (updateFilters types minE maxE minPt maxPt s) !! i
  = Some (set_visible
            (type_passes types p && PrimFloat.leb 0 (p_E p)
             && PrimFloat.leb 0 (pt td)) o).
Proof.
  intros H1 H2 H3 H4 Ho Hp Htd. unfold updateFilters, or_default.
  rewrite H1, H2, H3, H4.
  rewrite filterByPt_lookup, filterByEnergy_lookup, filterByType_lookup, Ho.
  cbn. rewrite Hp. cbn. rewrite Hp. cbn. rewrite Htd.
  unfold energy_passes, pt_passes. by rewrite !leb_zero_infinity.
Qed.

Lemma empty_bounds_keep_nonnegative_witness :
  let s := exec (loadTracks Samples.flat_pow (λ _, 0%float) 0 0
                   [Scene.electron 10 3] Scene.origin) initial in
  visible <$> trackObjects (updateFilters [] nan 0 nan 0 s) !! 0%nat
  = Some true.
Proof.
  cbn zeta.
  set (s := exec (loadTracks Samples.flat_pow (λ _, 0%float) 0 0
                    [Scene.electron 10 3] Scene.origin) initial).
  assert (H : ∃ o p td, trackObjects s !! 0%nat = Some o ∧
                ud_particle (userData o) = Some p ∧
                ud_trackData (userData o) = Some td ∧
                PrimFloat.leb 0 (p_E p) = true ∧ PrimFloat.leb 0 (pt td) = true).
  { vm_compute. eexists _, _, _. repeat split. }
  destruct H as (o & p & td & Ho & Hp & Htd & HE & Hpt).
  rewrite (empty_bounds_keep_nonnegative [] nan 0 nan 0 s 0 o p td
             eq_refl eq_refl eq_refl eq_refl Ho Hp Htd).
  cbn. by rewrite HE, Hpt.
Defined.

(** ** Poly-lines under the pointer *)

Import Jam.

Lemma jammed_alter r s r' f :
  (∀ o, emissive (material (f o)) = emissive (material o)) →
  jammed r s → jammed r (set_trackObjects (alter f r' (trackObjects s)) s).
Proof.
  intros Hf [Hsel (o & Ho & He)]. split; [done|].
  unfold lacks_emissive. cbn. rewrite lookup_alter_Some, Ho. cbn.
  eexists. split; [done|].
  destruct (decide (r' = r)); cbn; [by rewrite Hf|done].
Qed.

Lemma jammed_emissive_setHex r r' h :
  hoare (jammed r) (emissive_setHex r' h) (λ _, jammed r) (jammed r).
Proof.
  unfold emissive_setHex.
  eapply hoare_bind; [by apply hoare_deref|]. intros o.
  destruct (emissive (material o)) as [e|] eqn:He; [|by intros s [_ Hs]].
  apply hoare_update. intros s [Ho [Hsel (o' & Ho' & He')]]. split; [done|].
  unfold lacks_emissive. cbn. rewrite lookup_alter_Some, Ho'. cbn.
  eexists. split; [done|].
  destruct (decide (r' = r)) as [->|]; cbn; [|done]. congruence.
Qed.

Lemma jammed_reset r r' :
  hoare (jammed r) (resetTrackAppearance r') (λ _, jammed r) (jammed r).
Proof.
  unfold resetTrackAppearance.
  eapply (hoare_bind _ _ (λ _, jammed r)).
  { apply hoare_update. intros s Hs. apply jammed_alter; [by intros []|done]. }
  intros ?. eapply (hoare_bind _ _ (λ _, jammed r)).
  { apply hoare_update. intros s Hs. apply jammed_alter; [by intros []|done]. }
  intros ?. apply jammed_emissive_setHex.
Qed.

Lemma jammed_mouse_move r mouse intersects :
  hoare (jammed r) (handleMouseMove mouse intersects) (λ _, jammed r) (jammed r).
Proof.
  unfold handleMouseMove.
  eapply hoare_bind; [apply hoare_get|]. intros s0.
  eapply (hoare_bind _ _ (λ _, jammed r)).
  { destruct (hoveredTrack s0); [|by intros s [_ Hs]].
    destruct (negb _); [|by intros s [_ Hs]].
    eapply hoare_weaken; [apply (jammed_reset r)| |done|done].
    by intros s [_ Hs]. }
  intros ?. destruct intersects as [|hit rest].
  - eapply hoare_bind; [by apply (hoare_modify (jammed r) (jammed r))|].
    intros ?. eapply hoare_bind; [apply (hoare_emit (jammed r))|].
    intros ?. apply hoare_emit.
  - eapply hoare_bind; [by apply (hoare_modify (jammed r) (jammed r))|].
    intros ?. eapply hoare_bind.
    { unfold highlightTrack. eapply (hoare_bind _ _ (λ _, jammed r)).
      - apply hoare_update. intros s Hs. apply jammed_alter; [by intros []|done].
      - intros ?. apply hoare_update. intros s Hs. apply jammed_alter; [by intros []|done]. }
    intros ?. eapply hoare_bind; [apply (hoare_emit (jammed r))|]. intros ?.
    eapply hoare_bind; [by apply hoare_deref|]. intros o.
    by intros s [_ Hs].
Qed.

(** Resetting a poly-line restores its colour and opacity and then raises. *)
Lemma reset_polyline_raises r s :
  lacks_emissive s r →
  ∃ s', resetTrackAppearance r s = (Raised TypeError, s', []) ∧
        selectedTrack s' = selectedTrack s ∧
        hoveredTrack s' = hoveredTrack s ∧ lacks_emissive s' r.
Proof.
  intros (o & Ho & He).
  assert (Hat : alter (λ o0, set_opacity (originalOpacity (userData o0)) o0) r
                  (alter (λ o0, color_setHex (originalColor (userData o0)) o0) r
                     (trackObjects s)) !! r
                = Some (set_opacity (originalOpacity (userData o))
                          (color_setHex (originalColor (userData o)) o))).
  { rewrite !lookup_alter_Some, Ho. destruct (decide (r = r)); [|done].
    reflexivity. }
  unfold resetTrackAppearance, emissive_setHex, deref, update, modify,
    get_state, raise, mbind, M_bind.
  cbn [trackObjects set_trackObjects]. rewrite Hat.
  cbn [mret M_ret material emissive set_opacity color_setHex set_material].
  rewrite He. cbn [app].
  eexists. split; [reflexivity|]. split; [done|]. split; [done|].
  unfold lacks_emissive. cbn [trackObjects set_trackObjects]. rewrite Hat.
  eexists. split; [done|]. by cbn.
Qed.

(** A click while the poly-line [r] is selected: resetting [r] raises before
    anything else happens. *)
Lemma jammed_click r mouse client intersects s :
  jammed r s →
  ∃ s', handleClick mouse client intersects s = (Raised TypeError, s', []) ∧
        jammed r s' ∧ hoveredTrack s' = hoveredTrack s.
Proof.
  intros [Hsel Hno].
  destruct (reset_polyline_raises r s Hno) as (s' & Hr & Hs' & Hh & Hno').
  exists s'. unfold handleClick.
  unfold mbind at 1, M_bind at 1. cbn [get_state]. rewrite Hsel.
  unfold mbind at 1, M_bind at 1. rewrite Hr.
  split; [done|]. split; [|done]. split; [congruence|done].
Qed.

(** X24: once a poly-line (an object whose material has no emissive
    colour) is the selected track, no sequence of mouse moves and clicks
    changes the selection, and every click raises a [TypeError] in
    [resetTrackAppearance] before it dispatches any event. *)
Theorem selected_polyline_blocks_clicks (es : list PointerEvent) (s : State)
    (r : nat) mouse client intersects :
  selectedTrack s = Some r → lacks_emissive s r →
  let s' := dispatch_all es s in
  selectedTrack s' = Some r ∧
  outcome (handleClick mouse client intersects) s' = Raised TypeError ∧
  effects (handleClick mouse client intersects) s' = [] ∧
  selectedTrack (exec (handleClick mouse client intersects) s') = Some r.
Proof.
  intros Hsel Hno. cbn zeta.
  assert (Hj : jammed r (dispatch_all es s)).
  { induction es as [|e es IH] using rev_ind; [by split|].
    unfold dispatch_all. rewrite foldl_app. cbn [foldl].
    fold (dispatch_all es s).
    destruct e as [m i|m c i]; cbn [dispatch].
    - by apply (hoare_exec (jammed r) _ (λ _, jammed r) (jammed r) (jammed r)
                  _ (jammed_mouse_move r m i)).
    - destruct (jammed_click r m c i _ IH) as (s' & Hs' & Hj' & _).
      unfold exec. by rewrite Hs'. }
  destruct (jammed_click r mouse client intersects _ Hj) as (s' & Hs' & Hj' & _).
  unfold outcome, effects, exec. rewrite Hs'. cbn.
  split; [apply Hj|]. split; [done|]. split; [done|apply Hj'].
Qed.

Lemma selected_polyline_blocks_clicks_witness :
  selectedTrack clicked = Some 0%nat ∧
  outcome (handleClick Scene.pointer Scene.pointer [Scene.hit 1])
    (dispatch_all [MouseMove Scene.pointer [Scene.hit 1]] clicked)
  = Raised TypeError.
Proof.
  assert (Hsel : selectedTrack clicked = Some 0%nat) by (vm_compute; reflexivity).
  assert (Hno : lacks_emissive clicked 0).
  { vm_compute. eexists. split; reflexivity. }
  split; [exact Hsel|].
  exact (proj1 (proj2 (selected_polyline_blocks_clicks
                         [MouseMove Scene.pointer [Scene.hit 1]] clicked 0
                         Scene.pointer Scene.pointer [Scene.hit 1] Hsel Hno))).
Defined.

(** Highlighting a poly-line as selected paints it white and opaque and then
    raises. *)
Lemma select_polyline_raises r s :
  lacks_emissive s r →
  ∃ s', highlightTrack r true s = (Raised TypeError, s', []) ∧
        selectedTrack s' = selectedTrack s ∧
        hoveredTrack s' = hoveredTrack s ∧ lacks_emissive s' r ∧
        object_satisfies selection_highlight r s'.
Proof.
  intros (o & Ho & He).
  assert (Hat : alter (set_opacity (Some 1%float)) r
                  (alter (color_setHex (Some 0xFFFFFF%Z)) r (trackObjects s)) !! r
                = Some (set_opacity (Some 1%float)
                          (color_setHex (Some 0xFFFFFF%Z) o))).
  { rewrite !lookup_alter_Some, Ho. destruct (decide (r = r)); [|done].
    reflexivity. }
  unfold highlightTrack, emissive_setHex, deref, update, modify,
    get_state, raise, mbind, M_bind.
  cbn [trackObjects set_trackObjects]. rewrite Hat.
  cbn [mret M_ret material emissive set_opacity color_setHex set_material].
  rewrite He. cbn [app].
  eexists. split; [reflexivity|]. split; [done|]. split; [done|].
  unfold lacks_emissive, object_satisfies.
  cbn [trackObjects set_trackObjects]. rewrite Hat.
  split; eexists; (split; [done|]); by cbn.
Qed.

(** X25: with nothing selected, a click on a poly-line records it as the
    selected track, paints it white and opaque, and then raises a
    [TypeError] in [highlightTrack]: no [particleSelected] event is
    dispatched and the hovered reference is kept. *)
Theorem click_on_polyline_raises mouse client hit rest (s : State) :
  selectedTrack s = None → lacks_emissive s (object hit) →
  let s' := exec (handleClick mouse client (hit :: rest)) s in
  outcome (handleClick mouse client (hit :: rest)) s = Raised TypeError ∧
  effects (handleClick mouse client (hit :: rest)) s = [] ∧
  selectedTrack s' = Some (object hit) ∧
  hoveredTrack s' = hoveredTrack s ∧
  lacks_emissive s' (object hit) ∧
  object_satisfies selection_highlight (object hit) s'.
Proof.
  intros Hsel Hno. cbn zeta.
  destruct (select_polyline_raises (object hit)
              (set_selectedTrack (Some (object hit)) s) Hno)
    as (s' & Hr & Hs' & Hh & Hno' & Hhl).
  assert (Hrun : handleClick mouse client (hit :: rest) s
                 = (Raised TypeError, s', [])).
  { unfold handleClick.
    unfold mbind at 1, M_bind at 1. cbn [get_state]. rewrite Hsel.
    unfold mbind at 1, M_bind at 1. cbn [mret M_ret].
    unfold mbind at 1, M_bind at 1. cbn [modify].
    unfold mbind at 1, M_bind at 1. by rewrite Hr. }
  unfold outcome, effects, exec. rewrite Hrun. cbn [fst snd].
  by repeat split.
Qed.

Lemma click_on_polyline_raises_witness :
  selectedTrack crowded = None ∧
  selectedTrack clicked = Some 0%nat ∧
  outcome (handleClick Scene.pointer Scene.pointer [Scene.hit 0]) crowded
  = Raised TypeError.
Proof.
  assert (Hsel : selectedTrack crowded = None) by (vm_compute; reflexivity).
  assert (Hno : lacks_emissive crowded (object (Scene.hit 0))).
  { vm_compute. eexists. split; reflexivity. }
  destruct (click_on_polyline_raises Scene.pointer Scene.pointer (Scene.hit 0) []
              crowded Hsel Hno) as (H1 & _ & H3 & _).
  split; [exact Hsel|]. split; [exact H3|exact H1].
Defined.

(** X26: while the hovered track is a poly-line that is not the selected
    track, a mouse move raises a [TypeError] in [resetTrackAppearance]: the
    hovered reference and the selection stay as they were, and neither the
    cursor change nor a hover event is emitted. *)
Theorem hovered_polyline_blocks_mouse_moves mouse intersects (s : State)
    (h : nat) :
  hoveredTrack s = Some h → selectedTrack s ≠ Some h → lacks_emissive s h →
  let s' := exec (handleMouseMove mouse intersects) s in
  outcome (handleMouseMove mouse intersects) s = Raised TypeError ∧
  effects (handleMouseMove mouse intersects) s = [] ∧
  hoveredTrack s' = Some h ∧ selectedTrack s' = selectedTrack s ∧
  lacks_emissive s' h.
Proof.
  intros Hh Hsel Hno. cbn zeta.
  destruct (reset_polyline_raises h s Hno) as (s' & Hr & Hs' & Hh' & Hno').
  assert (Hrun : handleMouseMove mouse intersects s
                 = (Raised TypeError, s', [])).
  { unfold handleMouseMove.
    unfold mbind at 1, M_bind at 1. cbn [get_state]. rewrite Hh.
    rewrite bool_decide_eq_false_2 by done. cbn [negb].
    unfold mbind at 1, M_bind at 1. by rewrite Hr. }
  unfold outcome, effects, exec. rewrite Hrun. cbn [fst snd].
  repeat split; [congruence|done|done].
Qed.

Lemma hovered_polyline_blocks_mouse_moves_witness :
  hoveredTrack hovered = Some 0%nat ∧
  outcome (handleMouseMove Scene.pointer []) hovered = Raised TypeError ∧
  hoveredTrack (exec (handleMouseMove Scene.pointer []) hovered) = Some 0%nat.
Proof.
  assert (Hh : hoveredTrack hovered = Some 0%nat) by (vm_compute; reflexivity).
  assert (Hsel : selectedTrack hovered ≠ Some 0%nat) by (vm_compute; discriminate).
  assert (Hno : lacks_emissive hovered 0).
  { vm_compute. eexists. split; reflexivity. }
  destruct (hovered_polyline_blocks_mouse_moves Scene.pointer [] hovered 0
              Hh Hsel Hno) as (H1 & _ & H3 & _).
  split; [exact Hh|]. split; [exact H1|exact H3].
Defined.

(** ** The scene does not depend on the previous one *)

Import Carry.

Lemma oblivious_ret {A} (a : A) : oblivious (mret a).
Proof. by intros c s. Qed.

Lemma oblivious_emit e : oblivious (emit e).
Proof. by intros c s. Qed.

Lemma oblivious_modify f :
  (∀ c s, f (with_clock c s) = with_clock c (f s)) → oblivious (modify f).
Proof. intros Hf c s. unfold modify. by rewrite Hf. Qed.

Lemma oblivious_bind {A B} (m : M A) (k : A → M B) :
  oblivious m → (∀ a, oblivious (k a)) → oblivious (m ≫= k).
Proof.
  intros Hm Hk c s. unfold mbind, M_bind. rewrite Hm.
  destruct (m s) as [[[a|e] s1] l1]; [|done].
  rewrite Hk. by destruct (k a s1) as [[o s2] l2].
Qed.

Lemma oblivious_get_bind {B} (k : State → M B) :
  (∀ s0, oblivious (k s0)) → (∀ c s0, k (with_clock c s0) = k s0) →
  oblivious (get_state ≫= k).
Proof.
  intros Hk Hsame c s. unfold mbind, M_bind, get_state.
  rewrite Hsame, Hk. by destruct (k s s) as [[o s2] l2].
Qed.

Lemma oblivious_forEach_from {A} (f : A → nat → M unit) l :
  (∀ x i, oblivious (f x i)) → ∀ i, oblivious (forEach_from f i l).
Proof.
  intros Hf. induction l as [|x l IH]; intros i; cbn [forEach_from].
  - apply oblivious_ret.
  - apply oblivious_bind; [apply Hf|]. intros ?. apply IH.
Qed.

Lemma oblivious_push o : oblivious (push_object o).
Proof. apply oblivious_modify. by intros c []. Qed.

Lemma oblivious_createParticleTrack random p vertex i :
  oblivious (createParticleTrack random p vertex i).
Proof.
  unfold createParticleTrack.
  destruct (_ <? 2)%nat; [apply oblivious_emit|].
  apply oblivious_bind; [apply oblivious_modify; by intros c []|]. intros ?.
  apply oblivious_get_bind; [|done]. intros s0.
  destruct (useSimplifiedRendering s0 && _).
  - apply oblivious_push.
  - unfold createDetailedTrack.
    apply oblivious_bind; [apply oblivious_modify; by intros c []|]. intros ?.
    apply oblivious_bind; [apply oblivious_push|]. intros ?.
    unfold createDirectionArrow.
    destruct (_ <? 2)%nat; [apply oblivious_ret|apply oblivious_push].
Qed.

Section Fresh.
Variable Math_pow : float → float → float.

Lemma modify_bind {B} f (k : () → M B) s : (modify f ≫= k) s = k () (f s).
Proof.
  unfold mbind, M_bind, modify. by destruct (k () (f s)) as [[? ?] ?].
Qed.

Lemma get_bind {B} (k : State → M B) s : (get_state ≫= k) s = k s s.
Proof.
  unfold mbind, M_bind, get_state. by destruct (k s s) as [[? ?] ?].
Qed.

(** [startAnimation] overwrites the clock before it reads it. *)
Lemma startAnimation_with_clock t0 t1 c s :
  animatedTracks s ≠ [] →
  startAnimation Math_pow t0 t1 (with_clock c s)
  = startAnimation Math_pow t0 t1 s.
Proof.
  intros Hne. unfold startAnimation. rewrite !get_bind.
  change (animatedTracks (with_clock c s)) with (animatedTracks s).
  destruct (length (animatedTracks s) =? 0)%nat eqn:Hlen.
  { apply Nat.eqb_eq, length_zero_iff_nil in Hlen. done. }
  rewrite !modify_bind. reflexivity.
Qed.

(** The steps of [loadTracks], one after the other. *)
Lemma loadTracks_run random t0 t1 particles vertex s :
  let mode := (maxTracks <? length particles)%nat in
  let warned := if mode
                then [ConsoleWarn (PerformanceWarning (length particles))]
                else [] in
  loadTracks Math_pow random t0 t1 particles vertex s
  = match forEach_from
            (λ particle index,
               createParticleTrack (random index) particle vertex index)
            0 particles (set_useSimplifiedRendering mode (clearTracks s)) with
    | (Done _, s3, l) =>
        let '(o, s4, l') := startAnimation Math_pow t0 t1 s3 in
        (o, s4, warned ++ l ++ l')
    | (Raised e, s3, l) => (Raised e, s3, warned ++ l)
    end.
Proof.
  cbn zeta. unfold loadTracks. rewrite modify_bind.
  destruct (maxTracks <? length particles)%nat.
  - unfold mbind at 1, M_bind at 1.
    unfold mbind at 1, M_bind at 1. cbn [emit modify app].
    unfold mbind at 1, M_bind at 1.
    destruct (forEach_from _ 0 particles _) as [[[[]|e] s3] l]; [|done].
    by destruct (startAnimation Math_pow t0 t1 s3) as [[o s4] l'].
  - rewrite modify_bind.
    unfold mbind at 1, M_bind at 1.
    destruct (forEach_from _ 0 particles _) as [[[[]|e] s3] l]; [|done].
    by destruct (startAnimation Math_pow t0 t1 s3) as [[o s4] l'].
Qed.

(** X27: [loadTracks] carries nothing over from the instance it finds:
    whatever the previous state, it returns the same outcome, emits the same
    effects and leaves the same tracks, scene objects, animation entries,
    references and rendering mode; when it builds at least one animated track
    the whole instance, animation clock included, is the same. *)
Theorem loadTracks_forgets_previous_scene random t0 t1 particles vertex
    (s s' : State) :
  let load := loadTracks Math_pow random t0 t1 particles vertex in
  outcome load s = outcome load s' ∧
  effects load s = effects load s' ∧
  scene (exec load s) = scene (exec load s') ∧
  (animatedTracks (exec load s) ≠ [] → exec load s = exec load s').
Proof.
  cbn zeta. unfold outcome, effects, exec. rewrite !loadTracks_run. cbn zeta.
  set (mode := (maxTracks <? length particles)%nat).
  set (build := forEach_from _ 0 particles).
  assert (Hob : oblivious build).
  { apply oblivious_forEach_from. intros. apply oblivious_createParticleTrack. }
  assert (Hs : set_useSimplifiedRendering mode (clearTracks s')
               = with_clock s' (set_useSimplifiedRendering mode (clearTracks s)))
    by done.
  rewrite Hs, Hob.
  destruct (safe_forEach_from all_built
              (λ particle index,
                 createParticleTrack (random index) particle vertex index)
              particles
              (λ x i, safe_createParticleTrack (random i) x vertex i) 0
              (set_useSimplifiedRendering mode (clearTracks s)))
    as ([] & s3 & l & Hrun & _); [by constructor|].
  fold build in Hrun. rewrite Hrun.
  destruct (decide (animatedTracks s3 = [])) as [Hnil|Hne].
  - assert (Hidle : ∀ x, animatedTracks x = [] →
              startAnimation Math_pow t0 t1 x = (Done (), x, [])).
    { intros x Hx. unfold startAnimation, mbind, M_bind. cbn [get_state].
      by rewrite Hx. }
    rewrite !Hidle by done. cbn [fst snd].
    split; [done|]. split; [done|]. split; [done|]. intros Hne. done.
  - rewrite startAnimation_with_clock by done.
    destruct (startAnimation Math_pow t0 t1 s3) as [[o s4] l']. cbn [fst snd].
    done.
Qed.

End Fresh.

End SceneFacts.

(** * Further properties of the loader *)

Module LoaderFacts.

Import DataLoader ValidationFacts Diagnosis CSV Loader.

Lemma bind_Throw_inv {A B} (m : result A) (k : A → result B) (e : SchemaError) :
  m ≫= k = Throw e → m = Throw e ∨ ∃ a, m = Ok a ∧ k a = Throw e.
Proof. destruct m as [a|e']; cbn; [eauto|]. intros [= ->]. by left. Qed.

Lemma map_from_Throw {A B} (f : A → nat → result B) (l : list A) :
  ∀ i e, map_from f i l = Throw e →
    ∃ j x, l !! j = Some x ∧ f x (i + j)%nat = Throw e ∧
           ∀ j' x', (j' < j)%nat → l !! j' = Some x' →
                    is_Ok (f x' (i + j')%nat) = true.
Proof.
  induction l as [|x l IH]; intros i e H; cbn [map_from] in H; [discriminate|].
  apply bind_Throw_inv in H as [H|(y & Hy & H)].
  - exists 0%nat, x. rewrite Nat.add_0_r. split; [done|]. split; [done|]. lia.
  - apply bind_Throw_inv in H as [H|(ys & Hys & H)]; [|discriminate].
    destruct (IH _ _ H) as (j & x' & Hx' & Hf & Hbefore).
    exists (S j), x'. split; [done|].
    split; [by rewrite <- Nat.add_succ_comm|].
    intros [|j'] x'' Hlt Hx''; cbn in Hx''.
    + injection Hx'' as <-. by rewrite Nat.add_0_r, Hy.
    + rewrite <- Nat.add_succ_comm. apply Hbefore; [lia|done].
Qed.

Lemma check_required_Throw fs v err e :
  check_required fs v err = Throw e →
  ∃ f, e = err f ∧ f ∈ fs ∧ has_prop f v = false.
Proof.
  induction fs as [|f fs IH]; cbn; intros H; [discriminate|].
  destruct (has_prop f v) eqn:E.
  - destruct (IH H) as (f' & -> & Hin & Hf'). exists f'. split; [done|].
    split; [by right|done].
  - injection H as <-. exists f. split; [done|]. split; [by left|done].
Qed.

Lemma check_numeric_Throw fs v err e :
  check_numeric fs v err = Throw e →
  ∃ f, e = err f ∧ f ∈ fs ∧ Schema.is_valid_number (get_prop v f) = false.
Proof.
  induction fs as [|f fs IH]; cbn; intros H; [discriminate|].
  destruct (get_prop v f) as [| | |n| | |] eqn:E;
    try (injection H as <-; exists f; split; [done|]; split; [by left|];
         by rewrite E).
  destruct (PrimFloat.is_nan n) eqn:En.
  - injection H as <-. exists f. split; [done|]. split; [by left|].
    rewrite E. cbn. by rewrite En.
  - destruct (IH H) as (f' & -> & Hin & Hf'). exists f'. split; [done|].
    split; [by right|done].
Qed.

Lemma validatePoint_Throw i pt j e :
  validatePoint i pt j = Throw e →
  (e = PointNotObject i j ∧ Schema.is_object pt = false) ∨
  (e = PointNotNumbers i j ∧ Schema.is_object pt = true ∧
   bad_coordinate pt = true).
Proof.
  unfold validatePoint. rewrite not_object_guard.
  destruct (Schema.is_object pt) eqn:Hobj; cbn [negb].
  - intros H. right. unfold bad_coordinate. cbn [existsb].
    destruct (get_prop pt "x"), (get_prop pt "y"), (get_prop pt "z");
      try discriminate; injection H as <-; done.
  - intros [= <-]. by left.
Qed.

Section Diagnostics.
Variable Math_atan2 : float → float → float.
Variables Math_log Math_tan : float → float.
Abbreviation validateParticle := (validateParticle Math_atan2 Math_log Math_tan).
Abbreviation validateEvent := (validateEvent Math_atan2 Math_log Math_tan).

Lemma validateParticle_Throw p i e :
  validateParticle p i = Throw e →
  blamed_particle e = Some i ∧ describes_particle p e.
Proof.
  unfold DataLoader.validateParticle. rewrite not_object_guard.
  destruct (Schema.is_object p) eqn:Hobj; cbn [negb]; [|by intros [= <-]].
  intros H. apply bind_Throw_inv in H as [H|([] & _ & H)].
  { apply check_required_Throw in H as (f & -> & Hin & Hf). by repeat split. }
  apply bind_Throw_inv in H as [H|([] & _ & H)].
  { apply check_numeric_Throw in H as (f & -> & Hin & Hf). by repeat split. }
  apply bind_Throw_inv in H as [H|(t' & _ & H)]; [|discriminate].
  destruct (truthy (get_prop p "trajectory")) eqn:Htr; [|discriminate].
  destruct (get_prop p "trajectory") as [| | | | |pts|] eqn:Ht;
    try (injection H as <-; split; [done|];
         unfold describes_particle, Schema.trajectory_not_sequence;
         by rewrite Ht, Htr).
  apply map_from_Throw in H as (j & pt & Hpt & Hf & _). cbn in Hf.
  apply validatePoint_Throw in Hf as [[-> Hno]|(-> & Hobj' & Hbad)].
  - split; [done|]. cbn. eauto.
  - split; [done|]. cbn. eauto 6.
Qed.

(** X15: every error that [validateEvent] throws is accurate.  An error that
    names no particle describes the event (it is not an object, it misses the
    named field, its vertex is not an object or has a coordinate that is not
    a number, or its particles are not an array); an error that names the
    particle [i] describes the [i]-th particle (not an object, the named
    field missing, the named numeric field not a number, the trajectory not
    an array, or the named point not an object or with a bad coordinate), and
    every particle before it validates. *)
Theorem validation_error_is_accurate (now : string) (e : value)
    (err : SchemaError) :
  validateEvent now e = Throw err →
  match blamed_particle err with
  | None => describes_event e err
  | Some i =>
      ∃ ps p, get_prop e "particles" = VArr ps ∧ ps !! i = Some p ∧
        describes_particle p err ∧
        ∀ j q, (j < i)%nat → ps !! j = Some q →
               is_Ok (validateParticle q j) = true
  end.
Proof.
  unfold DataLoader.validateEvent. rewrite !not_object_guard.
  destruct (Schema.is_object e) eqn:Hobj; cbn [negb]; [|by intros [= <-]].
  intros H. apply bind_Throw_inv in H as [H|([] & _ & H)].
  { apply check_required_Throw in H as (f & -> & Hin & Hf). by split. }
  destruct (Schema.is_object (get_prop e "vertex")) eqn:Hv; cbn [negb] in H;
    [|by injection H as <-].
  assert (Hxyz : bad_coordinate (get_prop e "vertex") = false →
            ∃ x y z, get_prop (get_prop e "vertex") "x" = VNum x ∧
                     get_prop (get_prop e "vertex") "y" = VNum y ∧
                     get_prop (get_prop e "vertex") "z" = VNum z).
  { unfold bad_coordinate. cbn [existsb].
    destruct (get_prop (get_prop e "vertex") "x"),
             (get_prop (get_prop e "vertex") "y"),
             (get_prop (get_prop e "vertex") "z");
      cbn; intros ?; try discriminate; eauto 10. }
  destruct (bad_coordinate (get_prop e "vertex")) eqn:Hbad.
  { assert (err = VertexNotNumbers) as ->; [|done].
    unfold bad_coordinate in Hbad. cbn [existsb] in Hbad.
    destruct (get_prop (get_prop e "vertex") "x"),
             (get_prop (get_prop e "vertex") "y"),
             (get_prop (get_prop e "vertex") "z");
      cbn in Hbad; try discriminate; by injection H as <-. }
  destruct (Hxyz eq_refl) as (x & y & z & Hx & Hy & Hz).
  rewrite Hx, Hy, Hz in H.
  destruct (get_prop e "particles") as [| | | | |ps|] eqn:Hps;
    try (injection H as <-; cbn; by rewrite Hps).
  apply bind_Throw_inv in H as [H|(ps' & _ & H)]; [|discriminate].
  apply map_from_Throw in H as (i & p & Hp & Hf & Hbefore). cbn in Hf.
  apply validateParticle_Throw in Hf as [-> Hd].
  exists ps, p. split; [done|]. split; [done|]. split; [done|].
  intros j q Hlt Hq. exact (Hbefore j q Hlt Hq).
Qed.

End Diagnostics.

Import Samples.

Lemma validation_error_is_accurate_witness :
  ∃ ps p,
    get_prop (event (point 0 0 0) [electron []; string_trajectory_electron])
      "particles" = VArr ps ∧
    ps !! 1%nat = Some p ∧
    describes_particle p (TrajectoryNotArray 1) ∧
    ∀ j q, (j < 1)%nat → ps !! j = Some q →
           is_Ok (DataLoader.validateParticle flat_atan2 flat_log flat_tan q j)
           = true.
Proof.
  apply (validation_error_is_accurate flat_atan2 flat_log flat_tan "2026-01-01"
           (event (point 0 0 0) [electron []; string_trajectory_electron])
           (TrajectoryNotArray 1)).
  vm_compute. reflexivity.
Defined.

Section Frame.
Variable Math_atan2 : float → float → float.
Variables Math_log Math_tan : float → float.
Abbreviation validateEvent' := (DataLoader.validateEvent Math_atan2 Math_log Math_tan).

(** X16: a successful validation keeps every top-level field of the event
    other than [particles] and [metadata], and builds the metadata from the
    input's metadata fields, overwriting [validated_at] with the time of
    validation and [particle_count] with the number of particles. *)
Theorem validation_stamps_metadata (now : string) (e e' : value) :
  validateEvent' now e = Ok e' →
  ∃ (o o' m' : gmap string value) (ps : list value),
    e = VObj o ∧ e' = VObj o' ∧ o !! "particles" = Some (VArr ps) ∧
    (∀ k, k ≠ "particles" → k ≠ "metadata" → o' !! k = o !! k) ∧
    o' !! "metadata" = Some (VObj m') ∧
    m' !! "validated_at" = Some (VStr now) ∧
    m' !! "particle_count" = Some (VNum (float_of_nat (length ps))) ∧
    (∀ k, k ≠ "validated_at" → k ≠ "particle_count" →
          m' !! k = spread (get_prop e "metadata") !! k).
Proof.
  intros H.
  apply validateEvent_inv in H
    as (o & ps & ps' & -> & _ & _ & _ & Hps & Hmap & ->).
  apply map_from_Ok in Hmap as [Hlen _].
  eexists o, _, _, ps. split; [done|]. split; [done|]. split; [done|].
  split; [|split; [|split; [|split]]].
  - intros k Hk1 Hk2. by rewrite !lookup_insert_ne.
  - by rewrite lookup_insert_eq.
  - by rewrite lookup_insert_eq.
  - rewrite lookup_insert_ne by done. by rewrite lookup_insert_eq, Hlen.
  - intros k Hk1 Hk2. by rewrite !lookup_insert_ne.
Qed.

End Frame.

Lemma validation_stamps_metadata_witness :
  ∃ (o o' m' : gmap string value) (ps : list value),
    sample_event = VObj o ∧ validated_event = VObj o' ∧
    o !! "particles" = Some (VArr ps) ∧
    (∀ k, k ≠ "particles" → k ≠ "metadata" → o' !! k = o !! k) ∧
    o' !! "metadata" = Some (VObj m') ∧
    m' !! "validated_at" = Some (VStr "2026-01-01") ∧
    m' !! "particle_count" = Some (VNum (float_of_nat (length ps))) ∧
    (∀ k, k ≠ "validated_at" → k ≠ "particle_count" →
          m' !! k = spread (get_prop sample_event "metadata") !! k).
Proof.
  apply (validation_stamps_metadata flat_atan2 flat_log flat_tan "2026-01-01"
           sample_event validated_event).
  vm_compute. reflexivity.
Defined.

Lemma or_default_valid x : PrimFloat.is_nan (UI.or_default x 0) = false.
Proof.
  unfold UI.or_default. cbn [truthy].
  destruct (PrimFloat.eqb x 0); cbn [orb negb]; [reflexivity|].
  destruct (PrimFloat.is_nan x) eqn:Hx; cbn [negb]; [reflexivity|done].
Qed.

Section CSVFacts.
Variable trim : string → string.
Variable parseFloat : string → float.

Lemma cell_lookup values m h i k :
  cell trim parseFloat values m h i !! k
  = if bool_decide (k = h ∧ h ≠ "__proto__")
    then cell trim parseFloat values m h i !! h
    else m !! k.
Proof.
  destruct (decide (k = h ∧ h ≠ "__proto__")) as [Hk|Hk].
  - rewrite bool_decide_eq_true_2 by done. by destruct Hk as [-> _].
  - rewrite bool_decide_eq_false_2 by done. unfold cell, assign.
    destruct (bool_decide (h ∈ numericColumns));
      (destruct (String.eqb h "__proto__") eqn:Hp; [done|]);
      apply String.eqb_neq in Hp;
      (rewrite lookup_insert_ne; [done|]); intros <-; tauto.
Qed.

Lemma cell_present values m h i :
  h ≠ "__proto__" → is_Some (cell trim parseFloat values m h i !! h).
Proof.
  intros Hp. unfold cell, assign.
  apply String.eqb_neq in Hp. rewrite Hp.
  destruct (bool_decide _); rewrite lookup_insert_eq; eauto.
Qed.

Lemma cell_numbers_valid values m h i :
  numbers_valid m → numbers_valid (cell trim parseFloat values m h i).
Proof.
  intros Hm k v Hk. unfold cell, assign.
  case_bool_decide as Hh.
  - destruct (String.eqb h "__proto__"); [by apply Hm|].
    destruct (decide (k = h)) as [->|Hne].
    + rewrite lookup_insert_eq. intros [= <-]. cbn.
      by rewrite or_default_valid.
    + rewrite lookup_insert_ne by done. by apply Hm.
  - destruct (String.eqb h "__proto__"); [by apply Hm|].
    destruct (decide (k = h)) as [->|Hne]; [done|].
    rewrite lookup_insert_ne by done. by apply Hm.
Qed.

Lemma fill_spec values headers :
  ∀ i m, numbers_valid m →
    numbers_valid (fill trim parseFloat values headers i m) ∧
    (∀ k, k ≠ "__proto__" → k ∈ headers ∨ is_Some (m !! k) →
          is_Some (fill trim parseFloat values headers i m !! k)) ∧
    (∀ k, k ∉ headers → fill trim parseFloat values headers i m !! k = m !! k).
Proof.
  induction headers as [|h hs IH]; intros i m Hm; cbn [fill].
  - split; [done|]. split; [|done].
    intros k _ [Hk|Hk]; [by apply elem_of_nil in Hk|done].
  - destruct (IH (S i) _ (cell_numbers_valid values m h i Hm))
      as (Hv & Hin & Hout).
    split; [done|]. split.
    + intros k Hp Hk. apply Hin; [done|].
      destruct (decide (k ∈ hs)) as [|Hnot]; [by left|]. right.
      destruct (decide (k = h)) as [->|Hne]; [by apply cell_present|].
      rewrite cell_lookup. rewrite bool_decide_eq_false_2 by tauto.
      destruct Hk as [Hk|Hk]; [|done].
      apply elem_of_cons in Hk as [?|?]; done.
    + intros k Hk. apply not_elem_of_cons in Hk as [Hne Hk].
      rewrite Hout by done. rewrite cell_lookup.
      by rewrite bool_decide_eq_false_2 by tauto.
Qed.

Lemma row_valid headers line p :
  (∀ f, f ∈ eventSchema_particle_required → f ∈ headers) →
  "trajectory" ∉ headers →
  row trim parseFloat headers line = Some p →
  Schema.particle_violation p = false.
Proof.
  intros Hreq Htraj. unfold row.
  destruct (_ <? _)%nat; [discriminate|]. intros [= <-].
  set (m := fill trim parseFloat (split "," line) headers 0 ∅).
  destruct (fill_spec (split "," line) headers 0 ∅) as (Hv & Hin & Hout).
  { intros k v _ Hk. by rewrite lookup_empty in Hk. }
  fold m in Hv, Hin, Hout.
  assert (Hnone : m !! "trajectory" = None).
  { rewrite Hout by done. apply lookup_empty. }
  cbn [get_prop]. rewrite Hnone. cbn [default truthy].
  set (t := generateSimpleTrajectory _ _ _).
  assert (Hpresent : ∀ k, k ∈ eventSchema_particle_required →
            is_Some (m !! k) ∧ k ≠ "trajectory").
  { intros k Hk. split.
    - apply Hin; [|left; by apply Hreq].
      unfold eventSchema_particle_required in Hk.
      repeat (apply elem_of_cons in Hk as [->|Hk]); try done.
      by apply elem_of_nil in Hk.
    - intros ->. apply Htraj. by apply Hreq. }
  assert (Hnum : ∀ k, k ∈ numericFields →
            Schema.is_valid_number
              (get_prop (VObj (<["trajectory" := VArr t]> m)) k) = true).
  { intros k Hk.
    assert (Hk' : k ∈ eventSchema_particle_required ∧ k ∈ numericColumns).
    { unfold numericFields in Hk.
      repeat (apply elem_of_cons in Hk as [->|Hk]);
        [split; unfold eventSchema_particle_required, numericColumns; in_list..|].
      by apply elem_of_nil in Hk. }
    destruct Hk' as [Hk1 Hk2]. destruct (Hpresent k Hk1) as [[v Hkv] Hne].
    cbn [get_prop]. rewrite lookup_insert_ne by done. rewrite Hkv. cbn [default].
    by apply (Hv k v). }
  unfold Schema.particle_violation, Schema.particle_misses_field,
    Schema.particle_bad_number, Schema.trajectory_point_fails,
    Schema.trajectory_not_sequence, Schema.absent.
  cbn [existsb has_prop].
  repeat match goal with
  | |- context [bool_decide (is_Some (<["trajectory" := ?v]> m !! ?k))] =>
      rewrite (bool_decide_eq_true_2 (is_Some (<["trajectory" := v]> m !! k)))
        by (destruct (Hpresent k ltac:(unfold eventSchema_particle_required; in_list))
              as [? ?]; by rewrite lookup_insert_ne)
  end.
  rewrite !Hnum by (unfold numericFields; in_list).
  cbn [negb orb].
  cbn [get_prop]. rewrite lookup_insert_eq. cbn [default truthy isArray negb andb].
  rewrite orb_false_r.
  apply not_true_is_false. intros Hex.
  apply existsb_exists in Hex as (pt & Hpt & Hfail).
  apply list_elem_of_In in Hpt.
  apply generateSimpleTrajectory_points in Hpt as (x & y & z & ->).
  discriminate Hfail.
Qed.

Variable Math_atan2 : float → float → float.
Variables Math_log Math_tan : float → float.

(** X17: the event that [parseCSV] builds passes [validateEvent] whenever
    the header row names the six required columns and has no [trajectory]
    column: every numeric cell becomes a number other than NaN (0 when it
    does not parse) and every particle gets a synthesized trajectory. *)
Theorem csv_event_validates (now : string) (Date_now : N) (csvText : string) :
  (∀ f, f ∈ eventSchema_particle_required → f ∈ headers_of trim csvText) →
  "trajectory" ∉ headers_of trim csvText →
  ∃ e', DataLoader.validateEvent Math_atan2 Math_log Math_tan now
          (parseCSV trim parseFloat Date_now csvText) = Ok e'.
Proof.
  intros Hreq Htraj. unfold parseCSV. fold (headers_of trim csvText).
  set (headers := headers_of trim csvText) in *.
  set (particles := omap (row trim parseFloat headers) _).
  assert (Hps : is_Ok (map_from
                  (DataLoader.validateParticle Math_atan2 Math_log Math_tan)
                  0 particles) = true).
  { rewrite (map_from_is_Ok _ Schema.particle_violation)
      by (intros; apply validateParticle_is_Ok).
    apply negb_true_iff, not_true_is_false. intros Hex.
    apply existsb_exists in Hex as (p & Hp & Hbad).
    apply list_elem_of_In, list_elem_of_omap in Hp as (line & _ & Hrow).
    by rewrite (row_valid headers line p Hreq Htraj Hrow) in Hbad. }
  destruct (map_from _ 0 particles) as [ps'|] eqn:Hmap; [|discriminate].
  unfold DataLoader.validateEvent.
  cbn [truthy typeof negb orb bool_decide decide_rel].
  rewrite bool_decide_eq_true_2 by done. cbn [negb orb].
  unfold eventSchema_required. cbn [check_required has_prop].
  rewrite !bool_decide_eq_true_2
    by (rewrite ?lookup_insert_eq, ?lookup_insert_ne by done;
        rewrite ?lookup_insert_eq; eauto).
  cbn [mbind result_bind get_prop].
  rewrite (lookup_insert_ne _ "metadata" "vertex") by done.
  rewrite (lookup_insert_ne _ "particles" "vertex") by done.
  rewrite lookup_insert_eq. cbn [default id].
  rewrite (lookup_insert_ne _ "metadata" "particles") by done.
  rewrite lookup_insert_eq. cbn [default id].
  change (truthy (point 0 0 0)) with true. cbn [negb orb].
  change (get_prop (point 0 0 0) "x") with (VNum 0).
  change (get_prop (point 0 0 0) "y") with (VNum 0).
  change (get_prop (point 0 0 0) "z") with (VNum 0).
  cbn iota. rewrite Hmap. cbn [mbind result_bind]. eauto.
Qed.

End CSVFacts.

Lemma csv_event_validates_witness :
  ∃ e', DataLoader.validateEvent Samples.flat_atan2 Samples.flat_log
          Samples.flat_tan "2026-01-01"
          (parseCSV plain_trim unit_parseFloat 0 one_electron) = Ok e'.
Proof.
  apply (csv_event_validates plain_trim unit_parseFloat).
  - intros f Hf. vm_compute headers_of.
    unfold eventSchema_particle_required in Hf.
    repeat (apply elem_of_cons in Hf as [->|Hf]); [in_list..|].
    by apply elem_of_nil in Hf.
  - vm_compute headers_of. intros H.
    repeat (apply elem_of_cons in H as [H|H]; [discriminate|]).
    by apply elem_of_nil in H.
Defined.

Lemma getEvent_in_range index d e :
  events d !! Z.to_nat index = Some e → (0 ≤ index)%Z → getEvent index d = e.
Proof.
  intros He Hi. unfold getEvent.
  apply lookup_lt_Some in He as Hlt.
  replace (0 <=? index)%Z with true by (symmetry; apply Z.leb_le; lia).
  replace (index <? _)%Z with true by (symmetry; apply Z.ltb_lt; lia).
  by rewrite He.
Qed.

Lemma switchToEvent_in_range index d o :
  events d !! Z.to_nat index = Some (VObj o) → (0 ≤ index)%Z →
  switchToEvent index d = (VObj o, set_current index (VObj o) d).
Proof.
  intros He Hi. unfold switchToEvent. by rewrite (getEvent_in_range _ _ _ He Hi).
Qed.

Lemma getEvent_out_of_range index d :
  (index < 0 ∨ Z.of_nat (length (events d)) ≤ index)%Z →
  getEvent index d = VNull.
Proof.
  intros H. unfold getEvent.
  destruct (0 <=? index)%Z eqn:H0; [|done].
  destruct (index <? _)%Z eqn:H1; [|done].
  apply Z.leb_le in H0. apply Z.ltb_lt in H1. lia.
Qed.

Lemma getEvent_object index d :
  Forall (λ e, ∃ o, e = VObj o) (events d) →
  getEvent index d = VNull ∨
  ∃ o, getEvent index d = VObj o ∧ (0 ≤ index)%Z ∧
       events d !! Z.to_nat index = Some (VObj o).
Proof.
  intros Hall. unfold getEvent.
  destruct (0 <=? index)%Z eqn:H0; [|by left].
  destruct (index <? _)%Z eqn:H1; [|by left].
  apply Z.leb_le in H0. apply Z.ltb_lt in H1.
  destruct (lookup_lt_is_Some_2 (events d) (Z.to_nat index)) as [e He]; [lia|].
  rewrite He. destruct (Forall_lookup_1 _ _ _ _ Hall He) as [o ->].
  right. by exists o.
Qed.

Lemma switchToEvent_consistent index d :
  consistent d → consistent (switchToEvent index d).2.
Proof.
  intros (H0 & Hall & Hcur). unfold switchToEvent.
  destruct (getEvent_object index d Hall) as [->|(o & -> & Hi & Ho)];
    [done|]. cbn.
  split; [done|]. split; [done|]. intros _. cbn.
  split; [|done]. apply lookup_lt_Some in Ho. lia.
Qed.

Lemma nextEvent_consistent d : consistent d → consistent (nextEvent d).2.
Proof.
  intros H. unfold nextEvent. destruct (_ =? 0)%nat; [done|].
  by apply switchToEvent_consistent.
Qed.

Lemma previousEvent_consistent d : consistent d → consistent (previousEvent d).2.
Proof.
  intros H. unfold previousEvent. destruct (_ =? 0)%nat; [done|].
  by apply switchToEvent_consistent.
Qed.

Lemma clear_consistent d : consistent (clear d).
Proof. split; [done|]. split; [constructor|done]. Qed.

Lemma push_switch_consistent d o :
  consistent d →
  consistent
    (switchToEvent (Z.of_nat (length (events d ++ [VObj o])) - 1)
       (set_events (events d ++ [VObj o]) d)).2.
Proof.
  intros (H0 & Hall & Hcur).
  rewrite (switchToEvent_in_range _ _ o).
  - unfold consistent.
    cbn [snd set_current set_events events currentEventIndex currentEvent].
    split; [rewrite length_app; cbn [length]; lia|]. split.
    + apply Forall_app. split; [done|]. constructor; [by exists o|done].
    + intros _. split; [lia|].
      rewrite length_app. cbn [length].
      replace (Z.to_nat (Z.of_nat (length (events d) + 1) - 1))
        with (length (events d)) by lia.
      by rewrite list_lookup_middle.
  - cbn [set_events events]. rewrite length_app. cbn [length].
    replace (Z.to_nat (Z.of_nat (length (events d) + 1) - 1))
      with (length (events d)) by lia.
    by rewrite list_lookup_middle.
  - rewrite length_app. cbn [length]. lia.
Qed.

Section Calls.
Variable Math_atan2 : float → float → float.
Variables Math_log Math_tan : float → float.
Variable trim : string → string.
Variable parseFloat : string → float.

Abbreviation accepted := (accepted Math_atan2 Math_log Math_tan).
Abbreviation loadEvents := (loadEvents Math_atan2 Math_log Math_tan).
Abbreviation handleFileUpload :=
  (handleFileUpload Math_atan2 Math_log Math_tan trim parseFloat).
Abbreviation call := (call Math_atan2 Math_log Math_tan trim parseFloat).
Abbreviation calls := (calls Math_atan2 Math_log Math_tan trim parseFloat).

Lemma accepted_object r e : accepted r = Some e → ∃ o, e = VObj o.
Proof.
  unfold Loader.accepted. destruct (body r) as [v|]; [|discriminate].
  destruct (validateEvent _ _ _ _ v) as [e'|] eqn:Hv; [|discriminate].
  intros [= <-].
  apply validateEvent_inv in Hv as (o & ps & ps' & _ & _ & _ & _ & _ & _ & ->).
  eauto.
Qed.

(** The loop of [loadEvents]: the accepted events are appended in order and
    nothing else changes but [isLoading]. *)
Lemma loadEvents_loop responses :
  ∀ d,
    let d' :=
      foldl (λ d r,
               match loadEvent Math_atan2 Math_log Math_tan r d with
               | (Some event, d) => set_events (events d ++ [event]) d
               | (None, d) => d
               end) d responses in
    events d' = events d ++ omap accepted responses ∧
    currentEventIndex d' = currentEventIndex d ∧
    currentEvent d' = currentEvent d.
Proof.
  set (f := λ d r, _).
  induction responses as [|r rs IH]; intros d; cbn [foldl].
  - cbn. by rewrite app_nil_r.
  - cbn [omap list_omap]. fold (omap accepted rs).
    assert (Hf : f d r
                 = match accepted r with
                   | Some e => set_events (events d ++ [e])
                                 (set_isLoading false (set_isLoading true d))
                   | None => set_isLoading false (set_isLoading true d)
                   end).
    { unfold f, loadEvent. by destruct (accepted r). }
    rewrite Hf. clear Hf.
    destruct (accepted r) as [e|] eqn:He.
    + destruct (IH (set_events (events d ++ [e])
                      (set_isLoading false (set_isLoading true d))))
        as (H1 & H2 & H3).
      cbn zeta. rewrite H1, H2, H3. cbn [events set_events].
      by rewrite <- app_assoc.
    + destruct (IH (set_isLoading false (set_isLoading true d)))
        as (H1 & H2 & H3).
      cbn zeta. by rewrite H1, H2, H3.
Qed.

Lemma loadEvents_consistent responses d :
  consistent d → consistent (loadEvents responses d).
Proof.
  intros (H0 & _ & _). unfold Loader.loadEvents.
  destruct (loadEvents_loop responses (set_events [] d)) as (H1 & H2 & H3).
  cbn zeta in *. cbn [events set_events app] in H1.
  set (d' := foldl _ _ responses) in *.
  assert (Hall : Forall (λ e, ∃ o, e = VObj o) (events d')).
  { rewrite H1. apply Forall_forall. intros e He.
    apply list_elem_of_omap in He as (r & _ & Hr).
    by apply accepted_object in Hr. }
  destruct (0 <? length (events d'))%nat eqn:Hlen.
  - apply Nat.ltb_lt in Hlen.
    destruct (lookup_lt_is_Some_2 (events d') 0) as [e He]; [lia|].
    rewrite He. unfold consistent.
    cbn [default id set_current events currentEventIndex currentEvent].
    split; [done|]. split; [done|]. intros _. split; [lia|]. exact He.
  - apply Nat.ltb_ge in Hlen. split; [by rewrite H2|]. split; [done|].
    intros Hne. destruct (events d'); [done|]. cbn in Hlen. lia.
Qed.

Lemma handleFileUpload_consistent file d :
  consistent d → consistent (handleFileUpload file d).
Proof.
  intros H. unfold Loader.handleFileUpload.
  destruct file as [|content|text Date_now|]; [done| | |done].
  - destruct (Loader.accepted _ _ _ content) as [e|] eqn:He; [|done].
    apply accepted_object in He as [o ->]. by apply push_switch_consistent.
  - unfold parseCSV. by apply push_switch_consistent.
Qed.

(** X22: after [loadEvents] the loader holds exactly the responses that
    [validateEvent] accepts, validated, in the order of the requests; the
    first of them becomes current at index 0, and when none is accepted the
    list is empty while the previous current event and index are kept. *)
Theorem loadEvents_keeps_accepted_events (responses : list Response)
    (d : Instance) :
  let d' := loadEvents responses d in
  events d' = omap accepted responses ∧
  match events d' with
  | first :: _ => currentEventIndex d' = 0%Z ∧ currentEvent d' = first
  | [] => currentEventIndex d' = currentEventIndex d ∧
          currentEvent d' = currentEvent d
  end.
Proof.
  cbn zeta. unfold Loader.loadEvents.
  destruct (loadEvents_loop responses (set_events [] d)) as (H1 & H2 & H3).
  cbn zeta in *. cbn [events set_events app] in H1.
  set (d' := foldl _ _ responses) in *.
  destruct (events d') as [|first rest] eqn:He.
  - cbn [length Nat.ltb Nat.leb]. rewrite He. by rewrite <- H1.
  - cbn [length Nat.ltb Nat.leb lookup list_lookup default id].
    cbn [events set_current currentEventIndex currentEvent].
    rewrite He. by rewrite <- H1.
Qed.

End Calls.

Section Interleaving.
Import Async.
Variable Math_atan2 : float → float → float.
Variables Math_log Math_tan : float → float.
Variable trim : string → string.
Variable parseFloat : string → float.

Abbreviation accepted := (accepted Math_atan2 Math_log Math_tan).
Abbreviation loadEvents := (loadEvents Math_atan2 Math_log Math_tan).
Abbreviation call := (call Math_atan2 Math_log Math_tan trim parseFloat).
Abbreviation resume := (Async.resume Math_atan2 Math_log Math_tan).
Abbreviation step := (step Math_atan2 Math_log Math_tan trim parseFloat).
Abbreviation steps := (steps Math_atan2 Math_log Math_tan trim parseFloat).

Lemma switchToEvent_sound index d : sound d → sound (switchToEvent index d).2.
Proof.
  intros (H0 & Hall & Hcur). unfold switchToEvent.
  destruct (getEvent_object index d Hall) as [->|(o & -> & Hi & Ho)];
    [done|]. cbn.
  split; [done|]. split; [done|]. right. by exists o.
Qed.

Lemma loadEvents_end_sound d : sound d → sound (loadEvents_end d).
Proof.
  intros (H0 & Hall & Hcur). unfold loadEvents_end.
  destruct (0 <? length (events d))%nat eqn:Hlen; [|done].
  apply Nat.ltb_lt in Hlen.
  destruct (lookup_lt_is_Some_2 (events d) 0) as [e He]; [lia|].
  rewrite He. destruct (Forall_lookup_1 _ _ _ _ Hall He) as [o ->].
  split; [done|]. split; [done|]. right. by exists o.
Qed.

Lemma loadEvents_end_consistent d : sound d → consistent (loadEvents_end d).
Proof.
  intros (H0 & Hall & Hcur). unfold loadEvents_end.
  destruct (0 <? length (events d))%nat eqn:Hlen.
  - apply Nat.ltb_lt in Hlen.
    destruct (lookup_lt_is_Some_2 (events d) 0) as [e He]; [lia|].
    rewrite He. unfold consistent.
    cbn [default id set_current events currentEventIndex currentEvent].
    split; [done|]. split; [done|]. intros _. split; [lia|]. exact He.
  - apply Nat.ltb_ge in Hlen. split; [done|]. split; [done|].
    intros Hne. destruct (events d); [done|]. cbn in Hlen. lia.
Qed.

Lemma push_sound d e :
  sound d → (∃ o, e = VObj o) → sound (set_events (events d ++ [e]) d).
Proof.
  intros (H0 & Hall & Hcur) He. split; [done|]. split; [|done].
  apply Forall_app. split; [done|]. by constructor.
Qed.

Lemma loadEvents_next_sound rest d :
  sound d → sound (loadEvents_next rest d).1.
Proof.
  intros H. destruct rest; cbn; [by apply loadEvents_end_sound|done].
Qed.

Lemma loadEvents_next_consistent rest d :
  sound d → (loadEvents_next rest d).2 = None →
  consistent (loadEvents_next rest d).1.
Proof.
  intros H. destruct rest; cbn; [|done]. intros _.
  by apply loadEvents_end_consistent.
Qed.

Lemma run_Some fuel d p :
  run Math_atan2 Math_log Math_tan (S fuel) d (Some p)
  = run Math_atan2 Math_log Math_tan fuel (resume p d).1 (resume p d).2.
Proof. cbn [run]. by destruct (resume p d). Qed.

(** A load that nothing interleaves with: the loop of [loadEvents], then
    its end. *)
Lemma run_loop rest : ∀ d,
  run Math_atan2 Math_log Math_tan (2 * length rest)
    (loadEvents_next rest d).1 (loadEvents_next rest d).2
  = loadEvents_end
      (foldl (λ d r,
               match loadEvent Math_atan2 Math_log Math_tan r d with
               | (Some event, d) => set_events (events d ++ [event]) d
               | (None, d) => d
               end) d rest).
Proof.
  induction rest as [|r rest IH]; intros d; [done|].
  cbn [length foldl].
  replace (2 * S (length rest)) with (S (S (2 * length rest))) by lia.
  cbn [loadEvents_next fst snd].
  set (d1 := match accepted r with
             | Some event =>
                 set_events
                   (events (set_isLoading false (set_isLoading true d))
                    ++ [event])
                   (set_isLoading false (set_isLoading true d))
             | None => set_isLoading false (set_isLoading true d)
             end).
  specialize (IH d1).
  assert (Hr : ∀ d0, resume (AwaitLoadEvent (accepted r) rest) d0
               = loadEvents_next rest
                   match accepted r with
                   | Some event => set_events (events d0 ++ [event]) d0
                   | None => d0
                   end) by done.
  assert (Hr1 : (resume (AwaitResponse r rest) (set_isLoading true d))
                = (set_isLoading false (set_isLoading true d),
                   Some (AwaitLoadEvent (accepted r) rest))) by done.
  rewrite run_Some, Hr1. cbn [fst snd]. rewrite run_Some, Hr. fold d1.
  rewrite IH. unfold d1, loadEvent. by destruct (accepted r).
Qed.

Lemma run_loadEvents responses d :
  let '(d0, next) := loadEvents_begin responses d in
  run Math_atan2 Math_log Math_tan (2 * length responses) d0 next
  = loadEvents responses d.
Proof.
  unfold loadEvents_begin.
  pose proof (run_loop responses (set_events [] d)) as H.
  destruct (loadEvents_next responses (set_events [] d)) as [d0 next].
  cbn [fst snd] in H. rewrite H. reflexivity.
Qed.

Lemma loadEvents_sound responses d : sound d → sound (loadEvents responses d).
Proof.
  intros (H0 & Hall & Hcur).
  change (loadEvents responses d)
    with (loadEvents_end
            (foldl (λ d r,
               match loadEvent Math_atan2 Math_log Math_tan r d with
               | (Some event, d) => set_events (events d ++ [event]) d
               | (None, d) => d
               end) (set_events [] d) responses)).
  apply loadEvents_end_sound.
  destruct (loadEvents_loop Math_atan2 Math_log Math_tan responses
              (set_events [] d)) as (H1 & H2 & H3).
  cbn zeta in *. cbn [events set_events app] in H1.
  set (d' := foldl _ _ responses) in *.
  split; [by rewrite H2|]. split; [|by rewrite H3].
  rewrite H1. apply Forall_forall. intros e He.
  apply list_elem_of_omap in He as (r & _ & Hr).
  by apply accepted_object in Hr.
Qed.

Lemma call_sound c d : sound d → sound (call c d).
Proof.
  intros H. destruct c; cbn [Loader.call].
  - by apply switchToEvent_sound.
  - unfold nextEvent. destruct (_ =? 0)%nat; [done|].
    by apply switchToEvent_sound.
  - unfold previousEvent. destruct (_ =? 0)%nat; [done|].
    by apply switchToEvent_sound.
  - destruct H as (H0 & Hall & Hcur). split; [done|].
    split; [constructor|by left].
  - by apply loadEvents_sound.
  - unfold Loader.handleFileUpload.
    destruct file as [|content|text Date_now|]; [done| | |done].
    + destruct (Loader.accepted _ _ _ content) as [e|] eqn:He; [|done].
      apply switchToEvent_sound, push_sound; [done|].
      by apply accepted_object in He.
    + apply switchToEvent_sound, push_sound; [done|].
      unfold parseCSV. eauto.
Qed.

Lemma call_consistent c d : consistent d → consistent (call c d).
Proof.
  intros H. destruct c; cbn [Loader.call].
  - by apply switchToEvent_consistent.
  - by apply nextEvent_consistent.
  - by apply previousEvent_consistent.
  - apply clear_consistent.
  - by apply loadEvents_consistent.
  - by apply handleFileUpload_consistent.
Qed.

(** One step keeps the loader sound, and consistent whenever it leaves no
    load in flight. *)
Lemma step_invariant st p :
  sound (loader p) → Forall validated (inflight p) →
  (inflight p = [] → consistent (loader p)) →
  sound (loader (step st p)) ∧ Forall validated (inflight (step st p)) ∧
  (inflight (step st p) = [] → consistent (loader (step st p))).
Proof.
  intros Hs Hv Hc. destruct st as [c|responses|i]; cbn [Async.step].
  - cbn [loader inflight]. split; [by apply call_sound|]. split; [done|].
    intros Hi. by apply call_consistent, Hc.
  - unfold loadEvents_begin.
    assert (Hs0 : sound (set_events [] (loader p))).
    { destruct Hs as (H0 & _ & Hcur). split; [done|]. by split; [constructor|]. }
    pose proof (loadEvents_next_sound responses _ Hs0) as Hs1.
    pose proof (loadEvents_next_consistent responses _ Hs0) as Hc1.
    assert (Hn : ∀ q, (loadEvents_next responses (set_events [] (loader p))).2
                      = Some q → validated q).
    { destruct responses; cbn; [done|]. by intros q [= <-]. }
    destruct (loadEvents_next responses _) as [d next].
    cbn [fst snd loader inflight] in *.
    split; [done|]. split.
    + apply Forall_app. split; [done|]. destruct next; cbn; [|done].
      constructor; [by apply Hn|done].
    + intros Hi. apply app_eq_nil in Hi as [_ Hi]. apply Hc1.
      by destruct next.
  - destruct (inflight p !! i) as [pending|] eqn:Hp; [|done].
    pose proof (Forall_lookup_1 _ _ _ _ Hv Hp) as Hpv.
    assert (Hres : sound (resume pending (loader p)).1 ∧
                   (∀ q, (resume pending (loader p)).2 = Some q → validated q) ∧
                   ((resume pending (loader p)).2 = None →
                    consistent (resume pending (loader p)).1)).
    { destruct pending as [r rest|event rest]; cbn [Async.resume].
      - cbn [fst snd]. split; [done|]. split; [|done].
        intros q [= <-]. cbn. destruct (accepted r) as [e|] eqn:He; [|done].
        by apply accepted_object in He.
      - assert (Hs1 : sound match event with
                            | Some event =>
                                set_events (events (loader p) ++ [event]) (loader p)
                            | None => loader p
                            end).
        { destruct event as [e|]; [|done]. by apply push_sound. }
        split; [by apply loadEvents_next_sound|]. split.
        + destruct rest; cbn; [done|]. by intros q [= <-].
        + by apply loadEvents_next_consistent. }
    destruct Hres as (Hs1 & Hv1 & Hc1).
    destruct (resume pending (loader p)) as [d next].
    cbn [fst snd loader inflight] in *.
    split; [done|]. destruct next as [q|].
    + split; [by apply Forall_insert, Hv1|].
      intros Hi. apply lookup_lt_Some in Hp.
      apply (f_equal length) in Hi. rewrite length_insert in Hi. cbn in Hi. lia.
    + split; [by apply Forall_delete|]. intros _. by apply Hc1.
Qed.

Lemma upload_csv_appends text Date_now d :
  ∃ o, call (HandleFileUpload (CsvFile text Date_now)) d
       = set_current (Z.of_nat (length (events d))) (VObj o)
           (set_events (events d ++ [VObj o]) d).
Proof.
  cbn [Loader.call]. unfold Loader.handleFileUpload, parseCSV.
  match goal with
  | |- context [set_events (events d ++ [VObj ?o]) d] =>
      exists o; set (ob := o)
  end.
  rewrite (switchToEvent_in_range _ _ ob).
  - cbn [snd set_events events]. rewrite length_app. cbn [length].
    f_equal. lia.
  - cbn [set_events events]. rewrite length_app. cbn [length].
    replace (Z.to_nat (Z.of_nat (length (events d) + 1) - 1))
      with (length (events d)) by lia.
    by rewrite list_lookup_middle.
  - cbn [set_events events]. rewrite length_app. cbn [length]. lia.
Qed.

(** While a load is in flight the current event can be stale: with two
    uploaded events, the second current, a load of two files or more that
    has appended its first event leaves one event and the current index
    1. *)
Lemma stale_while_loading r r' rest e :
  accepted r = Some e →
  let upload := Calls (HandleFileUpload (CsvFile "" 0)) in
  let p := steps [upload; upload; Begins (r :: r' :: rest);
                  Resumes 0; Resumes 0] opened in
  events (loader p) = [e] ∧ currentEventIndex (loader p) = 1%Z ∧
  inflight p = [AwaitResponse r' rest] ∧ ¬ consistent (loader p).
Proof.
  intros He. cbn zeta.
  cbn [Async.steps foldl Async.step opened loader inflight].
  destruct (upload_csv_appends "" 0 created) as [o1 ->].
  destruct (upload_csv_appends "" 0
              (set_current (Z.of_nat (length (events created))) (VObj o1)
                 (set_events (events created ++ [VObj o1]) created)))
    as [o2 ->].
  cbn. rewrite He. cbn.
  split; [done|]. split; [done|]. split; [done|].
  intros (_ & _ & H). destruct H as [H _]; [done|]. cbn in H. lia.
Qed.

(** X18: [loadEvents] is asynchronous, and at each of its awaits the other
    calls on the loader run (navigation, [clear], uploads, further loads).
    Whatever is done on a page from its opening, and however the loads in
    flight are interleaved with it, at every point the current index is not
    negative, every loaded event is an object and the current event is null
    or an object; and whenever no load is in flight, the current index is
    in range and the current event is the event at that index while events
    are loaded.  In particular this holds after any sequence of calls that
    each run to their end.  A load that nothing interleaves with leaves the
    loader as the one-step [loadEvents] does.  While a load is in flight the
    current index can be out of range: after two uploads, a load of two
    files or more that has appended its first event leaves one event and
    the current index 1. *)
Theorem loader_stays_consistent (sts : list Step) :
  let p := steps sts opened in
  sound (loader p) ∧
  (inflight p = [] → consistent (loader p)) ∧
  (∀ cs : list Call,
     consistent (calls Math_atan2 Math_log Math_tan trim parseFloat cs created)) ∧
  (∀ responses d,
     run Math_atan2 Math_log Math_tan (2 * length responses)
       (loadEvents_begin responses d).1 (loadEvents_begin responses d).2
     = loadEvents responses d) ∧
  ∀ r r' rest e,
    accepted r = Some e →
    let upload := Calls (HandleFileUpload (CsvFile "" 0)) in
    let p' := steps [upload; upload; Begins (r :: r' :: rest);
                     Resumes 0; Resumes 0] opened in
    events (loader p') = [e] ∧ currentEventIndex (loader p') = 1%Z ∧
    inflight p' = [AwaitResponse r' rest] ∧ ¬ consistent (loader p').
Proof.
  cbn zeta.
  assert (H : ∀ p, sound (loader p) → Forall validated (inflight p) →
                   (inflight p = [] → consistent (loader p)) →
                   sound (loader (steps sts p)) ∧
                   (inflight (steps sts p) = [] →
                    consistent (loader (steps sts p)))).
  { induction sts as [|st sts IH]; intros p Hs Hv Hc; [done|].
    cbn [Async.steps foldl].
    destruct (step_invariant st p Hs Hv Hc) as (Hs' & Hv' & Hc').
    by apply IH. }
  assert (H0 : consistent created) by (split; [done|]; split; [constructor|done]).
  destruct (H opened) as [Hs Hc].
  { split; [done|]. split; [constructor|by left]. }
  { constructor. }
  { done. }
  split; [exact Hs|]. split; [exact Hc|]. split.
  - intros cs. revert H0. generalize created.
    induction cs as [|c cs IH]; intros d Hd; [done|].
    cbn [Loader.calls foldl]. by apply IH, call_consistent.
  - split.
    + intros responses d. pose proof (run_loadEvents responses d) as Hr.
      by destruct (loadEvents_begin responses d).
    + intros r r' rest e He. by apply stale_while_loading.
Qed.

End Interleaving.

Lemma consistent_lookup d i :
  consistent d → (0 ≤ i < Z.of_nat (length (events d)))%Z →
  ∃ o, events d !! Z.to_nat i = Some (VObj o).
Proof.
  intros (_ & Hall & _) Hi.
  destruct (lookup_lt_is_Some_2 (events d) (Z.to_nat i)) as [e He]; [lia|].
  destruct (Forall_lookup_1 _ _ _ _ Hall He) as [o ->]. eauto.
Qed.

Lemma set_current_back d i e :
  consistent d → events d ≠ [] →
  set_current (currentEventIndex d) (currentEvent d) (set_current i e d) = d.
Proof. intros _ _. by destruct d. Qed.

Lemma nextEvent_step d :
  consistent d → events d ≠ [] →
  let n := Z.of_nat (length (events d)) in
  let i := ((currentEventIndex d + 1) mod n)%Z in
  ∃ o, events d !! Z.to_nat i = Some (VObj o) ∧
       nextEvent d = (VObj o, set_current i (VObj o) d).
Proof.
  intros Hd Hne n i. pose proof Hd as (H0 & Hall & Hcur).
  destruct (Hcur Hne) as [Hlt Hat]. fold n in Hlt.
  assert (Hi : (0 ≤ i < n)%Z) by (apply Z.mod_pos_bound; lia).
  destruct (consistent_lookup d i Hd Hi) as [o Ho].
  exists o. split; [done|]. unfold nextEvent.
  replace (length (events d) =? 0)%nat with false
    by (symmetry; apply Nat.eqb_neq; lia).
  fold n. rewrite Z.rem_mod_nonneg by lia. fold i.
  apply switchToEvent_in_range; [done|lia].
Qed.

Lemma previousEvent_step d :
  consistent d → events d ≠ [] →
  let n := Z.of_nat (length (events d)) in
  let i := ((currentEventIndex d - 1) mod n)%Z in
  ∃ o, events d !! Z.to_nat i = Some (VObj o) ∧
       previousEvent d = (VObj o, set_current i (VObj o) d).
Proof.
  intros Hd Hne n i. pose proof Hd as (H0 & Hall & Hcur).
  destruct (Hcur Hne) as [Hlt Hat]. fold n in Hlt.
  assert (Hi : (0 ≤ i < n)%Z) by (apply Z.mod_pos_bound; lia).
  destruct (consistent_lookup d i Hd Hi) as [o Ho].
  exists o. split; [done|]. unfold previousEvent.
  replace (length (events d) =? 0)%nat with false
    by (symmetry; apply Nat.eqb_neq; lia).
  fold n.
  assert (Hprev : (if (currentEventIndex d =? 0)%Z then (n - 1)%Z
                   else (currentEventIndex d - 1)%Z) = i).
  { unfold i. destruct (currentEventIndex d =? 0)%Z eqn:Hz.
    - apply Z.eqb_eq in Hz. rewrite Hz.
      transitivity ((0 - 1 + 1 * n) mod n)%Z;
        [rewrite Z.mod_small by lia; lia|apply Z.mod_add; lia].
    - apply Z.eqb_neq in Hz. symmetry. apply Z.mod_small. lia. }
  rewrite Hprev. apply switchToEvent_in_range; [done|lia].
Qed.

(** X19: on a consistent loader with at least one event, [nextEvent] moves
    to the index [(i + 1) mod n] and [previousEvent] to [(i - 1) mod n], each
    returns the event it makes current, and each undoes the other: stepping
    forth and back returns the current event and restores the loader. *)
Theorem next_and_previous_are_inverse (d : Instance) :
  consistent d → events d ≠ [] →
  let n := Z.of_nat (length (events d)) in
  currentEventIndex (nextEvent d).2 = ((currentEventIndex d + 1) mod n)%Z ∧
  currentEventIndex (previousEvent d).2 = ((currentEventIndex d - 1) mod n)%Z ∧
  (nextEvent d).1 = currentEvent (nextEvent d).2 ∧
  (previousEvent d).1 = currentEvent (previousEvent d).2 ∧
  previousEvent (nextEvent d).2 = (currentEvent d, d) ∧
  nextEvent (previousEvent d).2 = (currentEvent d, d).
Proof.
  intros Hd Hne n. pose proof Hd as (H0 & Hall & Hcur).
  destruct (Hcur Hne) as [Hlt Hat]. fold n in Hlt.
  assert (Hn : (0 < n)%Z) by lia.
  destruct (nextEvent_step d Hd Hne) as (o1 & Ho1 & Hnext).
  destruct (previousEvent_step d Hd Hne) as (o2 & Ho2 & Hprev).
  fold n in Ho1, Hnext, Ho2, Hprev.
  rewrite Hnext, Hprev. cbn [fst snd set_current currentEventIndex currentEvent].
  split; [done|]. split; [done|]. split; [done|]. split; [done|].
  assert (Hd1 : consistent (set_current ((currentEventIndex d + 1) mod n) (VObj o1) d)).
  { pose proof (nextEvent_consistent d Hd) as Hc. by rewrite Hnext in Hc. }
  assert (Hd2 : consistent (set_current ((currentEventIndex d - 1) mod n) (VObj o2) d)).
  { pose proof (previousEvent_consistent d Hd) as Hc. by rewrite Hprev in Hc. }
  split.
  - destruct (previousEvent_step _ Hd1 Hne) as (o & Ho & ->).
    cbn [events set_current currentEventIndex] in *. fold n in Ho |- *.
    assert (Hback : (((currentEventIndex d + 1) mod n - 1) mod n
                     = currentEventIndex d)%Z).
    { rewrite Zminus_mod_idemp_l.
      replace (currentEventIndex d + 1 - 1)%Z with (currentEventIndex d) by lia.
      apply Z.mod_small. lia. }
    rewrite Hback in Ho |- *. rewrite Hat in Ho. injection Ho as Ho.
    rewrite <- Ho. f_equal. by destruct d.
  - destruct (nextEvent_step _ Hd2 Hne) as (o & Ho & ->).
    cbn [events set_current currentEventIndex] in *. fold n in Ho |- *.
    assert (Hback : (((currentEventIndex d - 1) mod n + 1) mod n
                     = currentEventIndex d)%Z).
    { rewrite Zplus_mod_idemp_l.
      replace (currentEventIndex d - 1 + 1)%Z with (currentEventIndex d) by lia.
      apply Z.mod_small. lia. }
    rewrite Hback in Ho |- *. rewrite Hat in Ho. injection Ho as Ho.
    rewrite <- Ho. f_equal. by destruct d.
Qed.

Lemma next_and_previous_are_inverse_witness :
  currentEventIndex (nextEvent two_events).2 = 0%Z ∧
  previousEvent (nextEvent two_events).2
  = (currentEvent two_events, two_events).
Proof.
  assert (Hobj : ∃ o, Samples.validated_event = VObj o)
    by (vm_compute; eexists; reflexivity).
  assert (Hd : consistent two_events).
  { split; [done|]. split; [by repeat constructor|].
    intros _. split; [done|reflexivity]. }
  assert (Hne : events two_events ≠ []) by done.
  destruct (next_and_previous_are_inverse two_events Hd Hne)
    as (H1 & _ & _ & _ & H5 & _).
  split; [exact H1|exact H5].
Defined.

End LoaderFacts.
